(** * Verdandi / Seldon: the symmetric QMR solver, the packed and triangular
    matrix storage, and the EKF example driver.

    The development follows the C++ sources:
    - [seldon/computation/solver/iterative/QmrSym.cxx]   (module [Qmr])
    - [seldon/matrix/Matrix_HermPacked.cxx]               (module [HermPacked])
    - [seldon/matrix/Matrix_Triangular.cxx]               (module [Triangular])
    - [example/clamped_bar/test_ekf.cpp]                  (module [Ekf])

    Definitions come first, the theorems about them follow. *)

From Stdlib Require Import ZArith String Ascii List Lia Bool.
From Stdlib Require Import Floats.PrimFloat.
From Stdlib Require Floats.SpecFloat Floats.FloatOps.
From stdpp Require Import base option list gmap.
From coqutil Require Import Word.LittleEndianList.
Import ListNotations.

Local Open Scope Z_scope.

(* ===================================================================== *)
(** * Part I.  The programs                                               *)
(* ===================================================================== *)

(** ** QmrSym.cxx *)

Module Qmr.

(** [QmrSym] is a template: the scalar type [Complexe] of the vectors, its
    real type [Treal], the vector, matrix and preconditioner classes and
    the [Iteration] object are parameters of the source, and they are
    parameters here.  The interfaces list exactly the operations the body
    of [QmrSym] calls. *)

(** Scalar operations.  [rho] and [rho_1] are [Treal], every other scalar
    is [Complexe]; the mixed operators of C++ are separate fields. *)
Class ScalarOps (Treal Complexe : Type) := {
  zero : Complexe;                               (* SetComplexZero(zero) *)
  one : Complexe;                                (* SetComplexOne(one)   *)
  Treal_0 : Treal;                               (* Treal(0)             *)
  real_eqb : Treal -> Treal -> bool;             (* rho == Treal(0)      *)
  cplx_eqb : Complexe -> Complexe -> bool;       (* delta == zero        *)
  cplx_real_eqb : Complexe -> Treal -> bool;     (* gamma == Treal(0)    *)
  neg : Complexe -> Complexe;                    (* -beta                *)
  real_neg : Treal -> Treal;                     (* -rho                 *)
  add : Complexe -> Complexe -> Complexe;
  mul : Complexe -> Complexe -> Complexe;
  div : Complexe -> Complexe -> Complexe;
  div_real : Complexe -> Treal -> Complexe;      (* one / rho            *)
  real_mul : Treal -> Complexe -> Complexe;      (* -rho * delta         *)
  mul_real : Complexe -> Treal -> Complexe;      (* -eta * rho_1         *)
  real_div : Treal -> Complexe -> Complexe;      (* rho / (gamma_1*beta) *)
  sqrt : Complexe -> Complexe
}.

(** Vector operations, with Seldon's in-place conventions written as
    functions of the old value of the updated argument:
    [Copy X Y] is the new [Y] after [Copy(X, Y)],
    [Mlt alpha X] the new [X] after [Mlt(alpha, X)]  (X := alpha X),
    [Add alpha X Y] the new [Y] after [Add(alpha, X, Y)]  (Y := Y + alpha X),
    [Fill a X] the new [X] after [X.Fill(a)]. *)
Class VectorOps (Treal Complexe Vector1 : Type) := {
  Copy : Vector1 -> Vector1 -> Vector1;
  Mlt : Complexe -> Vector1 -> Vector1;
  Add : Complexe -> Vector1 -> Vector1 -> Vector1;
  Fill : Complexe -> Vector1 -> Vector1;
  DotProd : Vector1 -> Vector1 -> Complexe;
  Norm2 : Vector1 -> Treal
}.

(** The matrix and the preconditioner.  [M] is passed by non-const
    reference, so [Solve] returns the preconditioner too:
    [Solve M A v y] is [(M', y')] after [M.Solve(A, v, y)]. *)
Class SystemOps (Matrix1 Preconditioner Vector1 : Type) := {
  GetM : Matrix1 -> Z;
  Solve : Preconditioner -> Matrix1 -> Vector1 -> Vector1 -> Preconditioner * Vector1
}.

(** The [Iteration] object.  Its class is not part of the sources at hand;
    only the calls [QmrSym] makes are listed.  [Init], [SetNumberIteration],
    [Fail] and [++] change the object; the queries and the two
    matrix-vector products read it.
    [MltAdd it alpha A x beta r] is the new [r] after
    [iter.MltAdd(alpha, A, x, beta, r)], [IterMlt it A p q] is the new [q]
    after [iter.Mlt(A, p, q)]. *)
Class IterationOps (Iter Complexe Matrix1 Vector1 : Type) := {
  Init : Iter -> Vector1 -> Z * Iter;
  ErrorCode : Iter -> Z;
  IsInitGuess_Null : Iter -> bool;
  MltAdd : Iter -> Complexe -> Matrix1 -> Vector1 -> Complexe -> Vector1 -> Vector1;
  SetNumberIteration : Z -> Iter -> Iter;
  Finished : Iter -> Vector1 -> bool;
  Fail : Z -> string -> Iter -> Iter;
  First : Iter -> bool;
  IterMlt : Iter -> Matrix1 -> Vector1 -> Vector1 -> Vector1;
  Incr : Iter -> Iter
}.

(** The calls [QmrSym] makes on its collaborators, in program order. *)
Inductive Call : Type :=
| Iter_Init
| Iter_ErrorCode
| Iter_IsInitGuess_Null
| Iter_MltAdd
| Iter_SetNumberIteration (n : Z)
| Iter_Finished
| Iter_Fail (code : Z)
| Iter_First
| Iter_Mlt
| Iter_Incr
| M_Solve.

Section Solver.

Context {Treal Complexe Vector1 Matrix1 Preconditioner Iter : Type}.
Context {SO : ScalarOps Treal Complexe}.
Context {VO : VectorOps Treal Complexe Vector1}.
Context {YO : SystemOps Matrix1 Preconditioner Vector1}.
Context {IO : IterationOps Iter Complexe Matrix1 Vector1}.

(** The variables that live across iterations of the [while] loop.
    [delta], [beta], [rho_1], [theta_1] and [gamma_1] are assigned in every
    iteration before they are read; they are local to [body]. *)
Record State : Type := mkState {
  x : Vector1;
  r : Vector1;
  y : Vector1;
  v : Vector1;
  p_tld : Vector1;
  p : Vector1;
  d : Vector1;
  s : Vector1;
  ep : Complexe;
  rho : Treal;
  theta : Complexe;
  gamma : Complexe;
  eta : Complexe;
  M : Preconditioner;
  iter : Iter;
  calls : list Call
}.

(** How one pass through the loop body ends: at a [break] or at its end. *)
Inductive Step : Type :=
| Break (st : State)
| Continue (st : State).

(** The body of [while (! iter.Finished(r))], lines 92-176. *)
Definition body (A : Matrix1) (st : State) : Step :=
  if real_eqb (rho st) Treal_0 then
    Break (mkState (x st) (r st) (y st) (v st) (p_tld st) (p st) (d st) (s st)
             (ep st) (rho st) (theta st) (gamma st) (eta st) (M st)
             (Fail 1 "Qmr breakdown #1" (iter st))
             (calls st ++ [Iter_Fail 1]))
  else
  (* v = v / rho, y = y / rho *)
  let v1 := Mlt (div_real one (rho st)) (v st) in
  let y1 := Mlt (div_real one (rho st)) (y st) in
  let delta := DotProd v1 y1 in
  if cplx_eqb delta zero then
    Break (mkState (x st) (r st) y1 v1 (p_tld st) (p st) (d st) (s st)
             (ep st) (rho st) (theta st) (gamma st) (eta st) (M st)
             (Fail 3 "Qmr breakdown #2" (iter st))
             (calls st ++ [Iter_Fail 3]))
  else
  (* p = y - (rho delta / ep) p *)
  let p1 :=
    if First (iter st) then Copy y1 (p st)
    else Add one y1 (Mlt (div (real_mul (real_neg (rho st)) delta) (ep st)) (p st)) in
  (* p_tld = A*p *)
  let p_tld1 := IterMlt (iter st) A p1 (p_tld st) in
  let ep1 := DotProd p1 p_tld1 in
  if cplx_eqb ep1 zero then
    Break (mkState (x st) (r st) y1 v1 p_tld1 p1 (d st) (s st)
             ep1 (rho st) (theta st) (gamma st) (eta st) (M st)
             (Fail 4 "Qmr breakdown #3" (iter st))
             (calls st ++ [Iter_First; Iter_Mlt; Iter_Fail 4]))
  else
  let beta := div ep1 delta in
  if cplx_eqb beta zero then
    Break (mkState (x st) (r st) y1 v1 p_tld1 p1 (d st) (s st)
             ep1 (rho st) (theta st) (gamma st) (eta st) (M st)
             (Fail 5 "Qmr breakdown #4" (iter st))
             (calls st ++ [Iter_First; Iter_Mlt; Iter_Fail 5]))
  else
  (* v = -beta v + p_tld *)
  let v2 := Add one p_tld1 (Mlt (neg beta) v1) in
  let My := Solve (M st) A v2 y1 in
  let M1 := fst My in
  let y2 := snd My in
  let rho_1 := rho st in
  let rho1 := Norm2 y2 in
  let gamma_1 := gamma st in
  let theta_1 := theta st in
  let theta1 := real_div rho1 (mul gamma_1 beta) in
  let gamma1 := div one (sqrt (add one (mul theta1 theta1))) in
  if cplx_real_eqb gamma1 Treal_0 then
    Break (mkState (x st) (r st) y2 v2 p_tld1 p1 (d st) (s st)
             ep1 rho1 theta1 gamma1 (eta st) M1
             (Fail 6 "Qmr breakdown #5" (iter st))
             (calls st ++ [Iter_First; Iter_Mlt; M_Solve; Iter_Fail 6]))
  else
  let eta1 :=
    div (mul (mul (mul_real (neg (eta st)) rho_1) gamma1) gamma1)
        (mul (mul beta gamma_1) gamma_1) in
  let d1 :=
    if First (iter st) then Mlt eta1 (Copy p1 (d st))
    else Add eta1 p1 (Mlt (mul (mul (mul theta_1 theta_1) gamma1) gamma1) (d st)) in
  let s1 :=
    if First (iter st) then Mlt eta1 (Copy p_tld1 (s st))
    else Add eta1 p_tld1 (Mlt (mul (mul (mul theta_1 theta_1) gamma1) gamma1) (s st)) in
  let x1 := Add one d1 (x st) in
  let r1 := Add (neg one) s1 (r st) in
  Continue (mkState x1 r1 y2 v2 p_tld1 p1 d1 s1
              ep1 rho1 theta1 gamma1 eta1 M1
              (Incr (iter st))
              (calls st ++ [Iter_First; Iter_Mlt; M_Solve; Iter_First; Iter_Incr])).

(** [iter.Finished(r)] at the head of the loop is a call of its own. *)
Definition test_Finished (st : State) : State :=
  mkState (x st) (r st) (y st) (v st) (p_tld st) (p st) (d st) (s st)
    (ep st) (rho st) (theta st) (gamma st) (eta st) (M st) (iter st)
    (calls st ++ [Iter_Finished]).

(** The [while] loop, lines 90-177.  [fuel] bounds the number of passes;
    [None] means the bound was reached with the loop still running. *)
Fixpoint loop (fuel : nat) (A : Matrix1) (st : State) : option State :=
  if Finished (iter st) (r st) then Some (test_Finished st)
  else
    match fuel with
    | O => None
    | S fuel' =>
        match body A (test_Finished st) with
        | Break st' => Some st'
        | Continue st' => loop fuel' A st'
        end
    end.

(** What the caller observes when [QmrSym] returns: the status, the
    solution vector [x] (an in/out argument), the preconditioner and the
    iteration object (both passed by reference), and the calls made. *)
Record Output : Type := mkOutput {
  status : Z;
  x_out : Vector1;
  M_out : Preconditioner;
  iter_out : Iter;
  calls_out : list Call
}.

(** [return iter.ErrorCode();] at line 179. *)
Definition finish (st : State) : Output :=
  mkOutput (ErrorCode (iter st)) (x st) (M st) (iter st)
    (calls st ++ [Iter_ErrorCode]).

(** The state at the first test of the loop, lines 56-88. *)
Definition entry (A : Matrix1) (x0 b : Vector1) (M0 : Preconditioner)
    (it : Iter) : State :=
  (* r = b - Ax *)
  let r0 := Copy b b in
  let r1 := if IsInitGuess_Null it then r0
            else MltAdd it (neg one) A x0 one r0 in
  let x1 := if IsInitGuess_Null it then Fill zero x0 else x0 in
  let v1 := Copy r1 b in
  let My := Solve M0 A v1 b in
  mkState x1 r1 (snd My) v1 b b b b
    zero (Norm2 (snd My)) zero one (neg one) (fst My)
    (SetNumberIteration 0 it)
    ([Iter_Init; Iter_IsInitGuess_Null]
       ++ (if IsInitGuess_Null it then [] else [Iter_MltAdd])
       ++ [M_Solve; Iter_SetNumberIteration 0]).

(** [passes n A st]: the state after [n] complete passes through the
    loop from [st] (the test fails and the body runs to its end, [n]
    times); [None] when the loop stops or breaks earlier. *)
Fixpoint passes (n : nat) (A : Matrix1) (st : State) : option State :=
  match n with
  | O => Some st
  | S n' =>
      if Finished (iter st) (r st) then None
      else
        match body A (test_Finished st) with
        | Break _ => None
        | Continue st' => passes n' A st'
        end
  end.

(** [QmrSym(A, x, b, M, iter)]. *)
Definition QmrSym (fuel : nat) (A : Matrix1) (x0 b : Vector1)
    (M0 : Preconditioner) (it : Iter) : option Output :=
  let N := GetM A in
  if N <=? 0 then Some (mkOutput 0 x0 M0 it [])
  else
    let success_init := fst (Init it b) in
    let it1 := snd (Init it b) in
    if negb (success_init =? 0) then
      Some (mkOutput (ErrorCode it1) x0 M0 it1 [Iter_Init; Iter_ErrorCode])
    else
      option_map finish (loop fuel A (entry A x0 b M0 it1)).

(** *** The quantities of one iteration

    The scalars the breakdown tests look at, as functions of the state at
    the head of the loop body. *)

Definition delta_of (st : State) : Complexe :=
  DotProd (Mlt (div_real one (rho st)) (v st)) (Mlt (div_real one (rho st)) (y st)).

Definition p_of (st : State) : Vector1 :=
  if First (iter st) then Copy (Mlt (div_real one (rho st)) (y st)) (p st)
  else Add one (Mlt (div_real one (rho st)) (y st))
         (Mlt (div (real_mul (real_neg (rho st)) (delta_of st)) (ep st)) (p st)).

Definition p_tld_of (A : Matrix1) (st : State) : Vector1 :=
  IterMlt (iter st) A (p_of st) (p_tld st).

Definition ep_of (A : Matrix1) (st : State) : Complexe :=
  DotProd (p_of st) (p_tld_of A st).

Definition beta_of (A : Matrix1) (st : State) : Complexe :=
  div (ep_of A st) (delta_of st).

Definition rho_of (A : Matrix1) (st : State) : Treal :=
  Norm2 (snd (Solve (M st) A
                (Add one (p_tld_of A st)
                   (Mlt (neg (beta_of A st)) (Mlt (div_real one (rho st)) (v st))))
                (Mlt (div_real one (rho st)) (y st)))).

Definition theta_of (A : Matrix1) (st : State) : Complexe :=
  real_div (rho_of A st) (mul (gamma st) (beta_of A st)).

Definition gamma_of (A : Matrix1) (st : State) : Complexe :=
  div one (sqrt (add one (mul (theta_of A st) (theta_of A st)))).

(** The five breakdown conditions, in the order the body tests them. *)
Inductive Breakdown : Type :=
| Breakdown1   (* rho == 0   *)
| Breakdown2   (* delta == 0 *)
| Breakdown3   (* ep == 0    *)
| Breakdown4   (* beta == 0  *)
| Breakdown5.  (* gamma == 0 *)

(** The code given to [iter.Fail] for each of them. *)
Definition breakdown_code (b : Breakdown) : Z :=
  match b with
  | Breakdown1 => 1
  | Breakdown2 => 3
  | Breakdown3 => 4
  | Breakdown4 => 5
  | Breakdown5 => 6
  end.

(** The message that goes with each breakdown. *)
Definition breakdown_message (b : Breakdown) : string :=
  match b with
  | Breakdown1 => "Qmr breakdown #1"
  | Breakdown2 => "Qmr breakdown #2"
  | Breakdown3 => "Qmr breakdown #3"
  | Breakdown4 => "Qmr breakdown #4"
  | Breakdown5 => "Qmr breakdown #5"
  end.

(** The first breakdown condition that holds in the iteration that starts
    at [st], if any. *)
Definition breakdown_at (A : Matrix1) (st : State) : option Breakdown :=
  if real_eqb (rho st) Treal_0 then Some Breakdown1
  else if cplx_eqb (delta_of st) zero then Some Breakdown2
  else if cplx_eqb (ep_of A st) zero then Some Breakdown3
  else if cplx_eqb (beta_of A st) zero then Some Breakdown4
  else if cplx_real_eqb (gamma_of A st) Treal_0 then Some Breakdown5
  else None.

End Solver.

(** The calls of the setup, lines 72-88, and of one complete pass through
    the loop, with the test that enters it. *)
Definition entry_calls (init_guess_null : bool) : list Call :=
  [Iter_Init; Iter_IsInitGuess_Null]
    ++ (if init_guess_null then [] else [Iter_MltAdd])
    ++ [M_Solve; Iter_SetNumberIteration 0].

Definition pass_calls : list Call :=
  [Iter_Finished; Iter_First; Iter_Mlt; M_Solve; Iter_First; Iter_Incr].

End Qmr.

(** ** An instance of the solver's parameters: real vectors of doubles

    Modelled from the spec: the vector and matrix kernels ([Copy], [Mlt],
    [Add], [DotProd], [Norm2], the matrix-vector products), the
    preconditioner and the [Iteration] class are not among the sources.
    The spec describes them as "well-defined numeric operations
    (matrix-vector product, solve, norm, dot product)" and the iteration
    parameters as holding the "convergence tolerance, maximum iteration
    count, and accumulated iteration counter/error code", with status
    "0 = converged, nonzero = specific breakdown or iteration-limit code".
    This instance takes [double] scalars, dense vectors and matrices, and
    the identity preconditioner; it is used to run [QmrSym] on concrete
    systems. *)

Module QmrDouble.

Local Open Scope float_scope.

Definition Vector := list float.
Definition Matrix := list (list float).

Definition dot (X Y : Vector) : float :=
  fold_left (fun acc ab => acc + fst ab * snd ab) (combine X Y) 0.

Definition matvec (A : Matrix) (X : Vector) : Vector :=
  map (fun row => dot row X) A.

#[export] Instance scalar_ops : Qmr.ScalarOps float float := {|
  Qmr.zero := 0;
  Qmr.one := 1;
  Qmr.Treal_0 := 0;
  Qmr.real_eqb := PrimFloat.eqb;
  Qmr.cplx_eqb := PrimFloat.eqb;
  Qmr.cplx_real_eqb := PrimFloat.eqb;
  Qmr.neg := PrimFloat.opp;
  Qmr.real_neg := PrimFloat.opp;
  Qmr.add := PrimFloat.add;
  Qmr.mul := PrimFloat.mul;
  Qmr.div := PrimFloat.div;
  Qmr.div_real := PrimFloat.div;
  Qmr.real_mul := PrimFloat.mul;
  Qmr.mul_real := PrimFloat.mul;
  Qmr.real_div := PrimFloat.div;
  Qmr.sqrt := PrimFloat.sqrt
|}.

#[export] Instance vector_ops : Qmr.VectorOps float float Vector := {|
  Qmr.Copy := fun X _ => X;
  Qmr.Mlt := fun alpha X => map (fun a => alpha * a) X;
  Qmr.Add := fun alpha X Y => map (fun ab => snd ab + alpha * fst ab) (combine X Y);
  Qmr.Fill := fun a X => map (fun _ => a) X;
  Qmr.DotProd := dot;
  Qmr.Norm2 := fun X => PrimFloat.sqrt (dot X X)
|}.

(** The identity preconditioner: [Solve] copies [v] into [y]. *)
#[export] Instance system_ops : Qmr.SystemOps Matrix unit Vector := {|
  Qmr.GetM := fun A => Z.of_nat (length A);
  Qmr.Solve := fun M _ v _ => (M, v)
|}.

Record Iteration : Type := mkIteration {
  tolerance : float;
  facteur_reste : float;
  max_iter : Z;
  nb_iter : Z;
  error_code : Z;
  fail_convergence : bool;
  init_guess_null : bool
}.

(** The iteration-limit status; the spec only says it is not 0. *)
Definition limit_code : Z := (-2)%Z.

Definition Iteration_ErrorCode (it : Iteration) : Z :=
  if (max_iter it <=? nb_iter it)%Z then limit_code
  else if fail_convergence it then error_code it
  else 0%Z.

Definition Iteration_Finished (it : Iteration) (r : Vector) : bool :=
  (facteur_reste it * PrimFloat.sqrt (dot r r) <? tolerance it)
  || (max_iter it <=? nb_iter it)%Z.

Definition Iteration_Init (it : Iteration) (b : Vector) : Z * Iteration :=
  if PrimFloat.sqrt (dot b b) =? 0 then ((-1)%Z, it)
  else (0%Z, mkIteration (tolerance it) (1 / PrimFloat.sqrt (dot b b))
               (max_iter it) 0%Z (error_code it) (fail_convergence it)
               (init_guess_null it)).

#[export] Instance iteration_ops : Qmr.IterationOps Iteration float Matrix Vector := {|
  Qmr.Init := Iteration_Init;
  Qmr.ErrorCode := Iteration_ErrorCode;
  Qmr.IsInitGuess_Null := init_guess_null;
  Qmr.MltAdd := fun _ alpha A X beta Y =>
    map (fun ay => beta * snd ay + alpha * fst ay) (combine (matvec A X) Y);
  Qmr.SetNumberIteration := fun n it =>
    mkIteration (tolerance it) (facteur_reste it) (max_iter it) n
      (error_code it) (fail_convergence it) (init_guess_null it);
  Qmr.Finished := Iteration_Finished;
  Qmr.Fail := fun c _ it =>
    mkIteration (tolerance it) (facteur_reste it) (max_iter it) (nb_iter it)
      c true (init_guess_null it);
  Qmr.First := fun it => (nb_iter it =? 0)%Z;
  Qmr.IterMlt := fun _ A X _ => matvec A X;
  Qmr.Incr := fun it =>
    mkIteration (tolerance it) (facteur_reste it) (max_iter it) (nb_iter it + 1)%Z
      (error_code it) (fail_convergence it) (init_guess_null it)
|}.

(** The iteration object's own notion of a converged run: no failure was
    recorded, iterations are left, and the relative residual is below the
    tolerance. *)
Definition Converged (it : Iteration) (r : Vector) : Prop :=
  fail_convergence it = false /\
  (nb_iter it < max_iter it)%Z /\
  (facteur_reste it * PrimFloat.sqrt (dot r r) <? tolerance it) = true.

(** A fresh iteration object: tolerance [1e-6], at most [100] iterations,
    zero initial guess. *)
Definition iter0 : Iteration :=
  mkIteration 0x1.0c6f7a0b5ed8dp-20 0 100%Z 0%Z 0%Z false true.

(** [A2 x = b2] with [A2 = diag(1, 2)] and [b2 = (1, 1)]. *)
Definition A2 : Matrix := [[1; 0]; [0; 2]].
Definition b2 : Vector := [1; 1].

(** A singular system: [A0 = 0], so that [ep = <p, A p> = 0]. *)
Definition A0 : Matrix := [[0; 0]; [0; 0]].

(** The state of [QmrSym] on [A2 x = b2] at the head of the second pass
    (after the first pass and the stopping test). *)
Definition st1 : Qmr.State :=
  Eval vm_compute in
    match Qmr.passes 1 A2
            (Qmr.entry A2 [0; 0] b2 tt (snd (Iteration_Init iter0 b2))) with
    | Some st => Qmr.test_Finished st
    | None => Qmr.entry A2 [0; 0] b2 tt iter0
    end.

End QmrDouble.

(** ** test_ekf.cpp *)

Module Ekf.

(** The driver class [Verdandi::ExtendedKalmanFilter<...>] is not among the
    sources; the methods [main] calls are parameters.  A method either
    returns, leaving the driver in a new state, or raises ([None]).
    [HasFinished] is a query. *)
Class DriverOps (Driver : Type) := {
  Initialize : string -> Driver -> option Driver;
  HasFinished : Driver -> bool;
  InitializeStep : Driver -> option Driver;
  Forward : Driver -> option Driver;
  Analyze : Driver -> option Driver;
  FinalizeStep : Driver -> option Driver;
  Finalize : Driver -> option Driver
}.

(** The calls [main] makes on the driver, in program order. *)
Inductive Call : Type :=
| Call_Initialize (configuration_file : string)
| Call_HasFinished
| Call_InitializeStep
| Call_Forward
| Call_Analyze
| Call_FinalizeStep
| Call_Finalize.

(** How [main] ends: [return code], or an exception leaves the block
    between [VERDANDI_TRY] and [VERDANDI_END] (the macros are not among
    the sources; what [VERDANDI_END] does with it is not modelled). *)
Inductive Exit : Type :=
| Return (code : Z)
| Raised.

Record Run : Type := mkRun {
  exit : Exit;
  trace : list Call;
  cout : string
}.

Definition endl : string := String (ascii_of_nat 10) EmptyString.

(** The message of lines 39-40. *)
Definition mesg (argv0 : string) : string :=
  (("Usage:" ++ endl) ++ (("  " ++ argv0) ++ " [configuration file]"))%string.

(** A computation inside the try block: it extends the trace and returns a
    value, raises, or runs out of fuel. *)
Inductive Result (A : Type) : Type :=
| Value (a : A)
| Raise
| OutOfFuel.
Arguments Value {A} a.
Arguments Raise {A}.
Arguments OutOfFuel {A}.

Section Main.

Context {Driver : Type} {DO : DriverOps Driver}.

Definition Prog (A : Type) : Type := list Call -> Result A * list Call.

Definition bind {A B : Type} (c : Prog A) (k : A -> Prog B) : Prog B :=
  fun tr =>
    match c tr with
    | (Value a, tr') => k a tr'
    | (Raise, tr') => (Raise, tr')
    | (OutOfFuel, tr') => (OutOfFuel, tr')
    end.

Notation "x <- c ;; k" := (bind c (fun x => k))
  (at level 100, c at next level, right associativity).

(** [driver.f()] for a method [f] that changes the driver. *)
Definition invoke (c : Call) (f : Driver -> option Driver) (driver : Driver)
  : Prog Driver :=
  fun tr =>
    match f driver with
    | Some driver' => (Value driver', tr ++ [c])
    | None => (Raise, tr ++ [c])
    end.

(** [driver.HasFinished()]. *)
Definition query_HasFinished (driver : Driver) : Prog bool :=
  fun tr => (Value (HasFinished driver), tr ++ [Call_HasFinished]).

(** The [while] loop of lines 53-59. *)
Fixpoint while_loop (fuel : nat) (driver : Driver) : Prog Driver :=
  finished <- query_HasFinished driver ;;
  if finished then (fun tr => (Value driver, tr))
  else
    match fuel with
    | O => fun tr => (OutOfFuel, tr)
    | S fuel' =>
        driver <- invoke Call_InitializeStep InitializeStep driver ;;
        driver <- invoke Call_Forward Forward driver ;;
        driver <- invoke Call_Analyze Analyze driver ;;
        driver <- invoke Call_FinalizeStep FinalizeStep driver ;;
        while_loop fuel' driver
    end.

(** [main(argc, argv)].  [argv] is the program name [argv0] followed by the
    arguments [args], so [argc = 1 + length args]; [driver0] is the state
    of the default-constructed driver of line 49.  [None]: the bound on
    the loop was reached. *)
Definition main (fuel : nat) (argv0 : string) (args : list string)
    (driver0 : Driver) : option Run :=
  let argc := 1 + Z.of_nat (length args) in
  if negb (argc =? 2) then
    Some (mkRun (Return 1) [] (mesg argv0 ++ endl)%string)
  else
    let argv1 := nth 0 args EmptyString in
    match (driver <- invoke (Call_Initialize argv1) (Initialize argv1) driver0 ;;
           driver <- while_loop fuel driver ;;
           invoke Call_Finalize Finalize driver) [] with
    | (Value _, tr) => Some (mkRun (Return 0) tr EmptyString)
    | (Raise, tr) => Some (mkRun Raised tr EmptyString)
    | (OutOfFuel, _) => None
    end.

(** One cycle of the loop body, when every step returns. *)
Definition one_cycle (driver : Driver) : option Driver :=
  match InitializeStep driver with
  | Some d1 =>
      match Forward d1 with
      | Some d2 =>
          match Analyze d2 with
          | Some d3 => FinalizeStep d3
          | None => None
          end
      | None => None
      end
  | None => None
  end.

(** [cycles k driver]: the driver after [k] cycles, each entered with
    [HasFinished()] false. *)
Fixpoint cycles (k : nat) (driver : Driver) : option Driver :=
  match k with
  | O => Some driver
  | S k' =>
      if HasFinished driver then None
      else
        match one_cycle driver with
        | Some driver' => cycles k' driver'
        | None => None
        end
  end.

End Main.





(** A driver that never finishes, and one whose [Forward] raises in its
    second cycle. *)
Definition endless_driver : DriverOps unit := {|
  Initialize := fun _ _ => Some tt;
  HasFinished := fun _ => false;
  InitializeStep := Some;
  Forward := Some;
  Analyze := Some;
  FinalizeStep := Some;
  Finalize := Some
|}.


End Ekf.

(** ** What the matrix classes share: integers, memory, streams *)

Module Store.

Abbreviation byte := Init.Byte.byte.

(** [int] is a 32-bit two's-complement integer; products and sums that
    size a buffer are wrapped, and [/] rounds towards zero. *)
Definition wrap (z : Z) : Z := (z + 2 ^ 31) mod 2 ^ 32 - 2 ^ 31.
Definition int_add (a b : Z) : Z := wrap (a + b).
Definition int_mul (a b : Z) : Z := wrap (a * b).
Definition int_div (a b : Z) : Z := wrap (Z.quot a b).

(** A pointer is [None] (NULL) or the location of a block. *)
Definition loc : Type := positive.

(** The exceptions of Seldon thrown by the code at hand, with the name of
    the throwing function; [AllocatorError] stands for whatever the
    allocator itself throws. *)
Inductive error : Type :=
| NoMemory (function : string)
| IOError (function comment : string)
| AllocatorError.

(** How a call ends: it returns, it throws (the state is the one an
    observer finds after catching), or its behaviour is undefined (a null
    or out-of-bounds access, an indeterminate value, a division by 0). *)
Inductive outcome (A : Type) : Type :=
| Done (a : A)
| Thrown (e : error) (a : A)
| Undefined.
Arguments Done {A} a.
Arguments Thrown {A} e a.
Arguments Undefined {A}.

(** The state an observer finds after the call, if any. *)
Definition state_of {A : Type} (o : outcome A) : option A :=
  match o with
  | Done a => Some a
  | Thrown _ a => Some a
  | Undefined => None
  end.

(** [for (int k = a; k < a + count; k++) s = f(k, s)], stopping at the
    first undefined step. *)
Fixpoint for_loop {S : Type} (count : nat) (k : Z) (f : Z -> S -> option S)
    (s : S) : option S :=
  match count with
  | O => Some s
  | Datatypes.S count' =>
      match f k s with
      | Some s' => for_loop count' (k + 1) f s'
      | None => None
      end
  end.

Section Heap.

Context {T : Type}.

(** The heap maps the locations of the allocated blocks to their
    elements. *)
Abbreviation heap := (gmap loc (list T)).

(** The [Allocator] template parameter is not among the sources.  What a
    call to it does is given from outside: it hands out a block, whose
    initial elements are [init 0], [init 1], ... (for [reallocate] they may
    or may not be the old ones: "depending on your allocator, data may be
    lost"), it returns NULL, or it throws. *)
Inductive alloc_outcome : Type :=
| AllocOk (init : nat -> T)
| AllocNull
| AllocThrow.

Inductive alloc_result : Type :=
| Pointer (h : heap) (ptr : option loc)
| Exception.

Definition block (n : Z) (init : nat -> T) : list T :=
  map init (seq 0 (Z.to_nat n)).

Definition new_loc (h : heap) : loc := fresh (dom h).

(** [Allocator::allocate(n, this)]. *)
Definition allocate (o : alloc_outcome) (n : Z) (h : heap) : alloc_result :=
  match o with
  | AllocOk init => Pointer (<[new_loc h := block n init]> h) (Some (new_loc h))
  | AllocNull => Pointer h None
  | AllocThrow => Exception
  end.

(** [Allocator::deallocate(ptr, n)]. *)
Definition deallocate (ptr : option loc) (h : heap) : heap :=
  match ptr with
  | Some l => delete l h
  | None => h
  end.

(** [Allocator::reallocate(ptr, n, this)]: on success the old block is
    gone and a block of [n] elements is handed out; on failure the old
    block stays. *)
Definition reallocate (o : alloc_outcome) (ptr : option loc) (n : Z)
    (h : heap) : alloc_result :=
  match o with
  | AllocOk init =>
      Pointer (<[new_loc h := block n init]> (deallocate ptr h)) (Some (new_loc h))
  | AllocNull => Pointer h None
  | AllocThrow => Exception
  end.

(** [buf[idx]] as an rvalue and as the target of an assignment. *)
Definition read_at (buf : list T) (idx : Z) : option T :=
  if 0 <=? idx then buf !! Z.to_nat idx else None.

Definition write_at (buf : list T) (idx : Z) (a : T) : option (list T) :=
  if (0 <=? idx) && (idx <? Z.of_nat (length buf))
  then Some (<[Z.to_nat idx := a]> buf)
  else None.

(** [ptr[idx]] and [ptr[idx] = a] through a pointer into the heap. *)
Definition load (h : heap) (ptr : option loc) (idx : Z) : option T :=
  match ptr with
  | Some l =>
      match h !! l with
      | Some buf => read_at buf idx
      | None => None
      end
  | None => None
  end.

Definition store (h : heap) (ptr : option loc) (idx : Z) (a : T) : option heap :=
  match ptr with
  | Some l =>
      match h !! l with
      | Some buf =>
          match write_at buf idx a with
          | Some buf' => Some (<[l := buf']> h)
          | None => None
          end
      | None => None
      end
  | None => None
  end.

(** [ptr[dst] = xold(src)] for a vector [xold]. *)
Definition copy_back (xold : list T) (ptr : option loc) (dst src : Z)
    (h : heap) : option heap :=
  match read_at xold src with
  | Some a => store h ptr dst a
  | None => None
  end.

(** The first [n] elements behind [ptr]; nothing is read when [n <= 0]. *)
Definition buffer (h : heap) (ptr : option loc) (n : Z) : option (list T) :=
  if n <=? 0 then Some []
  else
    match ptr with
    | Some l =>
        match h !! l with
        | Some buf =>
            if n <=? Z.of_nat (length buf) then Some (take (Z.to_nat n) buf)
            else None
        | None => None
        end
    | None => None
    end.

End Heap.

(** *** Binary streams *)

Record ostream : Type := mkOstream {
  o_good : bool;
  o_bytes : list byte
}.

(** [FileStream.write(ptr, n)]: nothing is written to a stream that is
    not good. *)
Definition write (bs : list byte) (s : ostream) : ostream :=
  if o_good s then mkOstream true (o_bytes s ++ bs) else s.

Record istream : Type := mkIstream {
  i_good : bool;
  i_bytes : list byte
}.

(** [FileStream.read(ptr, n)]: the bytes obtained and the stream
    afterwards; a short read takes what is left and sets the fail bit. *)
Definition read (n : nat) (s : istream) : list byte * istream :=
  if i_good s then
    if (n <=? length (i_bytes s))%nat
    then (take n (i_bytes s), mkIstream true (drop n (i_bytes s)))
    else (i_bytes s, mkIstream false [])
  else ([], s).

(** [sizeof(int)] bytes of an [int], in the byte order of the machine
    (little-endian here). *)
Definition encode_int (z : Z) : list byte := le_split 4 z.
Definition decode_int (bs : list byte) : Z := wrap (le_combine bs).

(** Reading an [int] variable that was declared without a value: it has
    one only when all four bytes arrive. *)
Definition read_int (s : istream) : option (Z * istream) :=
  let '(bs, s') := read 4 s in
  if (length bs =? 4)%nat then Some (decode_int bs, s') else None.

(** The object representation of the elements: [sizeof(value_type)] bytes
    each. *)
Class ValueRep (T : Type) := {
  sizeof : nat;
  encode : T -> list byte;
  decode : list byte -> T
}.

Section Bytes.

Context {T : Type} {VR : ValueRep T}.

Definition encode_all (buf : list T) : list byte :=
  concat (map encode buf).

Fixpoint decode_all (n : nat) (bs : list byte) : list T :=
  match n with
  | O => []
  | S n' => decode (take sizeof bs) :: decode_all n' (drop sizeof bs)
  end.

(** The elements of [buf] after [bs] was read into its first bytes; the
    read must fit the buffer. *)
Definition store_bytes (bs : list byte) (buf : list T) : option (list T) :=
  if (length bs <=? length buf * sizeof)%nat
  then Some (decode_all (length buf) (bs ++ drop (length bs) (encode_all buf)))
  else None.

(** [FileStream.read(reinterpret_cast<char*>(ptr), n * sizeof(value_type))]
    for [n] elements: nothing is touched when no byte arrives. *)
Definition read_into (h : gmap loc (list T)) (ptr : option loc) (n : Z)
    (s : istream) : option (gmap loc (list T) * istream) :=
  if n <? 0 then None
  else
    let '(bs, s') := read (Z.to_nat n * sizeof) s in
    match bs with
    | [] => Some (h, s')
    | _ :: _ =>
        match ptr with
        | Some l =>
            match h !! l with
            | Some buf =>
                match store_bytes bs buf with
                | Some buf' => Some (<[l := buf']> h, s')
                | None => None
                end
            | None => None
            end
        | None => None
        end
    end.

(** [Allocator::memoryset(ptr, c, n)], the [memset] of the allocator: the
    first [n] bytes behind [ptr] are set to [c]; nothing is touched when
    [n] is 0. *)
Definition memoryset (h : gmap loc (list T)) (ptr : option loc) (c : byte)
    (n : nat) : option (gmap loc (list T)) :=
  match n with
  | O => Some h
  | S _ =>
      match ptr with
      | Some l =>
          match h !! l with
          | Some buf =>
              match store_bytes (replicate n c) buf with
              | Some buf' => Some (<[l := buf']> h)
              | None => None
              end
          | None => None
          end
      | None => None
      end
  end.

End Bytes.

(** *** Text streams

    The text of one element, as [operator<<] prints it and [operator>>]
    reads it, is a token; a text stream is a list of lines of tokens (on
    output each token is followed by a tabulation, each line by [endl]). *)
Class TextRep (T Token : Type) := {
  print : T -> Token;
  scan : Token -> T
}.

Record otext (Token : Type) : Type := mkOtext {
  ot_good : bool;
  ot_lines : list (list Token)
}.
Arguments mkOtext {Token} _ _.
Arguments ot_good {Token} _.
Arguments ot_lines {Token} _.

Record itext (Token : Type) : Type := mkItext {
  it_good : bool;
  it_lines : list (list Token)
}.
Arguments mkItext {Token} _ _.
Arguments it_good {Token} _.
Arguments it_lines {Token} _.

(** [getline(FileStream, line)]: the line and the stream after it, or a
    failure at the end of the stream. *)
Definition getline {Token : Type} (s : itext Token)
  : option (list Token) * itext Token :=
  if it_good s then
    match it_lines s with
    | line :: rest => (Some line, mkItext true rest)
    | [] => (None, mkItext false [])
    end
  else (None, s).

(** *** Files

    The binary files by name.  [open] creates or truncates the file it
    writes, and finds the file it reads; whether the file can be opened
    at all is given from outside.  [close] leaves in the file what was
    written to the stream. *)
Definition files : Type := string -> option (list byte).

Definition write_file (FileName : string) (bs : list byte) (fs : files) : files :=
  fun name => if String.eqb name FileName then Some bs else fs name.

(** [FileStream.open(FileName.c_str(), ofstream::binary)]. *)
Definition open_out (can_open : bool) : ostream := mkOstream can_open [].

(** [FileStream.close()] on an output stream. *)
Definition close_out (can_open : bool) (FileName : string) (s : ostream)
    (fs : files) : files :=
  if can_open then write_file FileName (o_bytes s) fs else fs.

(** [FileStream.open(FileName.c_str(), ifstream::binary)]. *)
Definition open_in (can_open : bool) (FileName : string) (fs : files) : istream :=
  match (if can_open then fs FileName else None) with
  | Some bs => mkIstream true bs
  | None => mkIstream false []
  end.

(** The comment of the [IOError] of a read that left the stream not
    good. *)
Definition input_failed : string :=
  ("Input operation failed."
     ++ " The input file may have been removed"
     ++ " or may not contain enough data.")%string.

(** The comment of the [IOError] of a file that cannot be opened. *)
Definition unable_to_open (FileName : string) : string :=
  ("Unable to open file " ++ String (ascii_of_nat 34) FileName
     ++ String (ascii_of_nat 34) ".")%string.

(** The heap [h] is [h0] and the block behind [ptr], which [h0] does not
    hold. *)
Definition owns {T : Type} (h0 : gmap loc (list T)) (ptr : option loc)
    (h : gmap loc (list T)) : Prop :=
  match ptr with
  | Some l => h0 !! l = None /\ exists blk, h = <[l := blk]> h0
  | None => h = h0
  end.

(** A step of a loop over a block: the element [i] of the block behind
    [ptr] becomes [g i a], where [a] is its old value. *)
Definition block_step {T : Type} (ptr : option loc) (g : Z -> T -> T)
    (step : Z -> gmap loc (list T) -> option (gmap loc (list T))) : Prop :=
  forall l i h blk,
    ptr = Some l -> h !! l = Some blk -> 0 <= i < Z.of_nat (length blk) ->
    exists a, blk !! Z.to_nat i = Some a /\
              step i h = Some (<[l := <[Z.to_nat i := g i a]> blk]> h).

End Store.

(** ** Matrix_HermPacked.cxx *)

Module HermPacked.

Import Store.

(** The attributes [m_], [n_] and [data_] inherited from [Matrix_Base]. *)
Record t : Type := mk {
  m_ : Z;
  n_ : Z;
  data_ : option loc
}.

Definition GetM (A : t) : Z := m_ A.
Definition GetN (A : t) : Z := n_ A.

(** The number of elements of a packed [i x i] matrix, as the constructor,
    [Clear] and [Reallocate] compute it: [(i * (i + 1)) / 2]. *)
Definition packed_size (i : Z) : Z := int_div (int_mul i (int_add i 1)) 2.

(** Modelled from the spec: [GetDataSize] is not defined in the sources at
    hand; the spec gives "[i(i+1)/2] packed" for the count of stored
    scalars, which is the size [Clear] deallocates. *)
Definition GetDataSize (A : t) : Z := packed_size (m_ A).

Section Methods.

Context {T : Type}.

Abbreviation heap := (gmap loc (list T)).

(** [SELDON_CHECK_MEMORY] and [SELDON_CHECK_IO]: whether the guarded
    blocks are compiled in. *)
Variable check_memory : bool.
Variable check_io : bool.

(** [Matrix_HermPacked(int i, int j)], lines 35-65.  With the checks a
    failed allocation leaves an empty matrix and the constructor returns;
    without them a null pointer is kept, and an exception of the
    allocator propagates. *)
Definition Matrix_HermPacked (o : alloc_outcome) (i j : Z) (h : heap)
  : outcome (heap * t) :=
  match allocate o (packed_size i) h with
  | Pointer h' ptr =>
      if check_memory && negb (bool_decide (is_Some ptr))
      then Done (h', mk 0 0 ptr)
      else Done (h', mk i i ptr)
  | Exception =>
      if check_memory then Done (h, mk 0 0 None)
      else Thrown AllocatorError (h, mk i i None)
  end.

(** [Clear()], lines 88-116. *)
Definition Clear (hA : heap * t) : heap * t :=
  let '(h, A) := hA in
  (deallocate (data_ A) h, mk 0 0 None).

(** [Reallocate(int i, int j)], lines 131-170. *)
Definition Reallocate (o : alloc_outcome) (i j : Z) (hA : heap * t)
  : outcome (heap * t) :=
  let '(h, A) := hA in
  if negb (i =? m_ A) then
    match reallocate o (data_ A) (packed_size i) h with
    | Pointer h' ptr =>
        if check_memory && negb (bool_decide (is_Some ptr))
        then Thrown (NoMemory "Matrix_HermPacked::Reallocate(int, int)")
               (h', mk 0 0 ptr)
        else Done (h', mk i i ptr)
    | Exception =>
        if check_memory
        then Thrown (NoMemory "Matrix_HermPacked::Reallocate(int, int)")
               (h, mk 0 0 None)
        else Thrown AllocatorError (h, mk i i (data_ A))
    end
  else Done (h, A).

(** [SetData(int i, int j, pointer data)], lines 189-201. *)
Definition SetData (i j : Z) (data : option loc) (hA : heap * t) : heap * t :=
  let '(h, _) := Clear hA in
  (h, mk i i data).

(** [Nullify()], lines 209-215. *)
Definition Nullify (hA : heap * t) : heap * t :=
  let '(h, _) := hA in
  (h, mk 0 0 None).

Context {VR : ValueRep T}.

(** [Write(ostream& FileStream)], lines 415-444.  The stream is in
    memory: a write to a good stream succeeds. *)
Definition Write (FileStream : ostream) (hA : heap * t) : outcome ostream :=
  let '(h, A) := hA in
  if check_io && negb (o_good FileStream) then
    Thrown (IOError "Matrix_HermPacked::Write(ofstream& FileStream)"
              "Stream is not ready.") FileStream
  else
    let s1 := write (encode_int (m_ A)) FileStream in
    let s2 := write (encode_int (n_ A)) s1 in
    if o_good s2 then
      match buffer h (data_ A) (GetDataSize A) with
      | Some buf => Done (write (encode_all buf) s2)
      | None => Undefined
      end
    else Done s2.

(** [Read(istream& FileStream)], lines 552-581. *)
Definition Read (o : alloc_outcome) (FileStream : istream) (hA : heap * t)
  : outcome (istream * (heap * t)) :=
  if check_io && negb (i_good FileStream) then
    Thrown (IOError "Matrix_HermPacked::Read(ifstream& FileStream)"
              "Stream is not ready.") (FileStream, hA)
  else
    match read_int FileStream with
    | None => Undefined
    | Some (new_m, s1) =>
        match read_int s1 with
        | None => Undefined
        | Some (new_n, s2) =>
            match Reallocate o new_m new_n hA with
            | Done (h, A) =>
                match read_into h (data_ A) (GetDataSize A) s2 with
                | Some (h', s3) =>
                    if check_io && negb (i_good s3) then
                      Thrown (IOError "Matrix_HermPacked::Read(ifstream& FileStream)"
                                input_failed) (s3, (h', A))
                    else Done (s3, (h', A))
                | None => Undefined
                end
            | Thrown e hA' => Thrown e (s2, hA')
            | Undefined => Undefined
            end
        end
    end.

(** [Matrix<T, Prop, ColHermPacked, Allocator>::Resize(int i, int j)],
    lines 709-727. *)
Definition ColHermPacked_Resize (o : alloc_outcome) (i j : Z) (hA : heap * t)
  : outcome (heap * t) :=
  let '(h, A) := hA in
  let nold := GetDataSize A in
  match buffer h (data_ A) nold with
  | None => Undefined
  | Some xold =>
      match Reallocate o i j hA with
      | Done (h1, A1) =>
          let nmin := Z.min nold (GetDataSize A1) in
          match for_loop (Z.to_nat nmin) 0
                  (fun k => copy_back xold (data_ A1) k k) h1 with
          | Some h2 => Done (h2, A1)
          | None => Undefined
          end
      | Thrown e hA' => Thrown e hA'
      | Undefined => Undefined
      end
  end.

(** [Matrix<T, Prop, RowHermPacked, Allocator>::Resize(int i, int j)],
    lines 764-789.  The state of the outer loop is [(n, nold)] and the
    heap. *)
Definition RowHermPacked_Resize (o : alloc_outcome) (i j : Z) (hA : heap * t)
  : outcome (heap * t) :=
  let '(h, A) := hA in
  let nold := GetDataSize A in
  let iold := m_ A in
  match buffer h (data_ A) nold with
  | None => Undefined
  | Some xold =>
      match Reallocate o i j hA with
      | Done (h1, A1) =>
          let imin := Z.min iold i in
          match for_loop (Z.to_nat imin) 0
                  (fun k '(n, nold, h) =>
                     match for_loop (Z.to_nat (imin - k)) k
                             (fun l => copy_back xold (data_ A1)
                                         (n + l - k) (nold + l - k)) h with
                     | Some h' => Some (n + (i - k), nold + (iold - k), h')
                     | None => None
                     end)
                  (0, 0, h1) with
          | Some (_, _, h2) => Done (h2, A1)
          | None => Undefined
          end
      | Thrown e hA' => Thrown e hA'
      | Undefined => Undefined
      end
  end.

End Methods.

(** Modelled from the spec: [Val(i, j)] and [operator()] are not defined in
    the sources at hand.  The spec says that "element access maps [(i,j)]
    to a packed offset via a storage-specific formula"; for the row-major
    upper packing that [RowHermPacked::Resize] preserves, row [k] of an
    [n x n] matrix starts after the [n], [n-1], ..., [n-k+1] stored
    elements of the rows above it and holds the columns [k], ..., [n-1]. *)
Definition RowHermPacked_offset (n k l : Z) : Z :=
  k * n - (k * (k - 1)) / 2 + (l - k).

(** For the column-major upper packing, column [l] starts after the
    [1], [2], ..., [l] stored elements of the columns before it. *)
Definition ColHermPacked_offset (k l : Z) : Z :=
  (l * (l + 1)) / 2 + k.

(** A dimension is valid when it is not negative and the packed size can
    be computed in an [int]. *)
Definition valid_dimension (i : Z) : Prop := 0 <= i /\ i * (i + 1) < 2 ^ 31.

Section Invariants.

Context {T : Type} {VR : ValueRep T}.

(** The stored elements: the first [GetDataSize()] elements behind
    [data_]. *)
Definition contents (hA : gmap loc (list T) * t) : option (list T) :=
  buffer (fst hA) (data_ (snd hA)) (GetDataSize (snd hA)).

(** A well-formed matrix: square, of a valid dimension, with its stored
    elements allocated. *)
Definition wf (hA : gmap loc (list T) * t) : Prop :=
  valid_dimension (m_ (snd hA)) /\ n_ (snd hA) = m_ (snd hA) /\
  is_Some (contents hA).

(** The matrices that the methods at hand can produce: from the
    constructor on, through any sequence of calls, whether a call returns
    or throws. *)
Inductive Reachable (check_memory check_io : bool)
  : gmap loc (list T) * t -> Prop :=
| Reach_Matrix_HermPacked o i j h hA :
    state_of (Matrix_HermPacked check_memory o i j h) = Some hA ->
    Reachable check_memory check_io hA
| Reach_Clear hA :
    Reachable check_memory check_io hA ->
    Reachable check_memory check_io (Clear hA)
| Reach_Reallocate o i j hA hA' :
    Reachable check_memory check_io hA ->
    state_of (Reallocate check_memory o i j hA) = Some hA' ->
    Reachable check_memory check_io hA'
| Reach_SetData i j data hA :
    Reachable check_memory check_io hA ->
    Reachable check_memory check_io (SetData i j data hA)
| Reach_Nullify hA :
    Reachable check_memory check_io hA ->
    Reachable check_memory check_io (Nullify hA)
| Reach_Read o s hA s' hA' :
    Reachable check_memory check_io hA ->
    state_of (Read check_memory check_io o s hA) = Some (s', hA') ->
    Reachable check_memory check_io hA'
| Reach_ColHermPacked_Resize o i j hA hA' :
    Reachable check_memory check_io hA ->
    state_of (ColHermPacked_Resize check_memory o i j hA) = Some hA' ->
    Reachable check_memory check_io hA'
| Reach_RowHermPacked_Resize o i j hA hA' :
    Reachable check_memory check_io hA ->
    state_of (RowHermPacked_Resize check_memory o i j hA) = Some hA' ->
    Reachable check_memory check_io hA'.

End Invariants.

(** The storage classes of the packed Hermitian matrices. *)
Inductive Storage : Type :=
| ColHermPacked
| RowHermPacked.

Section Convenience.

Context {T : Type}.

(** [SELDON_CHECK_MEMORY] and [SELDON_CHECK_IO]. *)
Variable check_memory : bool.
Variable check_io : bool.

(** Modelled from the spec: [Val(i, j)] is not defined in the sources at
    hand; an element of the stored upper triangle is at the packed offset
    of its storage. *)
Definition Val_offset (S : Storage) (A : t) (i j : Z) : Z :=
  match S with
  | RowHermPacked => RowHermPacked_offset (m_ A) i j
  | ColHermPacked => ColHermPacked_offset i j
  end.

Definition Val (S : Storage) (hA : gmap loc (list T) * t) (i j : Z) : option T :=
  let '(h, A) := hA in load h (data_ A) (Val_offset S A i j).

Definition set_Val (S : Storage) (hA : gmap loc (list T) * t) (i j : Z) (a : T)
  : option (gmap loc (list T) * t) :=
  let '(h, A) := hA in
  match store h (data_ A) (Val_offset S A i j) a with
  | Some h' => Some (h', A)
  | None => None
  end.

(** [Fill()], lines 256-261: [SetComplexReal(i, this->data_[i])].  The
    conversion [SetComplexReal] is not among the sources; it is a
    parameter. *)
Definition Fill0 (SetComplexReal : Z -> T) (hA : gmap loc (list T) * t)
  : option (gmap loc (list T) * t) :=
  let '(h, A) := hA in
  match for_loop (Z.to_nat (GetDataSize A)) 0
          (fun i h => store h (data_ A) i (SetComplexReal i)) h with
  | Some h' => Some (h', A)
  | None => None
  end.

(** [Fill(const T0& x)], lines 270-278. *)
Definition Fill {T0 : Type} (SetComplexReal : T0 -> T) (x : T0)
    (hA : gmap loc (list T) * t) : option (gmap loc (list T) * t) :=
  let '(h, A) := hA in
  let x_ := SetComplexReal x in
  match for_loop (Z.to_nat (GetDataSize A)) 0
          (fun i h => store h (data_ A) i x_) h with
  | Some h' => Some (h', A)
  | None => None
  end.

(** [SetIdentity()], lines 237-248. *)
Definition SetIdentity (S : Storage) (SetComplexReal : T -> T) (zero one : T)
    (hA : gmap loc (list T) * t) : option (gmap loc (list T) * t) :=
  match Fill SetComplexReal zero hA with
  | Some hA1 =>
      for_loop (Z.to_nat (Z.min (m_ (snd hA1)) (n_ (snd hA1)))) 0
        (fun i hA => set_Val S hA i i one) hA1
  | None => None
  end.

(** [Matrix<T, Prop, ColHermPacked, Allocator>::operator*= (const T0& x)],
    lines 689-698: [this->data_[i] *= x]. *)
Definition ColHermPacked_mul_assign {T0 : Type} (mul : T -> T0 -> T) (x : T0)
    (hA : gmap loc (list T) * t) : option (gmap loc (list T) * t) :=
  let '(h, A) := hA in
  match for_loop (Z.to_nat (GetDataSize A)) 0
          (fun i h =>
             match load h (data_ A) i with
             | Some a => store h (data_ A) i (mul a x)
             | None => None
             end) h with
  | Some h' => Some (h', A)
  | None => None
  end.

(** [Matrix<T, Prop, RowHermPacked, Allocator>::operator*= (const T0& x)],
    lines 744-753. *)
Definition RowHermPacked_mul_assign {T0 : Type} (mul : T -> T0 -> T) (x : T0)
    (hA : gmap loc (list T) * t) : option (gmap loc (list T) * t) :=
  let '(h, A) := hA in
  match for_loop (Z.to_nat (GetDataSize A)) 0
          (fun i h =>
             match load h (data_ A) i with
             | Some a => store h (data_ A) i (mul a x)
             | None => None
             end) h with
  | Some h' => Some (h', A)
  | None => None
  end.

Context {VR : ValueRep T}.

(** [Zero()], lines 228-233. *)
Definition Zero (hA : gmap loc (list T) * t) : option (gmap loc (list T) * t) :=
  let '(h, A) := hA in
  if GetDataSize A <? 0 then None
  else
    match memoryset h (data_ A) Byte.x00 (Z.to_nat (GetDataSize A) * sizeof) with
    | Some h' => Some (h', A)
    | None => None
    end.

(** [Write(string FileName)], lines 385-404. *)
Definition Write_file (can_open : bool) (FileName : string) (fs : files)
    (hA : gmap loc (list T) * t) : outcome files :=
  let FileStream := open_out can_open in
  if check_io && negb can_open then
    Thrown (IOError "Matrix_HermPacked::Write(string FileName)"
              (unable_to_open FileName)) fs
  else
    match Write check_io FileStream hA with
    | Done s => Done (close_out can_open FileName s fs)
    | Thrown e s => Thrown e (close_out can_open FileName s fs)
    | Undefined => Undefined
    end.

(** [Read(string FileName)], lines 525-541. *)
Definition Read_file (o : alloc_outcome) (can_open : bool) (FileName : string)
    (fs : files) (hA : gmap loc (list T) * t)
  : outcome (gmap loc (list T) * t) :=
  let FileStream := open_in can_open FileName fs in
  if check_io && negb (i_good FileStream) then
    Thrown (IOError "Matrix_HermPacked::Read(string FileName)"
              (unable_to_open FileName)) hA
  else
    match Read check_memory check_io o FileStream hA with
    | Done (_, hA') => Done hA'
    | Thrown e (_, hA') => Thrown e hA'
    | Undefined => Undefined
    end.

End Convenience.

(** The calls that change a matrix and return, with allocations that
    succeed. *)
Inductive Updates {T : Type} {VR : ValueRep T} (check_memory check_io : bool)
  : gmap loc (list T) * t -> gmap loc (list T) * t -> Prop :=
| Updates_Reallocate init i j hA hA' :
    Reallocate check_memory (AllocOk init) i j hA = Done hA' ->
    Updates check_memory check_io hA hA'
| Updates_ColHermPacked_Resize init i j hA hA' :
    ColHermPacked_Resize check_memory (AllocOk init) i j hA = Done hA' ->
    Updates check_memory check_io hA hA'
| Updates_RowHermPacked_Resize init i j hA hA' :
    RowHermPacked_Resize check_memory (AllocOk init) i j hA = Done hA' ->
    Updates check_memory check_io hA hA'
| Updates_Read init s s' hA hA' :
    Read check_memory check_io (AllocOk init) s hA = Done (s', hA') ->
    Updates check_memory check_io hA hA'
| Updates_Zero hA hA' :
    Zero hA = Some hA' ->
    Updates check_memory check_io hA hA'
| Updates_SetIdentity S conv zero one hA hA' :
    SetIdentity S conv zero one hA = Some hA' ->
    Updates check_memory check_io hA hA'
| Updates_Fill0 conv hA hA' :
    Fill0 conv hA = Some hA' ->
    Updates check_memory check_io hA hA'
| Updates_Fill (conv : T -> T) x hA hA' :
    Fill conv x hA = Some hA' ->
    Updates check_memory check_io hA hA'
| Updates_ColHermPacked_mul_assign (mul : T -> T -> T) x hA hA' :
    ColHermPacked_mul_assign mul x hA = Some hA' ->
    Updates check_memory check_io hA hA'
| Updates_RowHermPacked_mul_assign (mul : T -> T -> T) x hA hA' :
    RowHermPacked_mul_assign mul x hA = Some hA' ->
    Updates check_memory check_io hA hA'.

End HermPacked.

(** ** Matrix_Triangular.cxx *)

Module Triangular.

Import Store.

(** Modelled from the spec: the storage classes are not among the sources.
    The spec has the buffer "row-major or column-major" and "an
    upper/lower storage flag"; [GetFirst] and [GetSecond] pick the index
    of the row pointer and the index inside the row, and [UpLo] tells
    upper storage. *)
Inductive Storage : Type :=
| ColUpTriang
| ColLoTriang
| RowUpTriang
| RowLoTriang.

Definition GetFirst (S : Storage) (i j : Z) : Z :=
  match S with
  | RowUpTriang | RowLoTriang => i
  | ColUpTriang | ColLoTriang => j
  end.

Definition GetSecond (S : Storage) (i j : Z) : Z :=
  match S with
  | RowUpTriang | RowLoTriang => j
  | ColUpTriang | ColLoTriang => i
  end.

Definition UpLo (S : Storage) : bool :=
  match S with
  | ColUpTriang | RowUpTriang => true
  | ColLoTriang | RowLoTriang => false
  end.

(** A row pointer [ptr + offset]: a pointer into the data block. *)
Abbreviation rowptr := (option loc * Z)%type.

(** The attributes: [m_], [n_], [data_] of [Matrix_Base], and the array
    [me_] of row pointers ([None] when [me_] is NULL).  The array belongs
    to the matrix alone and is kept in the record. *)
Record t : Type := mk {
  m_ : Z;
  n_ : Z;
  data_ : option loc;
  me_ : option (list rowptr)
}.

Definition GetM (A : t) : Z := m_ A.
Definition GetN (A : t) : Z := n_ A.

(** Modelled from the spec: [GetDataSize] is not defined in the sources at
    hand; the spec gives "[i^2] dense" for the layouts that keep the whole
    square, which is the size [Clear] deallocates and [Write] writes:
    [m_ * n_]. *)
Definition GetDataSize (A : t) : Z := int_mul (m_ A) (n_ A).

(** [calloc(i, sizeof(pointer))]: null row pointers, or NULL. *)
Definition calloc (ok : bool) (i : Z) : option (list rowptr) :=
  if ok then Some (replicate (Z.to_nat i) (None, 0)) else None.

(** [realloc(me_, i * sizeof(pointer))]: the old entries that fit, or
    NULL. *)
Definition realloc (ok : bool) (me : option (list rowptr)) (i : Z)
  : option (list rowptr) :=
  if ok then Some (resize (Z.to_nat i) (None, 0) (default [] me)) else None.

(** [for (k = 0; k < count; k++, ptr += lgth) me_[k] = ptr;] *)
Definition set_rows (me : option (list rowptr)) (ptr : option loc)
    (lgth count : Z) : option (option (list rowptr)) :=
  for_loop (Z.to_nat count) 0
    (fun k me =>
       match me with
       | Some rows =>
           if (0 <=? k) && (k <? Z.of_nat (length rows))
           then Some (Some (<[Z.to_nat k := (ptr, k * lgth)]> rows))
           else None
       | None => None
       end) me.

Section Methods.

Context {T : Type}.

Abbreviation heap := (gmap loc (list T)).

Variable S : Storage.

(** [SELDON_CHECK_MEMORY] and [SELDON_CHECK_IO]. *)
Variable check_memory : bool.
Variable check_io : bool.

(** The second half of the constructor and of [Reallocate]: the data
    block is (re)allocated, the failure is handled by the guarded code,
    and the row pointers are set.  [A] holds [m_], [n_], [me_] as the
    first half left them, and the old [data_]. *)
Definition allocate_data (function : string) (res : alloc_result) (i : Z)
    (h : heap) (A : t) (first second : Z) : outcome (heap * t) :=
  match res with
  | Pointer h' ptr =>
      if check_memory && negb (bool_decide (is_Some ptr)) then
        if negb (i =? 0)
        then Thrown (NoMemory function) (h', mk 0 0 ptr None)
        else
          match set_rows None ptr second first with
          | Some me => Done (h', mk 0 0 ptr me)
          | None => Undefined
          end
      else
        match set_rows (me_ A) ptr second first with
        | Some me => Done (h', mk (m_ A) (n_ A) ptr me)
        | None => Undefined
        end
  | Exception =>
      if check_memory then
        if negb (i =? 0)
        then Thrown (NoMemory function) (h, mk 0 0 None None)
        else
          match set_rows None None second first with
          | Some me => Done (h, mk 0 0 None me)
          | None => Undefined
          end
      else Thrown AllocatorError (h, A)
  end.

(** [Matrix_Triangular(int i, int j)], lines 35-110. *)
Definition Matrix_Triangular (ok : bool) (o : alloc_outcome) (i j : Z)
    (h : heap) : outcome (heap * t) :=
  let me := calloc ok i in
  if check_memory && negb (bool_decide (is_Some me)) && negb (i =? 0) then
    Thrown (NoMemory "Matrix_Triangular::Matrix_Triangular(int, int)")
      (h, mk 0 0 None None)
  else
    let A :=
      if check_memory && negb (bool_decide (is_Some me))
      then mk 0 0 None me
      else mk i i None me in
    allocate_data "Matrix_Triangular::Matrix_Triangular(int, int)"
      (allocate o (int_mul i i) h) i h A i i.

(** [Clear()], lines 134-179. *)
Definition Clear (hA : heap * t) : heap * t :=
  let '(h, A) := hA in
  (deallocate (data_ A) h, mk 0 0 None None).

(** [Reallocate(int i, int j)], lines 194-280. *)
Definition Reallocate (ok : bool) (o : alloc_outcome) (i j : Z)
    (hA : heap * t) : outcome (heap * t) :=
  let '(h, A) := hA in
  if negb (i =? m_ A) then
    let me := realloc ok (me_ A) i in
    if check_memory && negb (bool_decide (is_Some me)) && negb (i =? 0) then
      Thrown (NoMemory "Matrix_Triangular::Reallocate(int, int)")
        (h, mk 0 0 None None)
    else
      let A1 :=
        if check_memory && negb (bool_decide (is_Some me))
        then mk 0 0 None me
        else mk i i (data_ A) me in
      allocate_data "Matrix_Triangular::Reallocate(int, int)"
        (reallocate o (data_ A1) (int_mul i i) h) i h A1
        (GetFirst S i i) (GetSecond S i i)
  else Done (h, A).

(** [SetData(int i, int j, pointer data)], lines 299-343. *)
Definition SetData (ok : bool) (i j : Z) (data : option loc) (hA : heap * t)
  : outcome (heap * t) :=
  let '(h, _) := Clear hA in
  let me := calloc ok i in
  if check_memory && negb (bool_decide (is_Some me)) then
    Done (h, mk 0 0 None None)
  else
    match set_rows me data i i with
    | Some me' => Done (h, mk i i data me')
    | None => Undefined
    end.

(** [Nullify()], lines 352-380. *)
Definition Nullify (hA : heap * t) : heap * t :=
  let '(h, _) := hA in
  (h, mk 0 0 None None).

(** [Resize(int i, int j)], lines 391-413. *)
Definition Resize (ok : bool) (o : alloc_outcome) (i j : Z) (hA : heap * t)
  : outcome (heap * t) :=
  let '(h, A) := hA in
  if negb (i =? m_ A) then
    let iold := m_ A in
    match buffer h (data_ A) (GetDataSize A) with
    | None => Undefined
    | Some xold =>
        match Reallocate ok o i i hA with
        | Done (h1, A1) =>
            let imin := Z.min iold i in
            match for_loop (Z.to_nat imin) 0
                    (fun k =>
                       for_loop (Z.to_nat imin) 0
                         (fun l => copy_back xold (data_ A1)
                                     (k * i + l) (k * iold + l)))
                    h1 with
            | Some h2 => Done (h2, A1)
            | None => Undefined
            end
        | Thrown e hA' => Thrown e hA'
        | Undefined => Undefined
        end
    end
  else Done (h, A).

(** Modelled from the spec: [Val(i, j)] and [operator()] are not defined in
    the sources at hand.  The spec has "[n] row/column pointers into an
    [n^2] contiguous buffer": [Val(i, j)] is
    [me_[GetFirst(i, j)][GetSecond(i, j)]]. *)
Definition Val_address (A : t) (i j : Z) : option rowptr :=
  match me_ A with
  | Some rows =>
      if 0 <=? GetFirst S i j then
        match rows !! Z.to_nat (GetFirst S i j) with
        | Some (ptr, offset) => Some (ptr, offset + GetSecond S i j)
        | None => None
        end
      else None
  | None => None
  end.

Definition Val (hA : heap * t) (i j : Z) : option T :=
  let '(h, A) := hA in
  match Val_address A i j with
  | Some (ptr, idx) => load h ptr idx
  | None => None
  end.

Definition set_Val (hA : heap * t) (i j : Z) (a : T) : option (heap * t) :=
  let '(h, A) := hA in
  match Val_address A i j with
  | Some (ptr, idx) =>
      match store h ptr idx a with
      | Some h' => Some (h', A)
      | None => None
      end
  | None => None
  end.

(** Modelled from the spec: [operator()] honours "the layout's
    mirror/zero-fill convention for the non-stored triangle": outside the
    stored triangle a triangular matrix reads as [zero]. *)
Definition stored (i j : Z) : bool :=
  if UpLo S then i <=? j else j <=? i.

Definition get (zero : T) (hA : heap * t) (i j : Z) : option T :=
  if stored i j then Val hA i j else Some zero.

Context {VR : ValueRep T}.

(** [Write(ostream& FileStream)], lines 609-638. *)
Definition Write (FileStream : ostream) (hA : heap * t) : outcome ostream :=
  let '(h, A) := hA in
  if check_io && negb (o_good FileStream) then
    Thrown (IOError "Matrix_Triangular::Write(ofstream& FileStream)"
              "Stream is not ready.") FileStream
  else
    let s1 := write (encode_int (m_ A)) FileStream in
    let s2 := write (encode_int (n_ A)) s1 in
    if o_good s2 then
      match buffer h (data_ A) (int_mul (m_ A) (n_ A)) with
      | Some buf => Done (write (encode_all buf) s2)
      | None => Undefined
      end
    else Done s2.

(** [Read(istream& FileStream)], lines 746-775. *)
Definition Read (ok : bool) (o : alloc_outcome) (FileStream : istream)
    (hA : heap * t) : outcome (istream * (heap * t)) :=
  if check_io && negb (i_good FileStream) then
    Thrown (IOError "Matrix_Triangular::Read(ifstream& FileStream)"
              "Stream is not ready.") (FileStream, hA)
  else
    match read_int FileStream with
    | None => Undefined
    | Some (new_m, s1) =>
        match read_int s1 with
        | None => Undefined
        | Some (new_n, s2) =>
            match Reallocate ok o new_m new_n hA with
            | Done (h, A) =>
                match read_into h (data_ A) (int_mul new_m new_n) s2 with
                | Some (h', s3) =>
                    if check_io && negb (i_good s3) then
                      Thrown (IOError "Matrix_Triangular::Read(ifstream& FileStream)"
                                input_failed) (s3, (h', A))
                    else Done (s3, (h', A))
                | None => Undefined
                end
            | Thrown e hA' => Thrown e (s2, hA')
            | Undefined => Undefined
            end
        end
    end.

Context {Token : Type} {TR : TextRep T Token}.

(** [WriteText(ostream& FileStream)], lines 679-708: the full square, one
    line per row, every element read through [operator()]. *)
Definition WriteText (zero : T) (FileStream : otext Token) (hA : heap * t)
  : outcome (otext Token) :=
  let '(h, A) := hA in
  if check_io && negb (ot_good FileStream) then
    Thrown (IOError "Matrix_Triangular::WriteText(ofstream& FileStream)"
              "Stream is not ready.") FileStream
  else
    match for_loop (Z.to_nat (GetM A)) 0
            (fun i lines =>
               match for_loop (Z.to_nat (GetN A)) 0
                       (fun j line =>
                          match get zero hA i j with
                          | Some a => Some (line ++ [print a])
                          | None => None
                          end) [] with
               | Some line => Some (lines ++ [line])
               | None => None
               end) [] with
    | Some lines =>
        if ot_good FileStream
        then Done (mkOtext true (ot_lines FileStream ++ lines))
        else Done FileStream
    | None => Undefined
    end.

(** [this->Val(i, j) = row(idx)] for a vector [row]. *)
Definition assign (row : list T) (i j idx : Z) (hA : heap * t)
  : option (heap * t) :=
  match read_at row idx with
  | Some a => set_Val hA i j a
  | None => None
  end.

(** The filling loops of [ReadText], lines 852-877; the state of the loop
    over the rows is [nb] and the matrix. *)
Definition fill (first_row other_rows : list T) (m n : Z) (hA : heap * t)
  : option (heap * t) :=
  match
    (if UpLo S
     then for_loop (Z.to_nat n) 0 (fun j => assign first_row 0 j j) hA
     else assign first_row 0 0 0 hA)
  with
  | Some hA1 =>
      match
        (if UpLo S
         then for_loop (Z.to_nat (m - 1)) 1
                (fun i '(nb, hA) =>
                   let nb1 := nb + i in
                   match for_loop (Z.to_nat (n - i)) i
                           (fun j => assign other_rows i j (nb1 + (j - i))) hA with
                   | Some hA' => Some (nb1 + Z.max 0 (n - i), hA')
                   | None => None
                   end) (0, hA1)
         else for_loop (Z.to_nat (m - 1)) 1
                (fun i '(nb, hA) =>
                   match for_loop (Z.to_nat (i + 1)) 0
                           (fun j => assign other_rows i j (nb + j)) hA with
                   | Some hA' => Some (nb + (i + 1) + Z.max 0 (n - (i + 1)), hA')
                   | None => None
                   end) (0, hA1))
      with
      | Some (_, hA2) => Some hA2
      | None => None
      end
  | None => None
  end.

(** [ReadText(istream& FileStream)], lines 807-878.  [Vector::ReadText] is
    not among the sources; modelled from the spec ("tab-separated rows,
    one row per line"): it reads every element left in its stream. *)
Definition ReadText (ok : bool) (o : alloc_outcome) (FileStream : itext Token)
    (hA : heap * t) : outcome (itext Token * (heap * t)) :=
  let hA0 := Clear hA in
  if check_io && negb (it_good FileStream) then
    Thrown (IOError "Matrix_Pointers::ReadText(ifstream& FileStream)"
              "Stream is not ready.") (FileStream, hA0)
  else
    match getline FileStream with
    | (None, s1) => Done (s1, hA0)
    | (Some line, s1) =>
        let first_row := map scan line in
        let other_rows := map scan (concat (it_lines s1)) in
        (* every element was read: the stream is at its end *)
        let s2 := mkItext false [] in
        let n := Z.of_nat (length first_row) in
        if n =? 0 then Undefined
        else
          let m := 1 + Z.quot (Z.of_nat (length other_rows)) n in
          if check_io && negb (Z.of_nat (length other_rows) =? (m - 1) * n) then
            Thrown (IOError "Matrix_Pointers::ReadText(ifstream& FileStream)"
                      "The file should contain same number of columns.")
              (s2, hA0)
          else
            match Reallocate ok o m n hA0 with
            | Done hA1 =>
                match fill first_row other_rows m n hA1 with
                | Some hA2 => Done (s2, hA2)
                | None => Undefined
                end
            | Thrown e hA' => Thrown e (s2, hA')
            | Undefined => Undefined
            end
    end.

End Methods.

(** A dimension is valid when it is not negative and the size of the
    square can be computed in an [int]. *)
Definition valid_dimension (i : Z) : Prop := 0 <= i /\ i * i < 2 ^ 31.

(** The row pointers the constructor, [Reallocate] and [SetData] set:
    [me_[k] = ptr + k * lgth]. *)
Definition row_table (ptr : option loc) (lgth : Z) (count : nat) : list rowptr :=
  map (fun k => (ptr, Z.of_nat k * lgth)) (seq 0 count).

Section Invariants.

Context {T : Type} {VR : ValueRep T} {Token : Type} {TR : TextRep T Token}.

(** The stored elements: the first [GetDataSize()] elements behind
    [data_]. *)
Definition contents (hA : gmap loc (list T) * t) : option (list T) :=
  buffer (fst hA) (data_ (snd hA)) (GetDataSize (snd hA)).

(** A well-formed matrix: square, of a valid dimension, with its stored
    elements allocated and its row pointers set. *)
Definition wf (hA : gmap loc (list T) * t) : Prop :=
  valid_dimension (m_ (snd hA)) /\ n_ (snd hA) = m_ (snd hA) /\
  is_Some (contents hA) /\
  (0 < m_ (snd hA) ->
   me_ (snd hA)
   = Some (row_table (data_ (snd hA)) (m_ (snd hA)) (Z.to_nat (m_ (snd hA))))).

(** The matrices that the methods at hand can produce. *)
Inductive Reachable (S : Storage) (check_memory check_io : bool)
  : gmap loc (list T) * t -> Prop :=
| Reach_Matrix_Triangular ok o i j h hA :
    state_of (Matrix_Triangular check_memory ok o i j h) = Some hA ->
    Reachable S check_memory check_io hA
| Reach_Clear hA :
    Reachable S check_memory check_io hA ->
    Reachable S check_memory check_io (Clear hA)
| Reach_Reallocate ok o i j hA hA' :
    Reachable S check_memory check_io hA ->
    state_of (Reallocate S check_memory ok o i j hA) = Some hA' ->
    Reachable S check_memory check_io hA'
| Reach_SetData ok i j data hA hA' :
    Reachable S check_memory check_io hA ->
    state_of (SetData check_memory ok i j data hA) = Some hA' ->
    Reachable S check_memory check_io hA'
| Reach_Nullify hA :
    Reachable S check_memory check_io hA ->
    Reachable S check_memory check_io (Nullify hA)
| Reach_Resize ok o i j hA hA' :
    Reachable S check_memory check_io hA ->
    state_of (Resize S check_memory ok o i j hA) = Some hA' ->
    Reachable S check_memory check_io hA'
| Reach_Read ok o s hA s' hA' :
    Reachable S check_memory check_io hA ->
    state_of (Read S check_memory check_io ok o s hA) = Some (s', hA') ->
    Reachable S check_memory check_io hA'
| Reach_ReadText ok o (s : itext Token) hA s' hA' :
    Reachable S check_memory check_io hA ->
    state_of (ReadText S check_memory check_io ok o s hA) = Some (s', hA') ->
    Reachable S check_memory check_io hA'.

End Invariants.

Section Convenience.

Context {T : Type}.

Variable S : Storage.

(** [SELDON_CHECK_MEMORY] and [SELDON_CHECK_IO]. *)
Variable check_memory : bool.
Variable check_io : bool.

(** [Fill()], lines 454-459: [SetComplexReal(i, this->data_[i])].  The
    conversion [SetComplexReal] is not among the sources; it is a
    parameter. *)
Definition Fill0 (SetComplexReal : Z -> T) (hA : gmap loc (list T) * t)
  : option (gmap loc (list T) * t) :=
  let '(h, A) := hA in
  match for_loop (Z.to_nat (GetDataSize A)) 0
          (fun i h => store h (data_ A) i (SetComplexReal i)) h with
  | Some h' => Some (h', A)
  | None => None
  end.

(** [Fill(const T0& x)], lines 467-475. *)
Definition Fill {T0 : Type} (SetComplexReal : T0 -> T) (x : T0)
    (hA : gmap loc (list T) * t) : option (gmap loc (list T) * t) :=
  let '(h, A) := hA in
  let x_ := SetComplexReal x in
  match for_loop (Z.to_nat (GetDataSize A)) 0
          (fun i h => store h (data_ A) i x_) h with
  | Some h' => Some (h', A)
  | None => None
  end.

(** [SetIdentity()], lines 435-446. *)
Definition SetIdentity (SetComplexReal : T -> T) (zero one : T)
    (hA : gmap loc (list T) * t) : option (gmap loc (list T) * t) :=
  match Fill SetComplexReal zero hA with
  | Some hA1 =>
      for_loop (Z.to_nat (Z.min (m_ (snd hA1)) (n_ (snd hA1)))) 0
        (fun i hA => set_Val S hA i i one) hA1
  | None => None
  end.

Context {VR : ValueRep T}.

(** [Zero()], lines 426-431. *)
Definition Zero (hA : gmap loc (list T) * t) : option (gmap loc (list T) * t) :=
  let '(h, A) := hA in
  if GetDataSize A <? 0 then None
  else
    match memoryset h (data_ A) Byte.x00 (Z.to_nat (GetDataSize A) * sizeof) with
    | Some h' => Some (h', A)
    | None => None
    end.

(** [Write(string FileName)], lines 581-598. *)
Definition Write_file (can_open : bool) (FileName : string) (fs : files)
    (hA : gmap loc (list T) * t) : outcome files :=
  let FileStream := open_out can_open in
  if check_io && negb can_open then
    Thrown (IOError "Matrix_Triangular::Write(string FileName)"
              (unable_to_open FileName)) fs
  else
    match Write check_io FileStream hA with
    | Done s => Done (close_out can_open FileName s fs)
    | Thrown e s => Thrown e (close_out can_open FileName s fs)
    | Undefined => Undefined
    end.

(** [Read(string FileName)], lines 719-735. *)
Definition Read_file (ok : bool) (o : alloc_outcome) (can_open : bool)
    (FileName : string) (fs : files) (hA : gmap loc (list T) * t)
  : outcome (gmap loc (list T) * t) :=
  let FileStream := open_in can_open FileName fs in
  if check_io && negb (i_good FileStream) then
    Thrown (IOError "Matrix_Triangular::Read(string FileName)"
              (unable_to_open FileName)) hA
  else
    match Read S check_memory check_io ok o FileStream hA with
    | Done (_, hA') => Done hA'
    | Thrown e (_, hA') => Thrown e hA'
    | Undefined => Undefined
    end.

Context {Token : Type} {TR : TextRep T Token}.

(** The loops of the three [Print] methods: the rows from [a] up to
    [row_end], the columns from [b] up to [column_end], every element
    read through [operator()] and followed by a tabulation, every row by
    [endl]. *)
Definition print_rows (zero : T) (a row_end b column_end : Z)
    (cout : list (list Token)) (hA : gmap loc (list T) * t)
  : option (list (list Token)) :=
  for_loop (Z.to_nat (row_end - a)) a
    (fun i lines =>
       match for_loop (Z.to_nat (column_end - b)) b
               (fun j line =>
                  match get S zero hA i j with
                  | Some x => Some (line ++ [print x])
                  | None => None
                  end) [] with
       | Some line => Some (lines ++ [line])
       | None => None
       end) cout.

(** [Print()], lines 515-524. *)
Definition Print (zero : T) (cout : list (list Token))
    (hA : gmap loc (list T) * t) : option (list (list Token)) :=
  print_rows zero 0 (m_ (snd hA)) 0 (n_ (snd hA)) cout hA.

(** [Print(int a, int b, int m, int n)], lines 539-549. *)
Definition Print_sub (zero : T) (a b m n : Z) (cout : list (list Token))
    (hA : gmap loc (list T) * t) : option (list (list Token)) :=
  print_rows zero a (Z.min (m_ (snd hA)) (int_add a m))
    b (Z.min (n_ (snd hA)) (int_add b n)) cout hA.

(** [Print(int l)], lines 561-565. *)
Definition Print_l (zero : T) (l : Z) (cout : list (list Token))
    (hA : gmap loc (list T) * t) : option (list (list Token)) :=
  Print_sub zero 0 0 l l cout hA.

End Convenience.

(** The calls that change a matrix and return, with allocations of the
    data that succeed; [ok] tells whether the reallocation of the row
    pointers returns a block or NULL. *)
Inductive Updates {T : Type} {VR : ValueRep T} (S : Storage)
    (check_memory check_io ok : bool)
  : gmap loc (list T) * t -> gmap loc (list T) * t -> Prop :=
| Updates_Reallocate init i j hA hA' :
    Reallocate S check_memory ok (AllocOk init) i j hA = Done hA' ->
    Updates S check_memory check_io ok hA hA'
| Updates_Resize init i j hA hA' :
    Resize S check_memory ok (AllocOk init) i j hA = Done hA' ->
    Updates S check_memory check_io ok hA hA'
| Updates_Read init s s' hA hA' :
    Read S check_memory check_io ok (AllocOk init) s hA = Done (s', hA') ->
    Updates S check_memory check_io ok hA hA'
| Updates_Zero hA hA' :
    Zero hA = Some hA' ->
    Updates S check_memory check_io ok hA hA'
| Updates_Fill0 conv hA hA' :
    Fill0 conv hA = Some hA' ->
    Updates S check_memory check_io ok hA hA'
| Updates_Fill (conv : T -> T) x hA hA' :
    Fill conv x hA = Some hA' ->
    Updates S check_memory check_io ok hA hA'.

End Triangular.

(** ** Elements of type [double] in text

    [operator<<] and [operator>>] of the streams belong to the C++
    library, not to the sources; for [double] elements they are taken
    from the standard.  On a stream with its default flags, [operator<<]
    writes a [double] as [printf] does with [%g] and the precision of the
    stream, which is 6 unless it was set ([WriteText(string)] copies the
    one of [cout], lines 654-655): the decimal number of that many
    significant digits nearest to the value.  [operator>>] reads the
    [double] nearest to the decimal number.  The token of an element is
    the number its text denotes. *)

Module DoubleText.

Import Store.

(** [digits * 10 ^ exponent] with its sign, or the text [inf] or [nan]. *)
Inductive text : Type :=
| Decimal (negative : bool) (digits exponent : Z)
| Inf (negative : bool)
| NaN.

(** [a / b] rounded to the nearest integer, ties to even, for [b > 0]. *)
Definition round_nearest_even (a b : Z) : Z :=
  let q := a / b in
  let r := a mod b in
  if 2 * r <? b then q
  else if b <? 2 * r then q + 1
  else if Z.even q then q else q + 1.

(** The fraction [n / d] times [base ^ e], as a fraction. *)
Definition scale (base n d e : Z) : Z * Z :=
  if 0 <=? e then (n * base ^ e, d) else (n, d * base ^ (- e)).

(** The largest [k' >= k], at most [fuel] above [k], with
    [base ^ k' <= n / d] (if [base ^ k <= n / d]). *)
Fixpoint magnitude (fuel : nat) (base n d k : Z) : Z :=
  match fuel with
  | O => k
  | S fuel' =>
      let '(a, b) := scale base n d (- (k + 1)) in
      if b <=? a then magnitude fuel' base n d (k + 1) else k
  end.

(** [FileStream << x] at a precision: the value [m * 2 ^ e] of a finite
    [double] lies in [[10 ^ k, 10 ^ (k + 1))], with [k] from -324 to 308,
    and is rounded to [p] significant digits; the precision 0 counts
    as 1. *)
Definition print (precision : Z) (x : float) : text :=
  match FloatOps.Prim2SF x with
  | SpecFloat.S754_nan => NaN
  | SpecFloat.S754_infinity s => Inf s
  | SpecFloat.S754_zero s => Decimal s 0 0
  | SpecFloat.S754_finite s m e =>
      let p := Z.max 1 precision in
      let '(n, d) := scale 2 (Z.pos m) 1 e in
      let k := magnitude 700 10 n d (-324) in
      let '(a, b) := scale 10 n d (p - 1 - k) in
      Decimal s (round_nearest_even a b) (k - (p - 1))
  end.

(** [FileStream >> x]: the [double] nearest to the decimal number, with
    a mantissa of 53 bits above [2 ^ -1022] and a multiple of [2 ^ -1074]
    below, an infinity from [2 ^ 1024] on.  The extraction does not read
    [inf] or [nan]; it fails and stores 0. *)
Definition scan (t : text) : float :=
  match t with
  | NaN => zero
  | Inf _ => zero
  | Decimal s digits x =>
      let '(n, d) := scale 10 digits 1 x in
      let k := magnitude 2100 2 n d (-1075) in
      if 1024 <=? k then (if s then neg_infinity else infinity)
      else
        let e := Z.max (k - 52) (-1074) in
        let '(a, b) := scale 2 n d (- e) in
        FloatOps.SF2Prim
          match round_nearest_even a b with
          | Z.pos m => SpecFloat.S754_finite s m e
          | _ => SpecFloat.S754_zero s
          end
  end.


End DoubleText.

(** ** Concrete matrices

    Instances of the element type and small matrices on which the
    methods are run. *)

Module Examples.

Import Store.

(** Elements of one byte ([unsigned char]): the object representation of
    an element is the element. *)
#[export] Instance byte_rep : ValueRep byte := {|
  sizeof := 1;
  encode := fun b => [b];
  decode := fun bs => hd Byte.x00 bs
|}.

(** Integer elements, printed and read back in decimal: the token of an
    integer is the integer. *)
#[export] Instance Z_text : TextRep Z Z := {|
  print := fun z => z;
  scan := fun z => z
|}.

(** Byte elements in text: the token of a byte is the byte. *)
#[export] Instance byte_text : TextRep byte byte := {|
  print := fun b => b;
  scan := fun b => b
|}.

(** A packed [1 x 1] matrix of bytes on a block of one element. *)
Definition packed_heap : gmap loc (list byte) := {[ 1%positive := [Byte.x2a] ]}.
Definition packed_1x1 : HermPacked.t := HermPacked.mk 1 1 (Some 1%positive).

(** A packed [2 x 2] matrix of bytes: the elements [(0,0)], [(0,1)],
    [(1,1)]. *)
Definition packed_heap2 : gmap loc (list byte) :=
  {[ 1%positive := [Byte.x01; Byte.x02; Byte.x03] ]}.
Definition packed_2x2 : HermPacked.t := HermPacked.mk 2 2 (Some 1%positive).

(** The empty matrices. *)
Definition packed_empty : HermPacked.t := HermPacked.mk 0 0 None.
Definition triangular_empty : Triangular.t := Triangular.mk 0 0 None None.

(** A triangular [2 x 2] matrix of bytes and one of integers, on blocks
    of four elements. *)
Definition triangular_heap2 : gmap loc (list byte) :=
  {[ 1%positive := [Byte.x01; Byte.x02; Byte.x03; Byte.x04] ]}.
Definition triangular_heapZ : gmap loc (list Z) :=
  {[ 1%positive := [11; 12; 21; 22] ]}.
Definition triangular_2x2 : Triangular.t :=
  Triangular.mk 2 2 (Some 1%positive)
    (Some (Triangular.row_table (Some 1%positive) 2 2)).


(** A buffer owned by the caller, at another location. *)
Definition user_buffer : loc := 7%positive.
Definition user_heap : gmap loc (list byte) :=
  <[user_buffer := [Byte.x0a; Byte.x0b; Byte.x0c; Byte.x0d]]> packed_heap.

End Examples.

(* ===================================================================== *)
(** * Part II.  The theorems                                              *)
(* ===================================================================== *)

(** ** Integers, loops, memory and streams *)

Section StoreFacts.

Import Store.

Lemma wrap_small (z : Z) : - 2 ^ 31 <= z < 2 ^ 31 -> wrap z = z.
Proof. intros H. unfold wrap. rewrite Z.mod_small; lia. Qed.

Lemma wrap_range (z : Z) : - 2 ^ 31 <= wrap z < 2 ^ 31.
Proof.
  unfold wrap. pose proof (Z.mod_pos_bound (z + 2 ^ 31) (2 ^ 32)). lia.
Qed.

(** A loop invariant for [for_loop]: if [P] holds at the start and every
    step in range is defined and carries [P] to the next index, the loop
    is defined and ends in a state where [P] holds at the final index. *)
Lemma for_loop_inv {S : Type} (P : Z -> S -> Prop) (f : Z -> S -> option S) :
  forall (count : nat) (k : Z) (s : S),
    P k s ->
    (forall j s, k <= j < k + Z.of_nat count -> P j s ->
                 exists s', f j s = Some s' /\ P (j + 1) s') ->
    exists s', for_loop count k f s = Some s' /\ P (k + Z.of_nat count) s'.
Proof.
  induction count as [|count IH]; intros k s HP Hstep.
  - exists s. split; [reflexivity|]. now replace (k + Z.of_nat 0) with k by lia.
  - destruct (Hstep k s) as (s1 & Hf & HP1); [lia|assumption|].
    cbn [for_loop]. rewrite Hf.
    destruct (IH (k + 1) s1 HP1) as (s' & Hl & HP').
    + intros j s0 Hj. apply Hstep. lia.
    + exists s'. split; [assumption|].
      now replace (k + Z.of_nat (Datatypes.S count)) with (k + 1 + Z.of_nat count) by lia.
Qed.

(** What every defined step preserves, a defined loop preserves. *)
Lemma for_loop_preserves {S : Type} (Q : S -> Prop) (f : Z -> S -> option S) :
  (forall k s s', f k s = Some s' -> Q s -> Q s') ->
  forall (count : nat) (k : Z) (s s' : S),
    for_loop count k f s = Some s' -> Q s -> Q s'.
Proof.
  intros Hstep. induction count as [|count IH]; intros k s s' Hl HQ.
  - injection Hl as <-. exact HQ.
  - cbn [for_loop] in Hl. destruct (f k s) as [s1|] eqn:Hf; [|discriminate].
    eapply IH; [exact Hl|]. eapply Hstep; eassumption.
Qed.

(** A loop that appends one item per index collects the items in
    order. *)
Lemma for_loop_collect {A B : Type} (f : Z -> option A) (w : A -> B)
    (val : Z -> A) :
  forall (c : nat) (k : Z) (acc : list B),
    (forall j, k <= j < k + Z.of_nat c -> f j = Some (val j)) ->
    for_loop c k
      (fun j acc => match f j with
                    | Some a => Some (acc ++ [w a])
                    | None => None
                    end) acc
    = Some (acc ++ map (fun b => w (val (k + Z.of_nat b))) (seq 0 c)).
Proof.
  induction c as [|c IH]; intros k acc Hf.
  - cbn. now rewrite app_nil_r.
  - cbn [for_loop]. rewrite Hf by lia. rewrite IH by (intros; apply Hf; lia).
    cbn [seq map]. rewrite <- seq_shift, map_map, <- app_assoc. cbn [app].
    rewrite Z.add_0_r. do 3 f_equal. apply map_ext. intros b. do 2 f_equal. lia.
Qed.



Lemma for_loop_0 {S : Type} (k : Z) (f : Z -> S -> option S) (s : S) :
  for_loop 0 k f s = Some s.
Proof. reflexivity. Qed.

Context {T : Type}.

Lemma length_block (n : Z) (init : nat -> T) :
  length (block n init) = Z.to_nat n.
Proof. unfold block. now rewrite length_map, length_seq. Qed.

Lemma new_loc_fresh (h : gmap loc (list T)) : h !! new_loc h = None.
Proof. apply not_elem_of_dom, is_fresh. Qed.

Lemma read_at_lookup (buf : list T) (idx : Z) :
  0 <= idx -> read_at buf idx = buf !! Z.to_nat idx.
Proof. intros H. unfold read_at. destruct (Z.leb_spec 0 idx); [reflexivity|lia]. Qed.

Lemma write_at_insert (buf : list T) (idx : Z) (a : T) :
  0 <= idx < Z.of_nat (length buf) ->
  write_at buf idx a = Some (<[Z.to_nat idx := a]> buf).
Proof.
  intros H. unfold write_at.
  destruct (Z.leb_spec 0 idx); [|lia].
  destruct (Z.ltb_spec idx (Z.of_nat (length buf))); [reflexivity|lia].
Qed.

Lemma store_insert (h : gmap loc (list T)) (l : loc) (buf : list T)
    (idx : Z) (a : T) :
  h !! l = Some buf ->
  0 <= idx < Z.of_nat (length buf) ->
  store h (Some l) idx a = Some (<[l := <[Z.to_nat idx := a]> buf]> h).
Proof.
  intros Hl Hidx. unfold store. rewrite Hl, write_at_insert by assumption.
  reflexivity.
Qed.

Lemma load_lookup (h : gmap loc (list T)) (l : loc) (buf : list T) (idx : Z) :
  h !! l = Some buf -> 0 <= idx ->
  load h (Some l) idx = buf !! Z.to_nat idx.
Proof. intros Hl Hidx. unfold load. rewrite Hl. now apply read_at_lookup. Qed.

Lemma buffer_whole (h : gmap loc (list T)) (l : loc) (buf : list T) :
  h !! l = Some buf ->
  buffer h (Some l) (Z.of_nat (length buf)) = Some buf.
Proof.
  intros Hl. unfold buffer.
  destruct (Z.leb_spec (Z.of_nat (length buf)) 0) as [H0|H0].
  - destruct buf; [reflexivity|cbn in H0; lia].
  - rewrite Hl. destruct (Z.leb_spec (Z.of_nat (length buf)) (Z.of_nat (length buf))); [|lia].
    rewrite Nat2Z.id. now rewrite firstn_all.
Qed.

Lemma buffer_length (h : gmap loc (list T)) (ptr : option loc) (n : Z)
    (buf : list T) :
  buffer h ptr n = Some buf -> Z.of_nat (length buf) = Z.max 0 n.
Proof.
  unfold buffer. destruct (Z.leb_spec n 0) as [H0|H0].
  - intros [= <-]. cbn. lia.
  - destruct ptr as [l|]; [|discriminate].
    destruct (h !! l) as [b|]; [|discriminate].
    destruct (Z.leb_spec n (Z.of_nat (length b))); [|discriminate].
    intros [= <-]. rewrite length_take. lia.
Qed.

Lemma buffer_load (h : gmap loc (list T)) (ptr : option loc) (n : Z)
    (buf : list T) (idx : Z) :
  buffer h ptr n = Some buf -> 0 <= idx < n ->
  load h ptr idx = buf !! Z.to_nat idx.
Proof.
  unfold buffer, load. intros H Hidx.
  destruct (Z.leb_spec n 0); [lia|].
  destruct ptr as [l|]; [|discriminate].
  destruct (h !! l) as [blk|]; [|discriminate].
  destruct (Z.leb_spec n (Z.of_nat (length blk))); [|discriminate].
  injection H as <-. rewrite read_at_lookup by lia.
  rewrite lookup_take_lt by lia. reflexivity.
Qed.

Lemma buffer_block (h : gmap loc (list T)) (ptr : option loc) (n : Z)
    (buf : list T) :
  buffer h ptr n = Some buf -> 0 < n ->
  exists l blk, ptr = Some l /\ h !! l = Some blk /\ n <= Z.of_nat (length blk).
Proof.
  unfold buffer. intros H Hn.
  destruct (Z.leb_spec n 0); [lia|].
  destruct ptr as [l|]; [|discriminate].
  destruct (h !! l) as [blk|] eqn:Hl; [|discriminate].
  destruct (Z.leb_spec n (Z.of_nat (length blk))); [|discriminate].
  exists l, blk. split; [reflexivity | split; assumption].
Qed.

(** A row of copies [ptr[d l] = xold(s l)] into one block: the targets
    receive the sources, every other element of the block stays. *)
Lemma copy_back_loop (xold : list T) (l1 : loc) (d s : Z -> Z) :
  forall (c : nat) (l0 : Z) (h : gmap loc (list T)) (blk : list T),
    h !! l1 = Some blk ->
    (forall l, l0 <= l < l0 + Z.of_nat c -> 0 <= s l < Z.of_nat (length xold)) ->
    (forall l, l0 <= l < l0 + Z.of_nat c -> 0 <= d l < Z.of_nat (length blk)) ->
    (forall l l', l0 <= l < l0 + Z.of_nat c -> l0 <= l' < l0 + Z.of_nat c ->
                  d l = d l' -> l = l') ->
    exists blk',
      for_loop c l0 (fun l => copy_back xold (Some l1) (d l) (s l)) h
      = Some (<[l1 := blk']> h) /\
      length blk' = length blk /\
      (forall l, l0 <= l < l0 + Z.of_nat c ->
                 blk' !! Z.to_nat (d l) = xold !! Z.to_nat (s l)) /\
      (forall idx, (forall l, l0 <= l < l0 + Z.of_nat c -> d l <> Z.of_nat idx) ->
                   blk' !! idx = blk !! idx).
Proof.
  induction c as [|c IH]; intros l0 h blk Hh Hs Hd Hinj.
  - exists blk. cbn [for_loop]. rewrite insert_id by assumption.
    repeat split; intros; lia.
  - cbn [for_loop]. unfold copy_back at 1.
    destruct (Hs l0) as [Hs0 Hs1]; [lia|]. destruct (Hd l0) as [Hd0 Hd1]; [lia|].
    rewrite read_at_lookup by assumption.
    destruct (lookup_lt_is_Some_2 xold (Z.to_nat (s l0))) as [a Ha]; [lia|].
    rewrite Ha, (store_insert h l1 blk) by (assumption || lia).
    destruct (IH (l0 + 1) (<[l1 := <[Z.to_nat (d l0) := a]> blk]> h)
                (<[Z.to_nat (d l0) := a]> blk)) as (blk' & Hl & Hlen & Hcp & Hot).
    + apply lookup_insert_eq.
    + intros l Hl. apply Hs. lia.
    + intros l Hl. rewrite length_insert. apply Hd. lia.
    + intros l l' Hl Hl'. apply Hinj; lia.
    + exists blk'. rewrite Hl, insert_insert_eq, Hlen, length_insert.
      repeat split.
      * intros l Hl'. destruct (Z.eq_dec l l0) as [->|Hne].
        -- rewrite Hot.
           ++ rewrite list_lookup_insert_eq by lia. now rewrite Ha.
           ++ intros l Hl'' E. rewrite Z2Nat.id in E by lia.
              apply Hinj in E; lia.
        -- apply Hcp. lia.
      * intros idx Hidx. rewrite Hot by (intros l Hl'; apply Hidx; lia).
        apply list_lookup_insert_ne. specialize (Hidx l0). lia.
Qed.

(** A store through a pointer replaces one block by a block of the
    same length. *)
Lemma store_block (h h' : gmap loc (list T)) (ptr : option loc) (idx : Z)
    (a : T) :
  store h ptr idx a = Some h' ->
  exists l blk blk',
    ptr = Some l /\ h !! l = Some blk /\ h' = <[l := blk']> h /\
    length blk' = length blk.
Proof.
  unfold store. destruct ptr as [l|]; [|discriminate].
  destruct (h !! l) as [blk|] eqn:Hl; [|discriminate].
  unfold write_at. destruct (_ && _); [|discriminate].
  intros E. injection E as <-. exists l, blk, (<[Z.to_nat idx := a]> blk).
  now rewrite length_insert.
Qed.

(** A copy into the block behind [l1] leaves a block of the same length
    there, on the same other blocks. *)
Lemma copy_back_replaces (xold : list T) (l1 : loc) (d s : Z)
    (hb h h' : gmap loc (list T)) (len : nat) :
  copy_back xold (Some l1) d s h = Some h' ->
  (exists blk, h = <[l1 := blk]> hb /\ length blk = len) ->
  exists blk, h' = <[l1 := blk]> hb /\ length blk = len.
Proof.
  unfold copy_back. destruct (read_at xold s) as [a|]; [|discriminate].
  intros Hs (blk & -> & Hlen).
  destruct (store_block _ _ _ _ _ Hs) as (l & b & b' & E & Hl & -> & Hlen').
  injection E as <-. rewrite lookup_insert_eq in Hl. injection Hl as <-.
  exists b'. rewrite insert_insert_eq. split; [reflexivity|congruence].
Qed.

(** A copy keeps allocated the elements that were. *)
Lemma copy_back_buffer (xold : list T) (ptr ptr' : option loc) (d s n : Z)
    (h h' : gmap loc (list T)) :
  copy_back xold ptr d s h = Some h' ->
  is_Some (buffer h ptr' n) -> is_Some (buffer h' ptr' n).
Proof.
  unfold copy_back. destruct (read_at xold s) as [a|]; [|discriminate].
  intros Hs.
  destruct (store_block _ _ _ _ _ Hs) as (l & b & b' & _ & Hl & -> & Hlen').
  unfold buffer. destruct (n <=? 0); [auto|].
  destruct ptr' as [l'|]; [|auto].
  destruct (decide (l' = l)) as [->|Hne].
  - rewrite lookup_insert_eq, Hl, Hlen'.
    destruct (n <=? Z.of_nat (length b)); [eauto|auto].
  - now rewrite lookup_insert_ne by congruence.
Qed.

(** *** Binary encoding *)

Lemma decode_encode_int (z : Z) :
  - 2 ^ 31 <= z < 2 ^ 31 -> decode_int (encode_int z) = z.
Proof.
  intros H. unfold decode_int, encode_int. rewrite le_combine_split.
  change (Z.of_nat 4 * 8) with 32. unfold wrap.
  change (2 ^ 32) with 4294967296 in *. change (2 ^ 31) with 2147483648 in *.
  Z.to_euclidean_division_equations. lia.
Qed.

Lemma length_encode_int (z : Z) : length (encode_int z) = 4%nat.
Proof. apply length_le_split. Qed.

Lemma read_app (bs rest : list byte) :
  read (length bs) (mkIstream true (bs ++ rest)) = (bs, mkIstream true rest).
Proof.
  unfold read. cbn [i_good i_bytes].
  destruct (Nat.leb_spec (length bs) (length (bs ++ rest))) as [H|H].
  - now rewrite take_app_length, drop_app_length.
  - rewrite length_app in H. lia.
Qed.

Lemma read_int_encode (z : Z) (rest : list byte) :
  - 2 ^ 31 <= z < 2 ^ 31 ->
  read_int (mkIstream true (encode_int z ++ rest)) = Some (z, mkIstream true rest).
Proof.
  intros H. unfold read_int.
  pose proof (read_app (encode_int z) rest) as Hr.
  rewrite length_encode_int in Hr. rewrite Hr.
  rewrite length_encode_int. cbn [Nat.eqb]. now rewrite decode_encode_int.
Qed.

Context {VR : ValueRep T}.

Hypothesis encode_length : forall a : T, length (encode a) = sizeof.
Hypothesis decode_encode : forall a : T, decode (encode a) = a.

Lemma length_encode_all (buf : list T) :
  length (encode_all buf) = (length buf * sizeof)%nat.
Proof.
  unfold encode_all. induction buf as [|a buf IH]; [reflexivity|].
  cbn [map concat length]. rewrite length_app, IH, encode_length. lia.
Qed.

Lemma decode_all_encode_all (buf : list T) (rest : list byte) :
  decode_all (length buf) (encode_all buf ++ rest) = buf.
Proof.
  unfold encode_all. induction buf as [|a buf IH]; [reflexivity|].
  cbn [map concat length decode_all]. rewrite <- app_assoc.
  rewrite <- (encode_length a) at 1. rewrite take_app_length.
  rewrite <- (encode_length a) at 1. rewrite drop_app_length.
  now rewrite decode_encode, IH.
Qed.

Lemma store_bytes_encode_all (buf old : list T) :
  length old = length buf ->
  store_bytes (encode_all buf) old = Some buf.
Proof.
  intros Hlen. unfold store_bytes. rewrite length_encode_all, Hlen.
  destruct (Nat.leb_spec (length buf * sizeof) (length buf * sizeof)); [|lia].
  now rewrite decode_all_encode_all.
Qed.

Lemma encode_all_app (b1 b2 : list T) :
  encode_all (b1 ++ b2) = encode_all b1 ++ encode_all b2.
Proof. unfold encode_all. now rewrite map_app, concat_app. Qed.

Lemma drop_encode_all (n : nat) (buf : list T) :
  drop (n * sizeof) (encode_all buf) = encode_all (drop n buf).
Proof.
  revert buf. induction n as [|n IH]; intros buf; [reflexivity|].
  destruct buf as [|a buf]; [cbn; now rewrite drop_nil|].
  cbn [drop]. rewrite <- IH. unfold encode_all. cbn [map concat].
  replace (Datatypes.S n * sizeof)%nat with (length (encode a) + n * sizeof)%nat
    by (rewrite encode_length; lia).
  now rewrite <- drop_drop, drop_app_length.
Qed.

(** Reading the bytes of [buf] into a block that is at least as long
    replaces its first elements by [buf]. *)
Lemma store_bytes_prefix (buf old : list T) :
  (length buf <= length old)%nat ->
  store_bytes (encode_all buf) old = Some (buf ++ drop (length buf) old).
Proof.
  intros Hlen. unfold store_bytes. rewrite length_encode_all.
  destruct (Nat.leb_spec (length buf * sizeof) (length old * sizeof)) as [H|H].
  - rewrite drop_encode_all, <- encode_all_app.
    replace (length old) with (length (buf ++ drop (length buf) old))
      by (rewrite length_app, length_drop; lia).
    rewrite <- (app_nil_r (encode_all _)).
    now rewrite decode_all_encode_all.
  - assert (length buf * sizeof <= length old * sizeof)%nat
      by (apply Nat.mul_le_mono_r, Hlen).
    lia.
Qed.

Lemma encode_all_nil_inv (buf : list T) :
  (0 < sizeof)%nat -> encode_all buf = [] -> buf = [].
Proof.
  intros Hs H. apply (f_equal length) in H. rewrite length_encode_all in H.
  cbn in H. destruct buf; [reflexivity|cbn in H; lia].
Qed.

(** Reading [n = length buf] elements from a stream that starts with the
    bytes of [buf], into a block whose first [n] elements exist. *)
Lemma read_into_encode_all (h : gmap loc (list T)) (ptr : option loc)
    (buf old : list T) (rest : list byte) :
  (0 < sizeof)%nat ->
  buffer h ptr (Z.of_nat (length buf)) = Some old ->
  exists h',
    read_into h ptr (Z.of_nat (length buf))
      (mkIstream true (encode_all buf ++ rest))
    = Some (h', mkIstream true rest) /\
    buffer h' ptr (Z.of_nat (length buf)) = Some buf /\
    (forall l, ptr <> Some l -> h' !! l = h !! l).
Proof.
  intros Hs Hold. unfold read_into.
  destruct (Z.ltb_spec (Z.of_nat (length buf)) 0); [lia|].
  rewrite Nat2Z.id, <- length_encode_all, read_app.
  destruct (encode_all buf) as [|b bs] eqn:Hbs.
  - apply encode_all_nil_inv in Hbs; [|assumption]. subst buf.
    exists h. repeat split.
  - rewrite <- Hbs. unfold buffer in Hold |- *.
    destruct (Z.leb_spec (Z.of_nat (length buf)) 0) as [H0|H0].
    { destruct buf; [discriminate Hbs|cbn in H0; lia]. }
    destruct ptr as [l|]; [|discriminate].
    destruct (h !! l) as [blk|] eqn:Hl; [|discriminate].
    destruct (Z.leb_spec (Z.of_nat (length buf)) (Z.of_nat (length blk)));
      [|discriminate].
    rewrite store_bytes_prefix by lia.
    eexists. split; [reflexivity|]. split.
    + rewrite lookup_insert_eq.
      destruct (Z.leb_spec (Z.of_nat (length buf))
                  (Z.of_nat (length (buf ++ drop (length buf) blk)))) as [Hle|Hle].
      * rewrite Nat2Z.id. now rewrite take_app_length.
      * rewrite length_app, length_drop in Hle. lia.
    + intros l' Hl'. apply lookup_insert_ne. congruence.
Qed.

End StoreFacts.


(** ** Packed Hermitian matrices *)

Section HermPackedFacts.

Import Store HermPacked.

Context {T : Type}.

Abbreviation heap := (gmap loc (list T)).

Lemma packed_size_valid (i : Z) :
  valid_dimension i -> packed_size i = i * (i + 1) / 2.
Proof.
  intros [H0 H1]. unfold packed_size, int_div, int_mul, int_add.
  assert (i + 1 < 2 ^ 31) by nia.
  rewrite (wrap_small (i + 1)) by lia.
  rewrite (wrap_small (i * (i + 1))) by nia.
  rewrite Z.quot_div_nonneg by nia.
  apply wrap_small.
  assert (0 <= i * (i + 1) / 2 <= i * (i + 1)); [|lia].
  split; [apply Z.div_pos; nia|].
  apply Z.div_le_upper_bound; nia.
Qed.

Lemma packed_size_nonneg (i : Z) : valid_dimension i -> 0 <= packed_size i.
Proof.
  intros H. rewrite packed_size_valid by assumption.
  destruct H. apply Z.div_pos; nia.
Qed.

(** [Reallocate] with the current number of rows does nothing. *)
Lemma HermPacked_Reallocate_same (cm : bool) (o : alloc_outcome) (i j : Z)
    (h : heap) (A : t) :
  i = m_ A -> Reallocate cm o i j (h, A) = Done (h, A).
Proof. intros ->. unfold Reallocate. now rewrite Z.eqb_refl. Qed.

(** With another number of rows and a successful reallocation, the matrix
    is [i x i] on a block of the packed size. *)
Lemma HermPacked_Reallocate_success (cm : bool) (init : nat -> T) (i j : Z)
    (h : heap) (A : t) :
  i <> m_ A ->
  Reallocate cm (AllocOk init) i j (h, A)
  = Done (<[new_loc h := block (packed_size i) init]> (deallocate (data_ A) h),
          mk i i (Some (new_loc h))).
Proof.
  intros Hi. unfold Reallocate.
  destruct (Z.eqb_spec i (m_ A)); [contradiction|]. cbn.
  now rewrite andb_false_r.
Qed.

(** With the memory checks, a failed reallocation leaves the empty matrix
    and throws [NoMemory]. *)
Lemma HermPacked_Reallocate_failure (o : alloc_outcome) (i j : Z)
    (h : heap) (A : t) :
  i <> m_ A -> o = AllocNull \/ o = AllocThrow ->
  Reallocate true o i j (h, A)
  = Thrown (NoMemory "Matrix_HermPacked::Reallocate(int, int)") (h, mk 0 0 None).
Proof.
  intros Hi Ho. unfold Reallocate.
  destruct (Z.eqb_spec i (m_ A)); [contradiction|].
  destruct Ho as [-> | ->]; reflexivity.
Qed.

(** [Nullify] after [SetData]: the heap is as [SetData] left it, and a
    buffer that was not the matrix's own is as it was before [SetData]. *)
Lemma HermPacked_SetData_Nullify (i j : Z) (data : option loc) (h : heap)
    (A : t) :
  let hA1 := SetData i j data (h, A) in
  let hA2 := Nullify hA1 in
  data_ (snd hA1) = data /\
  fst hA2 = fst hA1 /\
  snd hA2 = mk 0 0 None /\
  Clear hA2 = hA2 /\
  (forall l, data_ A <> Some l -> fst hA2 !! l = h !! l).
Proof.
  cbn. repeat split.
  intros l Hl. destruct (data_ A) as [l'|]; cbn; [|reflexivity].
  apply lookup_delete_ne. congruence.
Qed.

Context {VR : ValueRep T}.

(** The matrix a call of [Reallocate] leaves is the old one, an [i x i]
    one, or the empty one. *)
Lemma HermPacked_Reallocate_cases (cm : bool) (o : alloc_outcome) (i j : Z)
    (h : heap) (A : t) (hA' : heap * t) :
  state_of (Reallocate cm o i j (h, A)) = Some hA' ->
  snd hA' = A \/ (exists ptr, snd hA' = mk i i ptr) \/ snd hA' = mk 0 0 None.
Proof.
  unfold Reallocate. intros H.
  destruct (negb (i =? m_ A)); [|injection H as <-; now left].
  destruct (reallocate o (data_ A) (packed_size i) h) as [h' [l|]|];
    destruct cm; cbn in H; injection H as <-; cbn; eauto.
Qed.

Lemma HermPacked_Reallocate_square (cm : bool) (o : alloc_outcome) (i j : Z)
    (hA hA' : heap * t) :
  state_of (Reallocate cm o i j hA) = Some hA' ->
  m_ (snd hA) = n_ (snd hA) -> m_ (snd hA') = n_ (snd hA').
Proof.
  destruct hA as [h A]. intros H Hsq.
  destruct (HermPacked_Reallocate_cases _ _ _ _ _ _ _ H) as [-> | [[ptr ->] | ->]];
    [exact Hsq | reflexivity | reflexivity].
Qed.

(** [Read] and the two [Resize] change [m_] and [n_] through [Reallocate]
    only. *)
Lemma HermPacked_Read_matrix (cm ci : bool) (o : alloc_outcome) (s s' : istream)
    (hA hA' : heap * t) :
  state_of (Read cm ci o s hA) = Some (s', hA') ->
  snd hA' = snd hA \/
  exists i j hR, state_of (Reallocate cm o i j hA) = Some (hR, snd hA').
Proof.
  unfold Read. intros H.
  destruct (ci && negb (i_good s)); [injection H as <- <-; now left|].
  destruct (read_int s) as [[new_m s1]|]; [|discriminate].
  destruct (read_int s1) as [[new_n s2]|]; [|discriminate].
  right. exists new_m, new_n.
  destruct (Reallocate cm o new_m new_n hA) as [[h1 A1]|e [h1 A1]|] eqn:HR;
    [| injection H as <- <-; now exists h1 | discriminate].
  destruct (read_into h1 (data_ A1) (GetDataSize A1) s2) as [[h2 s3]|];
    [|discriminate].
  exists h1. destruct (ci && negb (i_good s3)); injection H as <- <-; reflexivity.
Qed.

Lemma HermPacked_ColResize_matrix (cm : bool) (o : alloc_outcome) (i j : Z)
    (hA hA' : heap * t) :
  state_of (ColHermPacked_Resize cm o i j hA) = Some hA' ->
  exists hR, state_of (Reallocate cm o i j hA) = Some (hR, snd hA').
Proof.
  destruct hA as [h A]. unfold ColHermPacked_Resize. intros H.
  destruct (buffer h (data_ A) (GetDataSize A)) as [xold|]; [|discriminate].
  destruct (Reallocate cm o i j (h, A)) as [[h1 A1]|e [h1 A1]|];
    [| injection H as <-; now exists h1 | discriminate].
  destruct (for_loop _ _ _ _) as [h2|]; [|discriminate].
  injection H as <-. now exists h1.
Qed.

Lemma HermPacked_RowResize_matrix (cm : bool) (o : alloc_outcome) (i j : Z)
    (hA hA' : heap * t) :
  state_of (RowHermPacked_Resize cm o i j hA) = Some hA' ->
  exists hR, state_of (Reallocate cm o i j hA) = Some (hR, snd hA').
Proof.
  destruct hA as [h A]. unfold RowHermPacked_Resize. intros H.
  destruct (buffer h (data_ A) (GetDataSize A)) as [xold|]; [|discriminate].
  destruct (Reallocate cm o i j (h, A)) as [[h1 A1]|e [h1 A1]|];
    [| injection H as <-; now exists h1 | discriminate].
  destruct (for_loop _ _ _ _) as [[[n nold] h2]|]; [|discriminate].
  injection H as <-. now exists h1.
Qed.

(** Every method keeps the matrix square. *)
Lemma HermPacked_Reachable_square (cm ci : bool) (hA : heap * t) :
  Reachable cm ci hA -> m_ (snd hA) = n_ (snd hA).
Proof.
  induction 1 as [o i j h hA H | hA _ _ | o i j hA hA' _ IH H
                 | i j data [h A] _ _ | [h A] _ _
                 | o s hA s' hA' _ IH H
                 | o i j hA hA' _ IH H | o i j hA hA' _ IH H].
  - unfold Matrix_HermPacked in H.
    destruct (allocate o (packed_size i) h) as [h' [l|]|];
      destruct cm; cbn in H; injection H as <-; reflexivity.
  - destruct hA. reflexivity.
  - eapply HermPacked_Reallocate_square; eassumption.
  - reflexivity.
  - reflexivity.
  - destruct (HermPacked_Read_matrix _ _ _ _ _ _ _ H) as [-> | (i & j & hR & HR)];
      [exact IH|].
    apply (HermPacked_Reallocate_square _ _ _ _ _ _ HR IH).
  - destruct (HermPacked_ColResize_matrix _ _ _ _ _ _ H) as (hR & HR).
    apply (HermPacked_Reallocate_square _ _ _ _ _ _ HR IH).
  - destruct (HermPacked_RowResize_matrix _ _ _ _ _ _ H) as (hR & HR).
    apply (HermPacked_Reallocate_square _ _ _ _ _ _ HR IH).
Qed.

(** *** The packed row-major offsets *)

Lemma consecutive_even (k : Z) : 2 * (k * (k - 1) / 2) = k * (k - 1).
Proof.
  destruct (Z.Even_or_Odd k) as [[q ->]|[q ->]].
  - replace (2 * q * (2 * q - 1)) with (q * (2 * q - 1) * 2) by ring.
    rewrite Z.div_mul by lia. ring.
  - replace ((2 * q + 1) * (2 * q + 1 - 1)) with ((2 * q + 1) * q * 2) by ring.
    rewrite Z.div_mul by lia. ring.
Qed.

Lemma offset_column (n k l : Z) :
  RowHermPacked_offset n k l = RowHermPacked_offset n k k + (l - k).
Proof. unfold RowHermPacked_offset. lia. Qed.

Lemma offset_first_row (n : Z) : RowHermPacked_offset n 0 0 = 0.
Proof. reflexivity. Qed.

Lemma offset_next_row (n k : Z) :
  RowHermPacked_offset n (k + 1) (k + 1) = RowHermPacked_offset n k k + (n - k).
Proof.
  unfold RowHermPacked_offset.
  pose proof (consecutive_even k). pose proof (consecutive_even (k + 1)).
  replace (k + 1 - 1) with k in * by lia. nia.
Qed.

Lemma offset_rows_apart (n k' k : Z) :
  0 <= k' < k -> k <= n ->
  RowHermPacked_offset n k' k' + (n - k') <= RowHermPacked_offset n k k.
Proof.
  unfold RowHermPacked_offset. intros H Hn.
  pose proof (consecutive_even k). pose proof (consecutive_even k'). nia.
Qed.

Lemma offset_nonneg (n k : Z) :
  0 <= k <= n -> 0 <= RowHermPacked_offset n k k.
Proof.
  unfold RowHermPacked_offset. intros H.
  pose proof (consecutive_even k). nia.
Qed.

Lemma offset_last (n : Z) :
  RowHermPacked_offset n n n = n * (n + 1) / 2.
Proof.
  unfold RowHermPacked_offset.
  pose proof (consecutive_even n). pose proof (consecutive_even (n + 1)).
  replace (n + 1 - 1) with n in * by lia.
  replace (n * (n + 1)) with ((n + 1) * n) by ring. nia.
Qed.

(** The stored positions lie inside the packed block. *)
Lemma offset_bound (n k l : Z) :
  0 <= k <= l -> l < n ->
  0 <= RowHermPacked_offset n k l < n * (n + 1) / 2.
Proof.
  intros Hk Hl. rewrite offset_column, <- offset_last.
  pose proof (offset_nonneg n k ltac:(lia)).
  pose proof (offset_rows_apart n k n ltac:(lia) ltac:(lia)). lia.
Qed.

(** A successful [Reallocate] of a well-formed matrix to a valid
    dimension: the stored elements of the new dimension are allocated. *)
Lemma HermPacked_Reallocate_buffer (cm : bool) (init : nat -> T) (i j : Z)
    (hA : heap * t) :
  wf hA -> valid_dimension i ->
  exists h1 A1,
    Reallocate cm (AllocOk init) i j hA = Done (h1, A1) /\
    m_ A1 = i /\ n_ A1 = i /\
    is_Some (buffer h1 (data_ A1) (packed_size i)).
Proof.
  intros (HvB & HnB & HcB) Hv. destruct hA as [h B].
  destruct (Z.eq_dec i (m_ B)) as [E|E].
  - exists h, B. rewrite HermPacked_Reallocate_same by assumption.
    cbn [snd] in HnB. repeat split; try congruence.
    unfold contents, GetDataSize in HcB. cbn [fst snd] in HcB. now rewrite E.
  - rewrite HermPacked_Reallocate_success by assumption.
    eexists _, _. split; [reflexivity|]. cbn [m_ n_ data_]. repeat split.
    pose proof (packed_size_nonneg i Hv).
    unfold buffer. destruct (Z.leb_spec (packed_size i) 0); [eauto|].
    rewrite lookup_insert_eq, length_block.
    destruct (Z.leb_spec (packed_size i) (Z.of_nat (Z.to_nat (packed_size i))));
      [eauto|lia].
Qed.

(** [RowHermPacked::Resize]: every stored element of the common leading
    block is found at its offset for the new dimension. *)
Lemma RowHermPacked_Resize_preserves (cm : bool) (init : nat -> T) (i j : Z)
    (h : heap) (A : t) :
  wf (h, A) -> valid_dimension i ->
  exists h2 A2,
    RowHermPacked_Resize cm (AllocOk init) i j (h, A) = Done (h2, A2) /\
    m_ A2 = i /\ n_ A2 = i /\
    forall k l, 0 <= k <= l -> l < Z.min (m_ A) i ->
      is_Some (load h (data_ A) (RowHermPacked_offset (m_ A) k l)) /\
      load h2 (data_ A2) (RowHermPacked_offset i k l)
      = load h (data_ A) (RowHermPacked_offset (m_ A) k l).
Proof.
  intros Hwf Hv.
  destruct (HermPacked_Reallocate_buffer cm init i j (h, A) Hwf Hv)
    as (h1 & A1 & HR & Hm & Hn & [blk0 Hb]).
  destruct Hwf as (HvA & HnA & [xold Hx]). cbn [fst snd] in *.
  unfold contents, GetDataSize in Hx. cbn [fst snd] in Hx.
  pose proof (packed_size_valid _ HvA) as HpA.
  pose proof (packed_size_valid _ Hv) as Hp.
  pose proof (buffer_length _ _ _ _ Hx) as Hlx.
  unfold RowHermPacked_Resize. unfold GetDataSize. rewrite Hx, HR.
  set (iold := m_ A) in *. set (imin := Z.min iold i).
  (* reading back through the old matrix *)
  assert (Hold : forall k l, 0 <= k <= l -> l < imin ->
             0 <= RowHermPacked_offset iold k l < Z.of_nat (length xold)).
  { intros k l Hk Hl. rewrite Hlx, HpA.
    pose proof (offset_bound iold k l Hk ltac:(lia)). lia. }
  destruct (Z.le_gt_cases imin 0) as [H0|H0].
  { replace (Z.to_nat imin) with 0%nat by lia. cbn [for_loop].
    exists h1, A1. repeat split; try assumption; lia. }
  assert (Hpos : 0 < packed_size i).
  { rewrite Hp. pose proof (offset_bound i 0 0 ltac:(lia) ltac:(lia)).
    rewrite offset_first_row in *. lia. }
  destruct (buffer_block _ _ _ _ Hb Hpos) as (l1 & blk1 & Hd & Hh1 & Hlen1).
  rewrite Hd.
  pose (P := fun (k : Z) (st : Z * Z * heap) =>
    let '(n, nold, hc) := st in
    n = RowHermPacked_offset i k k /\
    nold = RowHermPacked_offset iold k k /\
    exists blk, hc = <[l1 := blk]> h1 /\ length blk = length blk1 /\
      forall k' l', 0 <= k' < k -> k' <= l' < imin ->
        blk !! Z.to_nat (RowHermPacked_offset i k' l')
        = xold !! Z.to_nat (RowHermPacked_offset iold k' l')).
  edestruct (for_loop_inv P) as ([[n nold] h2] & Hloop & HP).
  3: { rewrite Hloop. exists h2, A1. split; [reflexivity|].
       split; [assumption|]. split; [assumption|].
       intros k l Hk Hl. destruct HP as (_ & _ & blk & -> & Hlen & Hall).
       rewrite Z.add_0_l, Z2Nat.id in Hall by lia.
       rewrite (buffer_load _ _ _ _ _ Hx)
         by (rewrite HpA; pose proof (offset_bound iold k l Hk ltac:(lia)); lia).
       destruct (Hold k l Hk Hl) as [Ho0 Ho1]. split.
       - apply lookup_lt_is_Some_2. lia.
       - rewrite Hd. rewrite (load_lookup _ l1 blk) by
           (try apply lookup_insert_eq;
            pose proof (offset_bound i k l Hk ltac:(lia)); lia).
         apply Hall; lia. }
  - (* the invariant holds at the start *)
    cbn. repeat split. exists blk1. rewrite insert_id by assumption.
    repeat split. intros; lia.
  - (* one row *)
    intros k [[n nold] hc] Hk (-> & -> & blk & -> & Hlen & Hall).
    rewrite Z.add_0_l, Z2Nat.id in Hk by lia.
    destruct (copy_back_loop xold l1
                (fun l => RowHermPacked_offset i k k + l - k)
                (fun l => RowHermPacked_offset iold k k + l - k)
                (Z.to_nat (imin - k)) k (<[l1 := blk]> h1) blk)
      as (blk' & Hcopy & Hlen' & Hcp & Hot).
    + apply lookup_insert_eq.
    + intros l Hl. pose proof (Hold k l ltac:(lia) ltac:(lia)) as Ho.
      rewrite offset_column in Ho. lia.
    + intros l Hl. pose proof (offset_bound i k l ltac:(lia) ltac:(lia)) as Ho.
      rewrite offset_column in Ho. lia.
    + intros; lia.
    + cbv beta in Hcopy. rewrite Hcopy. eexists. split; [reflexivity|].
      cbn. rewrite !offset_next_row. repeat split.
      exists blk'. rewrite insert_insert_eq. repeat split; [congruence|].
      intros k' l' Hk' Hl'. destruct (Z.eq_dec k' k) as [->|Hne].
      * rewrite (offset_column i), (offset_column iold).
        replace (RowHermPacked_offset i k k + (l' - k))
          with (RowHermPacked_offset i k k + l' - k) by lia.
        replace (RowHermPacked_offset iold k k + (l' - k))
          with (RowHermPacked_offset iold k k + l' - k) by lia.
        apply Hcp. lia.
      * rewrite Hot; [apply Hall; lia|].
        intros l Hl E.
        pose proof (offset_bound i k' l' ltac:(lia) ltac:(lia)).
        rewrite Z2Nat.id in E by lia.
        pose proof (offset_rows_apart i k' k ltac:(lia) ltac:(lia)).
        rewrite (offset_column i k' l') in E. lia.
Qed.

(** [ColHermPacked::Resize]: the column-major offsets do not depend on
    the dimension, and the leading elements are copied in place. *)
Lemma ColHermPacked_Resize_preserves (cm : bool) (init : nat -> T) (i j : Z)
    (h : heap) (A : t) :
  wf (h, A) -> valid_dimension i ->
  exists h2 A2,
    ColHermPacked_Resize cm (AllocOk init) i j (h, A) = Done (h2, A2) /\
    m_ A2 = i /\ n_ A2 = i /\
    forall k l, 0 <= k <= l -> l < Z.min (m_ A) i ->
      is_Some (load h (data_ A) (ColHermPacked_offset k l)) /\
      load h2 (data_ A2) (ColHermPacked_offset k l)
      = load h (data_ A) (ColHermPacked_offset k l).
Proof.
  intros Hwf Hv.
  destruct (HermPacked_Reallocate_buffer cm init i j (h, A) Hwf Hv)
    as (h1 & A1 & HR & Hm & Hn & [blk0 Hb]).
  destruct Hwf as (HvA & HnA & [xold Hx]). cbn [fst snd] in *.
  unfold contents, GetDataSize in Hx. cbn [fst snd] in Hx.
  pose proof (packed_size_valid _ HvA) as HpA.
  pose proof (packed_size_valid _ Hv) as Hp.
  pose proof (buffer_length _ _ _ _ Hx) as Hlx.
  unfold ColHermPacked_Resize. unfold GetDataSize. rewrite Hx, HR, Hm.
  set (iold := m_ A) in *. set (imin := Z.min iold i).
  set (nmin := Z.min (packed_size iold) (packed_size i)).
  assert (Hoff : forall k l, 0 <= k <= l -> l < imin ->
             0 <= ColHermPacked_offset k l < nmin).
  { intros k l Hk Hl. unfold ColHermPacked_offset, nmin. rewrite HpA, Hp.
    pose proof (consecutive_even (l + 1)). pose proof (consecutive_even (iold + 1)).
    pose proof (consecutive_even (i + 1)).
    replace (l + 1 - 1) with l in * by lia.
    replace (iold + 1 - 1) with iold in * by lia.
    replace (i + 1 - 1) with i in * by lia.
    replace (l * (l + 1)) with ((l + 1) * l) by ring.
    replace (iold * (iold + 1)) with ((iold + 1) * iold) by ring.
    replace (i * (i + 1)) with ((i + 1) * i) by ring.
    destruct HvA, Hv. split; [nia|]. apply Z.min_glb_lt; nia. }
  destruct (Z.le_gt_cases imin 0) as [H0|H0].
  { assert (nmin <= 0 \/ 0 < nmin) as [Hz|Hz] by lia.
    - replace (Z.to_nat nmin) with 0%nat by lia. cbn [for_loop].
      exists h1, A1. repeat split; try assumption; lia.
    - destruct (buffer_block _ _ _ _ Hb ltac:(lia)) as (l1 & blk1 & Hd & Hh1 & Hlen1).
      destruct (copy_back_loop xold l1 (fun k => k) (fun k => k) (Z.to_nat nmin)
                  0 h1 blk1) as (blk' & Hcopy & _); try assumption; try lia.
      rewrite Hd. cbv beta in Hcopy. rewrite Hcopy.
      eexists _, A1. repeat split; try assumption; lia. }
  assert (Hpos : 0 < nmin) by (pose proof (Hoff 0 0 ltac:(lia) ltac:(lia)); lia).
  destruct (buffer_block _ _ _ _ Hb ltac:(lia)) as (l1 & blk1 & Hd & Hh1 & Hlen1).
  destruct (copy_back_loop xold l1 (fun k => k) (fun k => k) (Z.to_nat nmin)
              0 h1 blk1) as (blk' & Hcopy & Hlen' & Hcp & _);
    try assumption; try lia.
  rewrite Hd. cbv beta in Hcopy. rewrite Hcopy.
  exists (<[l1 := blk']> h1), A1. split; [reflexivity|].
  split; [assumption|]. split; [assumption|].
  intros k l Hk Hl. pose proof (Hoff k l Hk Hl) as Ho.
  rewrite (buffer_load _ _ _ _ _ Hx) by lia. split.
  - apply lookup_lt_is_Some_2. lia.
  - rewrite Hd, (load_lookup _ l1 blk') by (try apply lookup_insert_eq; lia).
    apply Hcp. lia.
Qed.

(** What a [Resize] that returns leaves: a well-formed matrix of the new
    dimension and, when the dimension changes, a new block of the packed
    size of the new dimension in the place of the old block. *)
Lemma HermPacked_Resize_result (cm : bool) (init : nat -> T) (i j : Z)
    (h h2 : heap) (A A2 : t) :
  wf (h, A) -> valid_dimension i ->
  RowHermPacked_Resize cm (AllocOk init) i j (h, A) = Done (h2, A2) \/
  ColHermPacked_Resize cm (AllocOk init) i j (h, A) = Done (h2, A2) ->
  wf (h2, A2) /\
  (i <> m_ A ->
   exists blk,
     Z.of_nat (length blk) = i * (i + 1) / 2 /\
     h2 = <[new_loc h := blk]> (deallocate (data_ A) h) /\
     A2 = mk i i (Some (new_loc h))).
Proof.
  intros Hwf Hv HR.
  destruct (HermPacked_Reallocate_buffer cm init i j (h, A) Hwf Hv)
    as (h1 & A1 & HRe & Hm & Hn & Hb).
  pose (Q := fun hc : heap =>
    is_Some (buffer hc (data_ A1) (packed_size i)) /\
    (i <> m_ A ->
     exists blk, hc = <[new_loc h := blk]> (deallocate (data_ A) h) /\
                 length blk = Z.to_nat (packed_size i))).
  assert (HA1 : i <> m_ A -> A1 = mk i i (Some (new_loc h))).
  { intros Hne. rewrite HermPacked_Reallocate_success in HRe by assumption.
    now injection HRe as _ <-. }
  assert (HQ1 : Q h1).
  { split; [exact Hb|]. intros Hne.
    rewrite HermPacked_Reallocate_success in HRe by assumption.
    injection HRe as <- _. eexists. split; [reflexivity|apply length_block]. }
  assert (Hstep : forall xold d s hc hc',
             copy_back xold (data_ A1) d s hc = Some hc' -> Q hc -> Q hc').
  { intros xold d s hc hc' Hc [Hq1 Hq2]. split.
    - eapply copy_back_buffer; eassumption.
    - intros Hne. rewrite (HA1 Hne) in Hc. cbn [data_] in Hc.
      eapply copy_back_replaces; [exact Hc|auto]. }
  assert (Hend : Q h2 /\ A2 = A1).
  { destruct Hwf as (_ & _ & [xold Hx]).
    unfold contents in Hx. cbn [fst snd] in Hx.
    destruct HR as [HR|HR].
    - unfold RowHermPacked_Resize in HR. rewrite Hx, HRe in HR.
      destruct (for_loop _ 0 _ (0, 0, h1)) as [[[n nold] hc]|] eqn:Hl;
        [|discriminate].
      injection HR as <- <-. split; [|reflexivity].
      apply (for_loop_preserves (fun st : Z * Z * heap => Q (snd st)))
        with (s' := (n, nold, hc)) in Hl; [exact Hl| |exact HQ1].
      intros k [[n0 nold0] hc0] st'.
      destruct (for_loop _ k _ hc0) as [hc1|] eqn:Hl1; [|discriminate].
      intros E. injection E as <-. cbn [snd]. intros HQ0.
      apply (for_loop_preserves Q _) with (s' := hc1) in Hl1;
        [exact Hl1| |exact HQ0].
      intros l c c'. apply Hstep.
    - unfold ColHermPacked_Resize in HR. rewrite Hx, HRe in HR.
      destruct (for_loop _ 0 _ h1) as [hc|] eqn:Hl; [|discriminate].
      injection HR as <- <-. split; [|reflexivity].
      apply (for_loop_preserves Q _) with (s' := hc) in Hl;
        [exact Hl| |exact HQ1].
      intros k c c'. apply Hstep. }
  destruct Hend as [[Hq1 Hq2] ->]. split.
  - unfold wf, contents, GetDataSize. cbn [fst snd]. rewrite Hm, Hn.
    split; [exact Hv|]. split; [reflexivity|exact Hq1].
  - intros Hne. destruct (Hq2 Hne) as (blk & -> & Hlen).
    exists blk. split; [|split; [reflexivity|now apply HA1]].
    rewrite Hlen, packed_size_valid by assumption.
    pose proof (packed_size_nonneg i Hv) as Hp.
    rewrite packed_size_valid in Hp by assumption. lia.
Qed.

(** *** The constructor and binary input/output *)

Lemma HermPacked_constructor (cm : bool) (init : nat -> T) (i j : Z) (h : heap) :
  Matrix_HermPacked cm (AllocOk init) i j h
  = Done (<[new_loc h := block (packed_size i) init]> h,
          mk i i (Some (new_loc h))).
Proof. unfold Matrix_HermPacked. cbn. now rewrite andb_false_r. Qed.

Lemma HermPacked_contents_fresh (h : heap) (l : loc) (n : Z) (buf : list T)
    (A : t) :
  data_ A = Some l -> GetDataSize A = n -> Z.of_nat (length buf) = Z.max 0 n ->
  contents (<[l := buf]> h, A) = Some buf.
Proof.
  intros Hd Hn Hlen. unfold contents. cbn [fst snd]. rewrite Hd, Hn.
  unfold buffer. destruct (Z.leb_spec n 0).
  - destruct buf; [reflexivity|cbn in Hlen; lia].
  - rewrite lookup_insert_eq.
    destruct (Z.leb_spec n (Z.of_nat (length buf))); [|lia].
    rewrite firstn_all2; [reflexivity|lia].
Qed.

Lemma HermPacked_constructor_wf (cm : bool) (init : nat -> T) (i j : Z)
    (h : heap) :
  valid_dimension i ->
  exists hA,
    Matrix_HermPacked cm (AllocOk init) i j h = Done hA /\
    wf hA /\ GetM (snd hA) = i /\ GetN (snd hA) = i /\
    GetDataSize (snd hA) = i * (i + 1) / 2 /\
    contents hA = Some (block (i * (i + 1) / 2) init).
Proof.
  intros Hv. eexists. split; [apply HermPacked_constructor|].
  pose proof (packed_size_valid i Hv) as Hp.
  pose proof (packed_size_nonneg i Hv) as Hn.
  assert (Hc : contents (<[new_loc h := block (packed_size i) init]> h,
                         mk i i (Some (new_loc h)))
               = Some (block (packed_size i) init)).
  { apply HermPacked_contents_fresh with (n := packed_size i);
      [reflexivity | reflexivity |]. rewrite length_block. lia. }
  cbn [snd GetM GetN m_ n_]. unfold wf. cbn [snd fst m_ n_].
  rewrite Hc. unfold GetDataSize. cbn [m_]. rewrite Hp. repeat split; try apply Hv.
  eauto.
Qed.

Hypothesis encode_length : forall a : T, length (encode a) = sizeof.
Hypothesis decode_encode : forall a : T, decode (encode a) = a.
Hypothesis sizeof_pos : (0 < sizeof)%nat.

(** [Write] emits the two dimensions, four bytes each, and then the
    stored elements in storage order. *)
Lemma HermPacked_Write_bytes (ci : bool) (pre : list byte) (hA : heap * t)
    (buf : list T) :
  contents hA = Some buf ->
  Write ci (mkOstream true pre) hA
  = Done (mkOstream true
            (pre ++ encode_int (m_ (snd hA)) ++ encode_int (n_ (snd hA))
                 ++ encode_all buf)).
Proof.
  destruct hA as [h A]. unfold contents, Write. cbn [fst snd]. intros ->.
  rewrite andb_false_r. cbn. now rewrite <- !app_assoc.
Qed.

(** [Read] on such a stream reallocates to the persisted dimension and
    then fills the stored elements. *)
Lemma HermPacked_Read_bytes (cm ci : bool) (init : nat -> T) (i : Z)
    (buf : list T) (rest : list byte) (hB : heap * t) :
  valid_dimension i ->
  Z.of_nat (length buf) = i * (i + 1) / 2 ->
  wf hB ->
  exists hB',
    Read cm ci (AllocOk init)
      (mkIstream true (encode_int i ++ encode_int i ++ encode_all buf ++ rest)) hB
    = Done (mkIstream true rest, hB') /\
    m_ (snd hB') = i /\ n_ (snd hB') = i /\ contents hB' = Some buf.
Proof.
  intros Hv Hlen (HvB & HnB & HcB).
  pose proof (packed_size_valid i Hv) as Hp.
  assert (Hr : - 2 ^ 31 <= i < 2 ^ 31) by (destruct Hv; nia).
  unfold Read. cbn [i_good negb]. rewrite andb_false_r.
  rewrite read_int_encode by assumption.
  rewrite read_int_encode by assumption.
  assert (HR : exists h1 A1,
             Reallocate cm (AllocOk init) i i hB = Done (h1, A1) /\
             m_ A1 = i /\ n_ A1 = i /\
             is_Some (buffer h1 (data_ A1) (Z.of_nat (length buf)))).
  { destruct hB as [h B]. destruct (Z.eq_dec i (m_ B)) as [E|E].
    - exists h, B. rewrite HermPacked_Reallocate_same by assumption.
      cbn [snd] in HnB. repeat split; try congruence.
      unfold contents, GetDataSize in HcB. cbn [fst snd] in HcB.
      now rewrite Hlen, <- Hp, E.
    - rewrite HermPacked_Reallocate_success by assumption.
      eexists _, _. split; [reflexivity|]. cbn [m_ n_ data_]. repeat split.
      unfold buffer. destruct (Z.leb_spec (Z.of_nat (length buf)) 0); [eauto|].
      rewrite lookup_insert_eq, length_block, Hlen, <- Hp.
      destruct (Z.leb_spec (packed_size i) (Z.of_nat (Z.to_nat (packed_size i))));
        [eauto|lia]. }
  destruct HR as (h1 & A1 & -> & Hm & Hn & [old Hold]).
  unfold GetDataSize. rewrite Hm, Hp, <- Hlen.
  destruct (read_into_encode_all encode_length decode_encode h1 (data_ A1) buf old
              rest sizeof_pos Hold) as (h2 & -> & Hbuf & _).
  cbn [i_good negb]. rewrite andb_false_r.
  exists (h2, A1). repeat split; try assumption.
  unfold contents, GetDataSize. cbn [fst snd]. now rewrite Hm, Hp, <- Hlen.
Qed.

End HermPackedFacts.


(** ** Triangular matrices *)

Section TriangularFacts.

Import Store Triangular.

Context {T : Type}.

Abbreviation heap := (gmap loc (list T)).

Lemma GetFirst_diag (S : Storage) (i : Z) : GetFirst S i i = i.
Proof. now destruct S. Qed.

Lemma GetSecond_diag (S : Storage) (i : Z) : GetSecond S i i = i.
Proof. now destruct S. Qed.

Lemma square_size_valid (i : Z) : valid_dimension i -> int_mul i i = i * i.
Proof. intros [H0 H1]. unfold int_mul. apply wrap_small. nia. Qed.

Lemma row_table_lookup (ptr : option loc) (lgth : Z) (count : nat) (k : nat) :
  (k < count)%nat ->
  row_table ptr lgth count !! k = Some (ptr, Z.of_nat k * lgth).
Proof.
  intros H. unfold row_table. rewrite list_lookup_fmap, lookup_seq_lt by lia.
  reflexivity.
Qed.

Lemma length_row_table (ptr : option loc) (lgth : Z) (count : nat) :
  length (row_table ptr lgth count) = count.
Proof. unfold row_table. now rewrite length_map, length_seq. Qed.

(** The loop that sets the row pointers overwrites every entry. *)
Lemma set_rows_table (rows : list rowptr) (ptr : option loc) (lgth : Z) :
  set_rows (Some rows) ptr lgth (Z.of_nat (length rows))
  = Some (Some (row_table ptr lgth (length rows))).
Proof.
  unfold set_rows. rewrite Nat2Z.id.
  destruct (for_loop_inv
              (fun k me => exists rows',
                   me = Some rows' /\ length rows' = length rows /\
                   forall a, (Z.of_nat a < k) -> (a < length rows)%nat ->
                             rows' !! a = Some (ptr, Z.of_nat a * lgth))
              (fun k me =>
                 match me with
                 | Some rows0 =>
                     if (0 <=? k) && (k <? Z.of_nat (length rows0))
                     then Some (Some (<[Z.to_nat k := (ptr, k * lgth)]> rows0))
                     else None
                 | None => None
                 end)
              (length rows) 0 (Some rows)) as (me & Hloop & rows' & -> & Hlen & Hall).
  - exists rows. repeat split. intros a Ha _. exfalso. lia.
  - intros k me Hk (rows' & -> & Hlen & Hall). rewrite Hlen.
    destruct (Z.leb_spec 0 k); [|lia].
    destruct (Z.ltb_spec k (Z.of_nat (length rows))); [|lia]. cbn [andb].
    eexists. split; [reflexivity|]. eexists. split; [reflexivity|].
    rewrite length_insert. split; [assumption|].
    intros a Ha Hlt. destruct (Z.eq_dec (Z.of_nat a) k) as [<-|Hne].
    + rewrite Nat2Z.id, list_lookup_insert_eq by lia. reflexivity.
    + rewrite list_lookup_insert_ne by lia. apply Hall; lia.
  - rewrite Hloop. do 2 f_equal. apply list_eq. intros a.
    destruct (Nat.lt_ge_cases a (length rows)) as [Ha|Ha].
    + rewrite row_table_lookup by assumption. apply Hall; lia.
    + rewrite !lookup_ge_None_2; [reflexivity | rewrite length_row_table | ]; lia.
Qed.

Lemma set_rows_count (rows : list rowptr) (ptr : option loc) (lgth count : Z) :
  length rows = Z.to_nat count -> 0 <= count ->
  set_rows (Some rows) ptr lgth count
  = Some (Some (row_table ptr lgth (Z.to_nat count))).
Proof.
  intros Hlen H0. rewrite <- Hlen.
  replace count with (Z.of_nat (length rows)) by lia.
  apply set_rows_table.
Qed.

Lemma set_rows_none (me : option (list rowptr)) (ptr : option loc)
    (lgth count : Z) :
  count <= 0 -> set_rows me ptr lgth count = Some me.
Proof.
  intros H. unfold set_rows. now replace (Z.to_nat count) with 0%nat by lia.
Qed.

(** [Reallocate] with the current number of rows does nothing. *)
Lemma Triangular_Reallocate_same (S : Storage) (cm ok : bool)
    (o : alloc_outcome) (i j : Z) (h : heap) (A : t) :
  i = m_ A -> Reallocate S cm ok o i j (h, A) = Done (h, A).
Proof. intros ->. unfold Reallocate. now rewrite Z.eqb_refl. Qed.

(** With another number of rows and successful reallocations, the matrix
    is [i x i] on a block of [i * i] elements, with its row pointers
    set. *)
Lemma Triangular_Reallocate_success (S : Storage) (cm : bool)
    (init : nat -> T) (i j : Z) (h : heap) (A : t) :
  i <> m_ A -> 0 <= i ->
  Reallocate S cm true (AllocOk init) i j (h, A)
  = Done (<[new_loc h := block (int_mul i i) init]> (deallocate (data_ A) h),
          mk i i (Some (new_loc h))
            (Some (row_table (Some (new_loc h)) i (Z.to_nat i)))).
Proof.
  intros Hi H0. unfold Reallocate.
  destruct (Z.eqb_spec i (m_ A)); [contradiction|]. cbn [negb realloc].
  rewrite andb_false_r. cbn [andb].
  unfold allocate_data, reallocate. cbn [data_ me_ m_ n_].
  rewrite andb_false_r, GetFirst_diag, GetSecond_diag.
  rewrite set_rows_count by (try apply length_resize; assumption).
  reflexivity.
Qed.

(** With the memory checks, a failed reallocation for a dimension other
    than 0 leaves the empty matrix and throws [NoMemory]. *)
Lemma Triangular_Reallocate_failure (S : Storage) (ok : bool)
    (o : alloc_outcome) (i j : Z) (h : heap) (A : t) :
  i <> m_ A -> i <> 0 ->
  ok = false \/ o = AllocNull \/ o = AllocThrow ->
  Reallocate S true ok o i j (h, A)
  = Thrown (NoMemory "Matrix_Triangular::Reallocate(int, int)")
      (h, mk 0 0 None None).
Proof.
  intros Hi H0 Hf. unfold Reallocate.
  destruct (Z.eqb_spec i (m_ A)); [contradiction|].
  destruct (Z.eqb_spec i 0); [contradiction|]. cbn [negb andb].
  destruct ok; cbn [realloc bool_decide]; [|reflexivity].
  destruct Hf as [Hf | [-> | ->]]; [discriminate| |].
  - cbn. destruct (Z.eqb_spec i 0); [contradiction|]. reflexivity.
  - cbn. destruct (Z.eqb_spec i 0); [contradiction|]. reflexivity.
Qed.

(** The matrix a call of [Reallocate] leaves is square. *)
Lemma Triangular_allocate_data_square (cm : bool) (f : string)
    (res : alloc_result) (i : Z) (h : heap) (A : t) (first second : Z)
    (hA' : heap * t) :
  state_of (allocate_data cm f res i h A first second) = Some hA' ->
  m_ A = n_ A -> m_ (snd hA') = n_ (snd hA').
Proof.
  unfold allocate_data. intros H Hsq.
  destruct res as [h' ptr|];
    repeat match type of H with
      | context [if ?c then _ else _] => destruct c
      | context [match set_rows ?a ?b ?c ?d with _ => _ end] =>
          destruct (set_rows a b c d)
      end; cbn in H; try discriminate; injection H as <-; cbn; congruence.
Qed.

Lemma Triangular_Reallocate_square (S : Storage) (cm ok : bool)
    (o : alloc_outcome) (i j : Z) (hA hA' : heap * t) :
  state_of (Reallocate S cm ok o i j hA) = Some hA' ->
  m_ (snd hA) = n_ (snd hA) -> m_ (snd hA') = n_ (snd hA').
Proof.
  destruct hA as [h A]. unfold Reallocate. intros H Hsq.
  destruct (negb (i =? m_ A)); [|injection H as <-; exact Hsq].
  destruct (cm && negb (bool_decide (is_Some (realloc ok (me_ A) i)))
            && negb (i =? 0)); [injection H as <-; reflexivity|].
  apply Triangular_allocate_data_square in H; [exact H|].
  destruct (cm && _); reflexivity.
Qed.

(** [Nullify] after [SetData]: the heap is as [SetData] left it, and a
    buffer that was not the matrix's own is as it was before [SetData]. *)
Lemma Triangular_SetData_Nullify (cm ok : bool) (i j : Z) (data : option loc)
    (h : heap) (A : t) (hA1 : heap * t) :
  SetData cm ok i j data (h, A) = Done hA1 ->
  let hA2 := Nullify hA1 in
  fst hA2 = fst hA1 /\
  snd hA2 = mk 0 0 None None /\
  Clear hA2 = hA2 /\
  (forall l, data_ A <> Some l -> fst hA2 !! l = h !! l).
Proof.
  unfold SetData. cbn [Clear]. intros H.
  assert (Hh : fst hA1 = deallocate (data_ A) h).
  { destruct (cm && _); [now injection H as <-|].
    destruct (set_rows _ _ _ _); [now injection H as <-|discriminate]. }
  destruct hA1 as [h1 A1]. cbn [fst] in Hh. subst h1. cbn. repeat split.
  intros l Hl. destruct (data_ A) as [l'|]; cbn; [|reflexivity].
  apply lookup_delete_ne. congruence.
Qed.

(** When the row pointers can be allocated, [SetData] installs the
    buffer. *)
Lemma Triangular_SetData_success (cm : bool) (i j : Z) (data : option loc)
    (h : heap) (A : t) :
  0 <= i ->
  SetData cm true i j data (h, A)
  = Done (deallocate (data_ A) h,
          mk i i data (Some (row_table data i (Z.to_nat i)))).
Proof.
  intros H0. unfold SetData. cbn [Clear calloc]. rewrite andb_false_r.
  rewrite set_rows_count by (try apply length_replicate; assumption).
  reflexivity.
Qed.

(** *** Well-formed matrices *)

Lemma Triangular_constructor (S : Storage) (cm : bool) (init : nat -> T)
    (i j : Z) (h : heap) :
  0 <= i ->
  Matrix_Triangular cm true (AllocOk init) i j h
  = Done (<[new_loc h := block (int_mul i i) init]> h,
          mk i i (Some (new_loc h))
            (Some (row_table (Some (new_loc h)) i (Z.to_nat i)))).
Proof.
  intros H0. unfold Matrix_Triangular. cbn [calloc].
  rewrite andb_false_r. cbn [andb].
  unfold allocate_data, allocate. cbn [data_ me_ m_ n_].
  rewrite andb_false_r.
  rewrite set_rows_count by (try apply length_replicate; assumption).
  reflexivity.
Qed.

(** A fresh [i x i] matrix on a block of [i * i] elements is
    well-formed. *)
Lemma Triangular_fresh_wf (h : heap) (l : loc) (i : Z) (blk : list T) :
  valid_dimension i -> Z.of_nat (length blk) = i * i ->
  wf (<[l := blk]> h, mk i i (Some l) (Some (row_table (Some l) i (Z.to_nat i)))) /\
  contents (<[l := blk]> h, mk i i (Some l) (Some (row_table (Some l) i (Z.to_nat i))))
  = Some blk.
Proof.
  intros Hv Hlen.
  assert (Hc : contents (<[l := blk]> h,
                 mk i i (Some l) (Some (row_table (Some l) i (Z.to_nat i))))
               = Some blk).
  { unfold contents, GetDataSize. cbn [fst snd m_ n_ data_].
    rewrite square_size_valid by assumption. rewrite <- Hlen.
    apply buffer_whole, lookup_insert_eq. }
  split; [|exact Hc].
  unfold wf. rewrite Hc. cbn [snd m_ n_ data_ me_]. repeat split; try apply Hv.
  eauto.
Qed.

(** The address of [Val(i, j)] in a well-formed matrix. *)
Lemma Val_address_wf (S : Storage) (hA : heap * t) (i j : Z) :
  wf hA -> 0 <= GetFirst S i j < m_ (snd hA) ->
  Val_address S (snd hA) i j
  = Some (data_ (snd hA), GetFirst S i j * m_ (snd hA) + GetSecond S i j).
Proof.
  intros (Hv & Hn & Hc & Hme) Hf. unfold Val_address.
  rewrite Hme by lia.
  destruct (Z.leb_spec 0 (GetFirst S i j)); [|lia].
  rewrite row_table_lookup by lia. now rewrite Z2Nat.id by lia.
Qed.

Lemma Val_wf (S : Storage) (hA : heap * t) (i j : Z) :
  wf hA -> 0 <= GetFirst S i j < m_ (snd hA) ->
  Val S hA i j
  = load (fst hA) (data_ (snd hA))
      (GetFirst S i j * m_ (snd hA) + GetSecond S i j).
Proof.
  intros Hwf Hf. destruct hA as [h A]. unfold Val.
  now rewrite (Val_address_wf S (h, A)) by assumption.
Qed.

(** Inside the square, [Val] of a well-formed matrix is an element of its
    contents. *)
Lemma Val_contents (S : Storage) (hA : heap * t) (buf : list T) (i j : Z) :
  wf hA -> contents hA = Some buf ->
  0 <= i < m_ (snd hA) -> 0 <= j < m_ (snd hA) ->
  Val S hA i j
  = buf !! Z.to_nat (GetFirst S i j * m_ (snd hA) + GetSecond S i j) /\
  is_Some (Val S hA i j).
Proof.
  intros Hwf Hc Hi Hj.
  assert (Hf : 0 <= GetFirst S i j < m_ (snd hA)) by (destruct S; cbn; lia).
  assert (Hs : 0 <= GetSecond S i j < m_ (snd hA)) by (destruct S; cbn; lia).
  rewrite Val_wf by assumption.
  destruct Hwf as (Hv & Hn & _ & _). unfold contents, GetDataSize in Hc.
  rewrite Hn, square_size_valid in Hc by assumption.
  pose proof (buffer_length _ _ _ _ Hc) as Hlen.
  rewrite (buffer_load _ _ _ _ _ Hc) by nia.
  split; [reflexivity|]. apply lookup_lt_is_Some_2. nia.
Qed.

(** A successful [Reallocate] of a well-formed matrix to a valid
    dimension gives a well-formed [i x i] matrix. *)
Lemma Triangular_Reallocate_wf (S : Storage) (cm : bool) (init : nat -> T)
    (i j : Z) (hA : heap * t) :
  wf hA -> valid_dimension i ->
  exists hA1,
    Reallocate S cm true (AllocOk init) i j hA = Done hA1 /\
    m_ (snd hA1) = i /\ n_ (snd hA1) = i /\ wf hA1.
Proof.
  intros Hwf Hv. destruct hA as [h A].
  destruct (Z.eq_dec i (m_ A)) as [E|E].
  - exists (h, A). rewrite Triangular_Reallocate_same by assumption.
    pose proof Hwf as (? & Hn & ?). cbn [snd] in *.
    split; [reflexivity|]. split; [congruence|]. split; [congruence|exact Hwf].
  - rewrite Triangular_Reallocate_success by (assumption || apply Hv).
    eexists. split; [reflexivity|]. cbn [snd m_ n_].
    split; [reflexivity|]. split; [reflexivity|].
    apply Triangular_fresh_wf; [assumption|].
    rewrite length_block, square_size_valid by assumption.
    destruct Hv. nia.
Qed.

(** [Resize]: every element of the common leading square is found at its
    place for the new dimension. *)
Lemma Triangular_Resize_preserves (S : Storage) (cm : bool) (init : nat -> T)
    (i j : Z) (hA : heap * t) :
  wf hA -> valid_dimension i ->
  exists hA2,
    Resize S cm true (AllocOk init) i j hA = Done hA2 /\
    m_ (snd hA2) = i /\ n_ (snd hA2) = i /\
    forall k l, 0 <= k < Z.min (m_ (snd hA)) i ->
                0 <= l < Z.min (m_ (snd hA)) i ->
      is_Some (Val S hA k l) /\ Val S hA2 k l = Val S hA k l.
Proof.
  intros Hwf Hv. destruct hA as [h A]. cbn [snd].
  pose proof Hwf as (HvA & HnA & [xold Hx] & HmeA). cbn [snd] in *.
  unfold Resize.
  destruct (Z.eqb_spec i (m_ A)) as [E|E]; cbn [negb].
  { exists (h, A). cbn [snd]. repeat split; try congruence.
    all: apply (Val_contents S (h, A) xold); cbn [snd]; (assumption || lia). }
  unfold contents in Hx. cbn [fst snd] in Hx. rewrite Hx.
  rewrite Triangular_Reallocate_success by (assumption || apply Hv).
  cbn [data_].
  set (l1 := new_loc h). set (iold := m_ A) in *. set (imin := Z.min iold i).
  set (h1 := <[l1 := block (int_mul i i) init]> (deallocate (data_ A) h)).
  set (blk1 := block (int_mul i i) init).
  assert (Hlen1 : Z.of_nat (length blk1) = i * i).
  { unfold blk1. rewrite length_block, square_size_valid by assumption.
    destruct Hv. nia. }
  pose proof (buffer_length _ _ _ _ Hx) as Hlx.
  unfold GetDataSize in Hlx, Hx. rewrite HnA, square_size_valid in Hlx, Hx
    by assumption.
  destruct HvA as [HA0 HA1]. destruct Hv as [H0 H1].
  pose (P := fun (k : Z) (hc : heap) =>
    exists blk, hc = <[l1 := blk]> h1 /\ length blk = length blk1 /\
      forall k' l', 0 <= k' < k -> 0 <= l' < imin ->
        blk !! Z.to_nat (k' * i + l') = xold !! Z.to_nat (k' * iold + l')).
  edestruct (for_loop_inv P) as (h2 & Hloop & blk & -> & Hlen & Hall).
  3: { rewrite Hloop. eexists. split; [reflexivity|]. cbn [snd m_ n_].
       split; [reflexivity|]. split; [reflexivity|].
       intros k l Hk Hl.
       rewrite Z.add_0_l, Z2Nat.id in Hall by lia.
       assert (Hwf2 : wf (<[l1 := blk]> h1,
                          mk i i (Some l1) (Some (row_table (Some l1) i (Z.to_nat i))))).
       { unfold h1. rewrite insert_insert_eq.
         apply Triangular_fresh_wf; [split; assumption | lia]. }
       destruct (Val_contents S (h, A) xold k l Hwf) as [HV Hs];
         [unfold contents, GetDataSize; cbn [fst snd];
          rewrite HnA, square_size_valid by (split; assumption); exact Hx
         | cbn [snd]; lia | cbn [snd]; lia |].
       split; [exact Hs|]. rewrite HV. cbn [snd].
       rewrite Val_wf by (assumption || (destruct S; cbn; lia)).
       cbn [fst snd data_ m_].
       rewrite (load_lookup _ l1 blk) by
         (try apply lookup_insert_eq; destruct S; cbn; nia).
       destruct S; cbn [GetFirst GetSecond]; apply Hall; lia. }
  - exists blk1. unfold h1. rewrite insert_insert_eq. repeat split. intros; lia.
  - intros k hc Hk (blk & -> & Hlen & Hall).
    rewrite Z.add_0_l, Z2Nat.id in Hk by lia.
    destruct (copy_back_loop xold l1 (fun l => k * i + l) (fun l => k * iold + l)
                (Z.to_nat imin) 0 (<[l1 := blk]> h1) blk)
      as (blk' & Hcopy & Hlen' & Hcp & Hot).
    + apply lookup_insert_eq.
    + intros l Hl. nia.
    + intros l Hl. nia.
    + intros; lia.
    + cbv beta in Hcopy. rewrite Hcopy. eexists. split; [reflexivity|].
      exists blk'. rewrite insert_insert_eq. repeat split; [congruence|].
      intros k' l' Hk' Hl'. destruct (Z.eq_dec k' k) as [->|Hne].
      * apply Hcp. lia.
      * rewrite Hot; [apply Hall; lia|].
        intros l Hl Eq. rewrite Z2Nat.id in Eq by nia. nia.
Qed.

(** What a [Resize] that returns leaves: the matrix itself when the
    dimension is the same, and otherwise a well-formed [i x i] matrix on
    a new block of [i * i] elements in the place of the old block, with
    the row pointers set into the new block. *)
Lemma Triangular_Resize_result (S : Storage) (cm : bool) (init : nat -> T)
    (i j : Z) (h : heap) (A : t) (hA2 : heap * t) :
  wf (h, A) -> valid_dimension i ->
  Resize S cm true (AllocOk init) i j (h, A) = Done hA2 ->
  wf hA2 /\
  (i = m_ A -> hA2 = (h, A)) /\
  (i <> m_ A ->
   exists blk,
     Z.of_nat (length blk) = i * i /\
     hA2 = (<[new_loc h := blk]> (deallocate (data_ A) h),
            mk i i (Some (new_loc h))
              (Some (row_table (Some (new_loc h)) i (Z.to_nat i))))).
Proof.
  intros Hwf Hv. unfold Resize.
  destruct (Z.eqb_spec i (m_ A)) as [E|E]; cbn [negb].
  { intros H. injection H as <-. split; [exact Hwf|]. split; [auto|tauto]. }
  destruct (buffer h (data_ A) (GetDataSize A)) as [xold|]; [|discriminate].
  rewrite Triangular_Reallocate_success by (assumption || apply Hv).
  cbn [data_].
  destruct (for_loop _ 0 _ _) as [h2|] eqn:Hl; [|discriminate].
  intros H. injection H as <-.
  assert (Hblk : exists blk,
             h2 = <[new_loc h := blk]> (deallocate (data_ A) h) /\
             length blk = Z.to_nat (int_mul i i)).
  { pose (Q := fun hc : heap => exists blk,
                hc = <[new_loc h := blk]> (deallocate (data_ A) h) /\
                length blk = Z.to_nat (int_mul i i)).
    apply (for_loop_preserves Q _) with (s' := h2) in Hl; [exact Hl| |].
    - intros k s s'. apply (for_loop_preserves Q).
      intros l c c'. apply copy_back_replaces.
    - eexists. split; [reflexivity|apply length_block]. }
  destruct Hblk as (blk & -> & Hlen).
  rewrite square_size_valid in Hlen by assumption.
  assert (Hlen' : Z.of_nat (length blk) = i * i) by (destruct Hv; nia).
  split; [now apply Triangular_fresh_wf|]. split; [contradiction|].
  intros _. exists blk. split; [exact Hlen'|reflexivity].
Qed.

(** *** Every method keeps the matrix square *)

Lemma Triangular_constructor_square (cm ok : bool) (o : alloc_outcome)
    (i j : Z) (h : heap) (hA : heap * t) :
  state_of (Matrix_Triangular cm ok o i j h) = Some hA ->
  m_ (snd hA) = n_ (snd hA).
Proof.
  unfold Matrix_Triangular. intros H.
  destruct (cm && negb (bool_decide (is_Some (calloc ok i))) && negb (i =? 0));
    [injection H as <-; reflexivity|].
  apply Triangular_allocate_data_square in H; [exact H|].
  destruct (cm && _); reflexivity.
Qed.

Lemma Triangular_SetData_square (cm ok : bool) (i j : Z) (data : option loc)
    (hA hA' : heap * t) :
  state_of (SetData cm ok i j data hA) = Some hA' ->
  m_ (snd hA') = n_ (snd hA').
Proof.
  destruct hA as [h A]. unfold SetData. cbn [Clear]. intros H.
  destruct (cm && _); [injection H as <-; reflexivity|].
  destruct (set_rows _ _ _ _); [injection H as <-; reflexivity|discriminate].
Qed.

Lemma Triangular_Resize_matrix (S : Storage) (cm ok : bool)
    (o : alloc_outcome) (i j : Z) (hA hA' : heap * t) :
  state_of (Resize S cm ok o i j hA) = Some hA' ->
  snd hA' = snd hA \/
  exists hR, state_of (Reallocate S cm ok o i i hA) = Some (hR, snd hA').
Proof.
  destruct hA as [h A]. unfold Resize. intros H.
  destruct (negb (i =? m_ A)); [|injection H as <-; now left].
  destruct (buffer h (data_ A) (GetDataSize A)) as [xold|]; [|discriminate].
  right.
  destruct (Reallocate S cm ok o i i (h, A)) as [[h1 A1]|e [h1 A1]|];
    [| injection H as <-; now exists h1 | discriminate].
  destruct (for_loop _ _ _ _) as [h2|]; [|discriminate].
  injection H as <-. now exists h1.
Qed.

Context {VR : ValueRep T}.

Lemma Triangular_Read_matrix (S : Storage) (cm ci ok : bool)
    (o : alloc_outcome) (s s' : istream) (hA hA' : heap * t) :
  state_of (Read S cm ci ok o s hA) = Some (s', hA') ->
  snd hA' = snd hA \/
  exists i j hR, state_of (Reallocate S cm ok o i j hA) = Some (hR, snd hA').
Proof.
  unfold Read. intros H.
  destruct (ci && negb (i_good s)); [injection H as <- <-; now left|].
  destruct (read_int s) as [[new_m s1]|]; [|discriminate].
  destruct (read_int s1) as [[new_n s2]|]; [|discriminate].
  right. exists new_m, new_n.
  destruct (Reallocate S cm ok o new_m new_n hA) as [[h1 A1]|e [h1 A1]|] eqn:HR;
    [| injection H as <- <-; now exists h1 | discriminate].
  destruct (read_into h1 (data_ A1) (int_mul new_m new_n) s2) as [[h2 s3]|];
    [|discriminate].
  exists h1. destruct (ci && negb (i_good s3)); injection H as <- <-; reflexivity.
Qed.

Context {Token : Type} {TR : TextRep T Token}.

Lemma set_Val_matrix (S : Storage) (hA hA' : heap * t) (i j : Z) (a : T) :
  set_Val S hA i j a = Some hA' -> snd hA' = snd hA.
Proof.
  destruct hA as [h A]. unfold set_Val. intros H.
  destruct (Val_address S A i j) as [[ptr idx]|]; [|discriminate].
  destruct (store h ptr idx a); [now injection H as <-|discriminate].
Qed.

Lemma assign_matrix (S : Storage) (row : list T) (i j idx : Z)
    (hA hA' : heap * t) :
  assign S row i j idx hA = Some hA' -> snd hA' = snd hA.
Proof.
  unfold assign. destruct (read_at row idx); [apply set_Val_matrix|discriminate].
Qed.

Lemma assign_loop_matrix (S : Storage) (row : list T) (fi fj fidx : Z -> Z)
    (c : nat) (k : Z) (hA hA' : heap * t) :
  for_loop c k (fun j => assign S row (fi j) (fj j) (fidx j)) hA = Some hA' ->
  snd hA' = snd hA.
Proof.
  intros H.
  apply (for_loop_preserves (fun s => snd s = snd hA)
           (fun j => assign S row (fi j) (fj j) (fidx j))) in H;
    [exact H | | reflexivity].
  intros k0 s0 s0' Hf HQ. now rewrite (assign_matrix _ _ _ _ _ _ _ Hf).
Qed.

(** The filling loops of [ReadText] write elements only. *)
Lemma fill_matrix (S : Storage) (first_row other_rows : list T) (m n : Z)
    (hA hA' : heap * t) :
  fill S first_row other_rows m n hA = Some hA' -> snd hA' = snd hA.
Proof.
  unfold fill. intros H.
  destruct (UpLo S).
  - destruct (for_loop (Z.to_nat n) 0 _ hA) as [hA1|] eqn:H1; [|discriminate].
    apply (assign_loop_matrix S first_row (fun _ => 0) (fun j => j) (fun j => j))
      in H1.
    destruct (for_loop (Z.to_nat (m - 1)) 1 _ (0, hA1)) as [[nb hA2]|] eqn:H2;
      [|discriminate].
    injection H as <-. rewrite <- H1.
    apply (for_loop_preserves (fun s => snd (snd s) = snd hA1)) in H2;
      [exact H2 | | reflexivity].
    intros i [nb0 s0] [nb1 s1] Hf HQ. cbn [snd] in *.
    destruct (for_loop (Z.to_nat (n - i)) i _ s0) as [s2|] eqn:H3; [|discriminate].
    injection Hf as _ <-.
    apply (assign_loop_matrix S other_rows (fun _ => i) (fun j => j)
             (fun j => nb0 + i + (j - i))) in H3.
    congruence.
  - destruct (assign S first_row 0 0 0 hA) as [hA1|] eqn:H1; [|discriminate].
    apply assign_matrix in H1.
    destruct (for_loop (Z.to_nat (m - 1)) 1 _ (0, hA1)) as [[nb hA2]|] eqn:H2;
      [|discriminate].
    injection H as <-. rewrite <- H1.
    apply (for_loop_preserves (fun s => snd (snd s) = snd hA1)) in H2;
      [exact H2 | | reflexivity].
    intros i [nb0 s0] [nb1 s1] Hf HQ. cbn [snd] in *.
    destruct (for_loop (Z.to_nat (i + 1)) 0 _ s0) as [s2|] eqn:H3; [|discriminate].
    injection Hf as _ <-.
    apply (assign_loop_matrix S other_rows (fun _ => i) (fun j => j)
             (fun j => nb0 + j)) in H3.
    congruence.
Qed.

Lemma Triangular_ReadText_matrix (S : Storage) (cm ci ok : bool)
    (o : alloc_outcome) (s s' : itext Token) (hA hA' : heap * t) :
  state_of (ReadText S cm ci ok o s hA) = Some (s', hA') ->
  snd hA' = mk 0 0 None None \/
  exists i j hR,
    state_of (Reallocate S cm ok o i j (Clear hA)) = Some (hR, snd hA').
Proof.
  unfold ReadText. intros H.
  assert (Hc : snd (Clear hA) = mk 0 0 None None) by now destruct hA.
  destruct (ci && negb (it_good s)); [injection H as <- <-; now left|].
  destruct (getline s) as [[line|] s1]; [|injection H as <- <-; now left].
  destruct (Z.of_nat (length (map scan line)) =? 0); [discriminate|].
  destruct (ci && _); [injection H as <- <-; now left|].
  right.
  match type of H with
  | context [Reallocate S cm ok o ?m ?n (Clear hA)] =>
      exists m, n;
      destruct (Reallocate S cm ok o m n (Clear hA))
        as [[h1 A1]|e [h1 A1]|] eqn:HR;
      [| injection H as <- <-; now exists h1 | discriminate]
  end.
  destruct (fill S _ _ _ _ (h1, A1)) as [hA2|] eqn:Hf; [|discriminate].
  injection H as <- <-. apply fill_matrix in Hf. exists h1. now rewrite Hf.
Qed.

Lemma Triangular_Reachable_square (S : Storage) (cm ci : bool)
    (hA : heap * t) :
  Reachable S cm ci hA -> m_ (snd hA) = n_ (snd hA).
Proof.
  induction 1 as [ok o i j h hA H | hA _ _ | ok o i j hA hA' _ IH H
                 | ok i j data hA hA' _ _ H | [h A] _ _
                 | ok o i j hA hA' _ IH H
                 | ok o s hA s' hA' _ IH H
                 | ok o s hA s' hA' _ IH H].
  - eapply Triangular_constructor_square; eassumption.
  - destruct hA. reflexivity.
  - eapply Triangular_Reallocate_square; eassumption.
  - eapply Triangular_SetData_square; eassumption.
  - reflexivity.
  - destruct (Triangular_Resize_matrix _ _ _ _ _ _ _ _ H) as [-> | (hR & HR)];
      [exact IH|].
    apply (Triangular_Reallocate_square _ _ _ _ _ _ _ _ HR IH).
  - destruct (Triangular_Read_matrix _ _ _ _ _ _ _ _ _ H)
      as [-> | (i & j & hR & HR)]; [exact IH|].
    apply (Triangular_Reallocate_square _ _ _ _ _ _ _ _ HR IH).
  - destruct (Triangular_ReadText_matrix _ _ _ _ _ _ _ _ _ H)
      as [-> | (i & j & hR & HR)]; [reflexivity|].
    apply (Triangular_Reallocate_square _ _ _ _ _ _ _ _ HR).
    now destruct hA.
Qed.

End TriangularFacts.

Section TriangularBinary.

Import Store Triangular.

Context {T : Type} {VR : ValueRep T}.

Abbreviation heap := (gmap loc (list T)).

(** *** Binary input/output *)

Hypothesis encode_length : forall a : T, length (encode a) = sizeof.
Hypothesis decode_encode : forall a : T, decode (encode a) = a.
Hypothesis sizeof_pos : (0 < sizeof)%nat.

Lemma Triangular_Write_bytes (S : Storage) (ci : bool) (pre : list byte)
    (hA : heap * t) (buf : list T) :
  contents hA = Some buf ->
  Write ci (mkOstream true pre) hA
  = Done (mkOstream true
            (pre ++ encode_int (m_ (snd hA)) ++ encode_int (n_ (snd hA))
                 ++ encode_all buf)).
Proof.
  destruct hA as [h A]. unfold contents, GetDataSize, Write. cbn [fst snd].
  intros ->. rewrite andb_false_r. cbn. now rewrite <- !app_assoc.
Qed.

Lemma Triangular_Read_bytes (S : Storage) (cm ci : bool) (init : nat -> T)
    (i : Z) (buf : list T) (rest : list byte) (hB : heap * t) :
  valid_dimension i ->
  Z.of_nat (length buf) = i * i ->
  wf hB ->
  exists hB',
    Read S cm ci true (AllocOk init)
      (mkIstream true (encode_int i ++ encode_int i ++ encode_all buf ++ rest)) hB
    = Done (mkIstream true rest, hB') /\
    m_ (snd hB') = i /\ n_ (snd hB') = i /\ contents hB' = Some buf.
Proof.
  intros Hv Hlen HwfB.
  pose proof (square_size_valid i Hv) as Hp.
  assert (Hr : - 2 ^ 31 <= i < 2 ^ 31) by (destruct Hv; nia).
  unfold Read. cbn [i_good negb]. rewrite andb_false_r.
  rewrite read_int_encode by assumption.
  rewrite read_int_encode by assumption.
  destruct (Triangular_Reallocate_wf S cm init i i hB HwfB Hv)
    as ([h1 A1] & -> & Hm & Hn & (_ & _ & [old Hold] & Hme)).
  cbn [snd fst] in *. unfold contents, GetDataSize in Hold. cbn [fst snd] in Hold.
  rewrite Hm, Hn, Hp, <- Hlen in Hold. rewrite Hp, <- Hlen.
  destruct (read_into_encode_all encode_length decode_encode h1 (data_ A1) buf old
              rest sizeof_pos Hold) as (h2 & -> & Hbuf & _).
  cbn [i_good negb]. rewrite andb_false_r.
  exists (h2, A1). repeat split; try assumption.
  unfold contents, GetDataSize. cbn [fst snd]. now rewrite Hm, Hn, Hp, <- Hlen.
Qed.

End TriangularBinary.

Section TriangularText.

Import Store Triangular.

Context {T : Type} {Token : Type} {TR : TextRep T Token}.

Abbreviation heap := (gmap loc (list T)).

(** *** Text input/output *)

Local Abbreviation addr S dim i j := (GetFirst S i j * dim + GetSecond S i j).

Lemma addr_range (S : Storage) (dim i j : Z) :
  0 <= i < dim -> 0 <= j < dim -> 0 <= addr S dim i j < dim * dim.
Proof. intros Hi Hj. destruct S; cbn; nia. Qed.

Lemma row_column_unique (d a b a' b' : Z) :
  0 <= b < d -> 0 <= b' < d -> a * d + b = a' * d + b' -> a = a' /\ b = b'.
Proof.
  intros Hb Hb' E.
  assert (a = a') by (destruct (Z.lt_trichotomy a a') as [|[|]]; [nia|assumption|nia]).
  subst. lia.
Qed.

Lemma addr_inj (S : Storage) (dim i j i' j' : Z) :
  0 <= i < dim -> 0 <= j < dim -> 0 <= i' < dim -> 0 <= j' < dim ->
  addr S dim i j = addr S dim i' j' -> i = i' /\ j = j'.
Proof.
  intros Hi Hj Hi' Hj' E.
  destruct S; cbn in E; apply row_column_unique in E; lia.
Qed.

Lemma Val_address_table (S : Storage) (A : t) (ptr : option loc) (i j : Z) :
  me_ A = Some (row_table ptr (m_ A) (Z.to_nat (m_ A))) ->
  0 <= GetFirst S i j < m_ A ->
  Val_address S A i j = Some (ptr, addr S (m_ A) i j).
Proof.
  intros Hme Hf. unfold Val_address. rewrite Hme.
  destruct (Z.leb_spec 0 (GetFirst S i j)); [|lia].
  rewrite row_table_lookup by lia. now rewrite Z2Nat.id by lia.
Qed.




(** [WriteText] prints the full square, one line per row. *)
Lemma WriteText_grid (S : Storage) (ci : bool) (zero : T) (pre : list (list Token))
    (hA : heap * t) (g : Z -> Z -> T) :
  n_ (snd hA) = m_ (snd hA) ->
  (forall i j, 0 <= i < m_ (snd hA) -> 0 <= j < m_ (snd hA) ->
               get S zero hA i j = Some (g i j)) ->
  WriteText S ci zero (mkOtext true pre) hA
  = Done (mkOtext true
            (pre ++ map (fun a => map (fun b => print (g (Z.of_nat a) (Z.of_nat b)))
                                  (seq 0 (Z.to_nat (m_ (snd hA)))))
                      (seq 0 (Z.to_nat (m_ (snd hA)))))).
Proof.
  destruct hA as [h A]. cbn [snd]. intros Hn Hget. unfold WriteText, GetM, GetN.
  rewrite andb_false_r, Hn.
  pose proof (for_loop_collect
                (fun i => for_loop (Z.to_nat (m_ A)) 0
                            (fun j line => match get S zero (h, A) i j with
                                           | Some a => Some (line ++ [print a])
                                           | None => None
                                           end) [])
                (fun line => line)
                (fun i => map (fun b => print (g i (Z.of_nat b)))
                            (seq 0 (Z.to_nat (m_ A))))
                (Z.to_nat (m_ A)) 0 []) as Hout.
  cbv beta in Hout. rewrite Hout.
  - cbn [ot_good app]. reflexivity.
  - intros i Hi.
    rewrite (for_loop_collect (fun j => get S zero (h, A) i j) print (fun j => g i j)).
    + reflexivity.
    + intros j Hj. apply Hget; lia.
Qed.

Hypothesis scan_print : forall a : T, scan (print a) = a.


End TriangularText.


(** ** The solver *)

Section QmrFacts.

Import Qmr.

Context {Treal Complexe Vector1 Matrix1 Preconditioner Iter : Type}.
Context {SO : ScalarOps Treal Complexe}.
Context {VO : VectorOps Treal Complexe Vector1}.
Context {YO : SystemOps Matrix1 Preconditioner Vector1}.
Context {IO : IterationOps Iter Complexe Matrix1 Vector1}.

Abbreviation State := (@State Treal Complexe Vector1 Preconditioner Iter).

(** Complete passes can be peeled off the front of the loop. *)
Lemma loop_passes (n : nat) (A : Matrix1) :
  forall (st st' : State) (fuel : nat),
    passes n A st = Some st' -> loop (n + fuel) A st = loop fuel A st'.
Proof.
  induction n as [|n IH]; intros st st' fuel Hp.
  - simpl in Hp. injection Hp as ->. reflexivity.
  - cbn [passes] in Hp. cbn [Nat.add loop].
    destruct (Finished (iter st) (r st)); [discriminate|].
    destruct (body A (test_Finished st)) as [sb|sc]; [discriminate|].
    now apply IH.
Qed.

(** The breakdown tests do not look at the call log. *)
Lemma breakdown_at_test_Finished (A : Matrix1) (st : State) :
  breakdown_at A (test_Finished st) = breakdown_at A st.
Proof. reflexivity. Qed.

(** A breakdown condition makes the body stop at its [break], after
    [iter.Fail] with the code of that condition and before [x], [r] or the
    iteration count are touched. *)
Lemma body_breakdown (A : Matrix1) (st : State) (bd : Breakdown) :
  breakdown_at A st = Some bd ->
  exists st' pre,
    body A st = Break st' /\
    iter st' = Fail (breakdown_code bd) (breakdown_message bd) (iter st) /\
    x st' = x st /\ r st' = r st /\
    calls st' = calls st ++ pre ++ [Iter_Fail (breakdown_code bd)].
Proof.
  unfold breakdown_at, body, gamma_of, theta_of, rho_of, beta_of, ep_of,
    p_tld_of, p_of, delta_of.
  intros H.
  repeat match type of H with
         | (if ?c then _ else _) = _ =>
             let E := fresh "E" in destruct c eqn:E; rewrite ?E
         end;
    try discriminate; injection H as <-; cbn [breakdown_code breakdown_message].
  - eexists _, []. repeat split.
  - eexists _, []. repeat split.
  - eexists _, [Iter_First; Iter_Mlt]. repeat split.
  - eexists _, [Iter_First; Iter_Mlt]. repeat split.
  - eexists _, [Iter_First; Iter_Mlt; M_Solve]. repeat split.
Qed.

(** Without a breakdown the body runs to its end. *)
Lemma body_Continue (A : Matrix1) (st : State) :
  breakdown_at A st = None -> exists st', body A st = Continue st'.
Proof.
  unfold breakdown_at, body, gamma_of, theta_of, rho_of, beta_of, ep_of,
    p_tld_of, p_of, delta_of.
  intros H.
  repeat match type of H with
         | (if ?c then _ else _) = _ =>
             let E := fresh "E" in destruct c eqn:E; rewrite ?E
         end;
    try discriminate.
  eexists. reflexivity.
Qed.

Lemma breakdown_code_inj (b1 b2 : Breakdown) :
  breakdown_code b1 = breakdown_code b2 -> b1 = b2.
Proof. destruct b1, b2; simpl; intros H; try reflexivity; discriminate. Qed.

Lemma breakdown_code_nonzero (bd : Breakdown) : breakdown_code bd <> 0.
Proof. destruct bd; discriminate. Qed.

(** When the setup succeeds, [QmrSym] is the loop run from [entry]. *)
Lemma QmrSym_loop (fuel : nat) (A : Matrix1) (x0 b : Vector1)
    (M0 : Preconditioner) (it : Iter) :
  0 < GetM A -> fst (Init it b) = 0 ->
  QmrSym fuel A x0 b M0 it
  = option_map finish (loop fuel A (entry A x0 b M0 (snd (Init it b)))).
Proof.
  intros HN Hinit. unfold QmrSym.
  destruct (Z.leb_spec (GetM A) 0); [lia|].
  rewrite Hinit. reflexivity.
Qed.

(** C1.  Every breakdown condition of the SQMR iteration (rho, delta, ep,
    beta or gamma exactly zero) stops the loop at once: [QmrSym] returns,
    as a value, the code given to [iter.Fail] for that condition (1, 3, 4,
    5, 6: pairwise distinct and not 0), with [x] as the last complete pass
    left it and the iteration object failed but not advanced; a run that
    the iteration object counts as converged returns 0.  The [Iteration]
    class is a parameter: it is assumed that [ErrorCode] reports the code
    recorded by [Fail] while the stopping test does not hold, and 0 on a
    converged object. *)
Theorem QmrSym_breakdown_status
    (Converged : Iter -> Vector1 -> Prop)
    (Fail_ErrorCode : forall it r c msg,
        Finished it r = false -> ErrorCode (Fail c msg it) = c)
    (Converged_ErrorCode : forall it r,
        Converged it r -> Finished it r = true /\ ErrorCode it = 0)
    (A : Matrix1) (x0 b : Vector1) (M0 : Preconditioner) (it : Iter)
    (n : nat) (st : State) :
  0 < GetM A ->
  fst (Init it b) = 0 ->
  passes n A (entry A x0 b M0 (snd (Init it b))) = Some st ->
  (forall bd, Finished (iter st) (r st) = false ->
     breakdown_at A st = Some bd ->
     forall fuel, (n < fuel)%nat ->
     exists out pre,
       QmrSym fuel A x0 b M0 it = Some out /\
       status out = breakdown_code bd /\
       x_out out = x st /\
       iter_out out = Fail (breakdown_code bd) (breakdown_message bd) (iter st) /\
       calls_out out = pre ++ [Iter_Fail (breakdown_code bd); Iter_ErrorCode]) /\
  (Converged (iter st) (r st) ->
     forall fuel, (n <= fuel)%nat ->
     exists out,
       QmrSym fuel A x0 b M0 it = Some out /\
       status out = 0 /\ x_out out = x st /\ iter_out out = iter st) /\
  (forall b1 b2, breakdown_code b1 = breakdown_code b2 -> b1 = b2) /\
  (forall bd, breakdown_code bd <> 0).
Proof.
  intros HN Hinit Hp. repeat split.
  - intros bd Hfin Hbd fuel Hfuel.
    rewrite QmrSym_loop by assumption.
    replace fuel with (n + S (fuel - S n))%nat by lia.
    rewrite (loop_passes _ _ _ _ _ Hp). cbn [loop]. rewrite Hfin.
    rewrite <- breakdown_at_test_Finished in Hbd.
    destruct (body_breakdown _ _ _ Hbd) as (st' & pre & Hb & Hit & Hx & Hr & Hc).
    rewrite Hb. cbn [option_map].
    exists (finish st'), (calls (test_Finished st) ++ pre).
    repeat split.
    + cbn [finish status]. rewrite Hit. cbn [test_Finished iter].
      now apply Fail_ErrorCode with (r := r st).
    + cbn [finish x_out]. rewrite Hx. reflexivity.
    + cbn [finish iter_out]. rewrite Hit. reflexivity.
    + cbn [finish calls_out]. rewrite Hc. now rewrite <- !app_assoc.
  - intros Hconv fuel Hfuel.
    destruct (Converged_ErrorCode _ _ Hconv) as [Hfin Hcode].
    rewrite QmrSym_loop by assumption.
    replace fuel with (n + (fuel - n))%nat by lia.
    rewrite (loop_passes _ _ _ _ _ Hp).
    exists (finish (test_Finished st)).
    destruct (fuel - n)%nat; cbn [loop]; rewrite Hfin; repeat split; assumption.
  - apply breakdown_code_inj.
  - apply breakdown_code_nonzero.
Qed.

(** C2 as amended.  In a pass after the first that runs to its end, [d] is
    the previous [d] scaled by theta_1^2 * gamma^2 plus eta times [p], and
    [s] is the previous [s] scaled by the same factor plus eta times
    [p_tld = A*p], where theta_1 is the theta of the previous pass and
    gamma, eta, p, p_tld are those of the current pass; then [x] is
    incremented by [d] and [r] decremented by [s]. *)
Theorem body_update_directions (A : Matrix1) (st st' : State) :
  body A st = Continue st' ->
  First (iter st) = false ->
  let tmp := mul (mul (mul (theta st) (theta st)) (gamma st')) (gamma st') in
  p_tld st' = IterMlt (iter st) A (p st') (p_tld st) /\
  d st' = Add (eta st') (p st') (Mlt tmp (d st)) /\
  s st' = Add (eta st') (p_tld st') (Mlt tmp (s st)) /\
  x st' = Add one (d st') (x st) /\
  r st' = Add (neg one) (s st') (r st).
Proof.
  unfold body. intros Hb HF. rewrite HF in Hb.
  repeat match type of Hb with
         | (if ?c then _ else _) = _ => destruct c; try discriminate
         end.
  injection Hb as <-. cbn. repeat split.
Qed.

(** C10.  When [A.GetM()] is not positive, [QmrSym] returns 0 at once:
    whatever the bound on the loop, the solution vector, the
    preconditioner and the iteration object come back as they were, and
    no call was made on the preconditioner or the iteration object (the
    matrix-vector products are calls on the latter). *)
Theorem QmrSym_empty_system (fuel : nat) (A : Matrix1) (x0 b : Vector1)
    (M0 : Preconditioner) (it : Iter) :
  GetM A <= 0 ->
  QmrSym fuel A x0 b M0 it = Some (mkOutput 0 x0 M0 it []).
Proof.
  intros HN. unfold QmrSym.
  destruct (Z.leb_spec (GetM A) 0); [reflexivity|lia].
Qed.

End QmrFacts.

(** *** The solver on doubles *)

Section QmrDoubleFacts.

Import Qmr QmrDouble.

Lemma Iteration_Fail_ErrorCode (it : Iteration) (r : Vector) (c : Z) (msg : string) :
  Finished it r = false -> ErrorCode (Fail c msg it) = c.
Proof.
  cbn. unfold Iteration_Finished, Iteration_ErrorCode. cbn.
  intros H. apply orb_false_elim in H as [_ H]. now rewrite H.
Qed.

Lemma Iteration_Converged_ErrorCode (it : Iteration) (r : Vector) :
  Converged it r -> Finished it r = true /\ ErrorCode it = 0.
Proof.
  intros (Hf & Hn & Ht). cbn. unfold Iteration_Finished, Iteration_ErrorCode.
  rewrite Ht, Hf. split; [reflexivity|].
  destruct (Z.leb_spec (max_iter it) (nb_iter it)); [lia|reflexivity].
Qed.

(** Witness of C1: on the singular system [A0 x = b2] the first pass finds
    [ep = 0] and [QmrSym] returns 4; on [A2 x = b2] two passes converge and
    it returns 0. *)
Lemma QmrSym_breakdown_status_witness :
  (exists out,
     QmrSym 1 A0 [0; 0]%float b2 tt iter0 = Some out /\ status out = 4) /\
  (exists out,
     QmrSym 2 A2 [0; 0]%float b2 tt iter0 = Some out /\ status out = 0).
Proof.
  split.
  - destruct (QmrSym_breakdown_status Converged Iteration_Fail_ErrorCode
                Iteration_Converged_ErrorCode A0 [0; 0]%float b2 tt iter0 0
                (entry A0 [0; 0]%float b2 tt (snd (Init iter0 b2))))
      as (Hbreak & _); [reflexivity | reflexivity | reflexivity |].
    destruct (Hbreak Breakdown3) with (fuel := 1%nat)
      as (out & pre & Hq & Hs & _); [reflexivity | reflexivity | lia |].
    exists out. split; assumption.
  - destruct (passes 2 A2 (entry A2 [0; 0]%float b2 tt (snd (Init iter0 b2))))
      as [st|] eqn:Hp; [|vm_compute in Hp; discriminate].
    destruct (QmrSym_breakdown_status Converged Iteration_Fail_ErrorCode
                Iteration_Converged_ErrorCode A2 [0; 0]%float b2 tt iter0 2 st)
      as (_ & Hconv & _); [reflexivity | reflexivity | exact Hp |].
    destruct Hconv with (fuel := 2%nat) as (out & Hq & Hs & _).
    + vm_compute in Hp. injection Hp as <-.
      split; [reflexivity | split; [cbn; lia | reflexivity]].
    + lia.
    + exists out. split; assumption.
Defined.

(** Counterexample to C2 as stated: in the second pass of [QmrSym] on
    [A2 x = b2] the new [d] is not the old [d] scaled by the current
    theta^2 gamma^2 plus eta p: the source scales by the previous theta. *)
Lemma body_update_current_theta_counterexample :
  passes 1 A2 (entry A2 [0; 0]%float b2 tt (snd (Init iter0 b2))) <> None /\
  First (iter st1) = false /\
  exists st2,
    body A2 st1 = Continue st2 /\
    d st2 <> Add (eta st2) (p st2)
               (Mlt (mul (mul (mul (theta st2) (theta st2)) (gamma st2)) (gamma st2))
                  (d st1)).
Proof.
  split; [vm_compute; discriminate|].
  split; [reflexivity|].
  eexists. split; [vm_compute; reflexivity|].
  intros H.
  apply (f_equal (fun l => match l with
                           | a :: _ => PrimFloat.ltb a 0.375%float
                           | [] => false
                           end)) in H.
  vm_compute in H. discriminate.
Qed.

(** Witness of C2 as amended, on the same pass. *)
Lemma body_update_directions_witness :
  exists st2,
    body A2 st1 = Continue st2 /\
    d st2 = Add (eta st2) (p st2)
              (Mlt (mul (mul (mul (theta st1) (theta st1)) (gamma st2)) (gamma st2))
                 (d st1)) /\
    x st2 = Add one (d st2) (x st1).
Proof.
  destruct (body A2 st1) as [sb|st2] eqn:Hb; [vm_compute in Hb; discriminate|].
  exists st2. split; [reflexivity|].
  destruct (body_update_directions A2 st1 st2 Hb eq_refl) as (_ & Hd & _ & Hx & _).
  split; assumption.
Defined.

(** Witness of C10: a system with an empty matrix. *)
Lemma QmrSym_empty_system_witness :
  QmrSym 0 [] [] [] tt iter0 = Some (mkOutput 0 [] tt iter0 []).
Proof. apply QmrSym_empty_system. cbn. lia. Defined.

End QmrDoubleFacts.


(** ** The example driver *)

Section EkfFacts.

Import Ekf.

Context {Driver : Type} {DO : DriverOps Driver}.



End EkfFacts.



(** ** The storage contracts *)

Section StorageContracts.

Import Store.

Context {T : Type}.

Abbreviation heap := (gmap loc (list T)).

(** C3 as amended.  [Reallocate(i, j)] does nothing when [i] is the current
    number of rows.  When [i] differs and the reallocation succeeds, the
    matrix is [i x i] on a block of the size of the new layout.  When it
    fails and the library is compiled with [SELDON_CHECK_MEMORY], the
    matrix is left empty (0 x 0, null data pointer) and [NoMemory] is
    thrown; the triangular class throws when [i] is not 0. *)
Theorem Reallocate_contract (S : Triangular.Storage) (i j : Z) (h : heap)
    (P : HermPacked.t) (A : Triangular.t) :
  (* packed storage *)
  (i = HermPacked.m_ P ->
   forall cm o, HermPacked.Reallocate cm o i j (h, P) = Done (h, P)) /\
  (i <> HermPacked.m_ P ->
   (forall cm init,
      HermPacked.Reallocate cm (AllocOk init) i j (h, P)
      = Done (<[new_loc h := block (HermPacked.packed_size i) init]>
                (deallocate (HermPacked.data_ P) h),
              HermPacked.mk i i (Some (new_loc h)))) /\
   (forall o, o = AllocNull \/ o = AllocThrow ->
      HermPacked.Reallocate true o i j (h, P)
      = Thrown (NoMemory "Matrix_HermPacked::Reallocate(int, int)")
          (h, HermPacked.mk 0 0 None))) /\
  (* triangular storage *)
  (i = Triangular.m_ A ->
   forall cm ok o, Triangular.Reallocate S cm ok o i j (h, A) = Done (h, A)) /\
  (i <> Triangular.m_ A ->
   (0 <= i -> forall cm init,
      Triangular.Reallocate S cm true (AllocOk init) i j (h, A)
      = Done (<[new_loc h := block (int_mul i i) init]>
                (deallocate (Triangular.data_ A) h),
              Triangular.mk i i (Some (new_loc h))
                (Some (Triangular.row_table (Some (new_loc h)) i (Z.to_nat i))))) /\
   (i <> 0 -> forall ok o, ok = false \/ o = AllocNull \/ o = AllocThrow ->
      Triangular.Reallocate S true ok o i j (h, A)
      = Thrown (NoMemory "Matrix_Triangular::Reallocate(int, int)")
          (h, Triangular.mk 0 0 None None))).
Proof.
  repeat split.
  - intros E cm o. now apply HermPacked_Reallocate_same.
  - intros cm init. now apply HermPacked_Reallocate_success.
  - intros o Ho. now apply HermPacked_Reallocate_failure.
  - intros E cm ok o. now apply Triangular_Reallocate_same.
  - intros H0 cm init. now apply Triangular_Reallocate_success.
  - intros H0 ok o Ho. now apply Triangular_Reallocate_failure.
Qed.

(** C6.  After [SetData(i, j, data)] with a buffer that is not the
    matrix's own block, [Nullify()] leaves the buffer allocated with its
    elements, the matrix is 0 x 0 with a null data pointer, and clearing
    it afterwards (as the destructor does) does not free the buffer. *)
Theorem Nullify_after_SetData (i j : Z) (data : loc) (buf : list T) (h : heap)
    (P : HermPacked.t) (A : Triangular.t) :
  h !! data = Some buf ->
  HermPacked.data_ P <> Some data ->
  Triangular.data_ A <> Some data ->
  (let hP1 := HermPacked.SetData i j (Some data) (h, P) in
   let hP2 := HermPacked.Nullify hP1 in
   HermPacked.data_ (snd hP1) = Some data /\
   fst hP2 !! data = Some buf /\
   snd hP2 = HermPacked.mk 0 0 None /\
   fst (HermPacked.Clear hP2) !! data = Some buf) /\
  (forall cm ok hA1,
     Triangular.SetData cm ok i j (Some data) (h, A) = Done hA1 ->
     let hA2 := Triangular.Nullify hA1 in
     (ok = true -> 0 <= i -> Triangular.data_ (snd hA1) = Some data) /\
     fst hA2 !! data = Some buf /\
     snd hA2 = Triangular.mk 0 0 None None /\
     fst (Triangular.Clear hA2) !! data = Some buf).
Proof.
  intros Hbuf HP HA. split.
  - destruct (HermPacked_SetData_Nullify i j (Some data) h P)
      as (Hd & Hh & Hs & Hc & Hl).
    cbv zeta. rewrite Hc, (Hl data HP). repeat split; assumption.
  - intros cm ok hA1 HS.
    destruct (Triangular_SetData_Nullify cm ok i j (Some data) h A hA1 HS)
      as (Hh & Hs & Hc & Hl).
    cbv zeta. rewrite Hc, (Hl data HA). repeat split; try assumption.
    intros -> H0. rewrite Triangular_SetData_success in HS by assumption.
    now injection HS as <-.
Qed.

Context {VR : ValueRep T} {Token : Type} {TR : TextRep T Token}.

(** C8.  Every packed and every triangular matrix is square at every
    point: whatever sequence of calls produced it, returning or throwing,
    [GetM()] equals [GetN()].  The constructor, [Reallocate] and [SetData]
    do not look at [j], and give an [i x i] matrix when they succeed;
    [Clear], [Nullify] and the guarded failure branches give 0 x 0. *)
Theorem storage_always_square (S : Triangular.Storage) (cm ci : bool) :
  (forall hP : heap * HermPacked.t,
     HermPacked.Reachable cm ci hP ->
     HermPacked.GetM (snd hP) = HermPacked.GetN (snd hP)) /\
  (forall hA : heap * Triangular.t,
     Triangular.Reachable S cm ci hA ->
     Triangular.GetM (snd hA) = Triangular.GetN (snd hA)) /\
  (* [j] is ignored *)
  (forall o ok i j j' data (h : heap) (hP : heap * HermPacked.t)
          (hA : heap * Triangular.t),
     HermPacked.Matrix_HermPacked cm o i j h
     = HermPacked.Matrix_HermPacked cm o i j' h /\
     HermPacked.Reallocate cm o i j hP = HermPacked.Reallocate cm o i j' hP /\
     HermPacked.SetData i j data hP = HermPacked.SetData i j' data hP /\
     Triangular.Matrix_Triangular cm ok o i j h
     = Triangular.Matrix_Triangular cm ok o i j' h /\
     Triangular.Reallocate S cm ok o i j hA
     = Triangular.Reallocate S cm ok o i j' hA /\
     Triangular.SetData cm ok i j data hA = Triangular.SetData cm ok i j' data hA) /\
  (* success gives [i x i] *)
  (forall init i j data (h : heap) (P : HermPacked.t) (A : Triangular.t),
     0 <= i ->
     (exists h', HermPacked.Matrix_HermPacked cm (AllocOk init) i j h
                 = Done (h', HermPacked.mk i i (Some (new_loc h)))) /\
     (i <> HermPacked.m_ P ->
      exists h', HermPacked.Reallocate cm (AllocOk init) i j (h, P)
                 = Done (h', HermPacked.mk i i (Some (new_loc h)))) /\
     (exists h', HermPacked.SetData i j data (h, P)
                 = (h', HermPacked.mk i i data)) /\
     (exists h' me, Triangular.Matrix_Triangular cm true (AllocOk init) i j h
                 = Done (h', Triangular.mk i i (Some (new_loc h)) me)) /\
     (i <> Triangular.m_ A ->
      exists h' me, Triangular.Reallocate S cm true (AllocOk init) i j (h, A)
                 = Done (h', Triangular.mk i i (Some (new_loc h)) me)) /\
     (exists h' me, Triangular.SetData cm true i j data (h, A)
                 = Done (h', Triangular.mk i i data me))) /\
  (* [Clear], [Nullify] and the failure branches give 0 x 0 *)
  (forall o i j (h : heap) (hP : heap * HermPacked.t) (hA : heap * Triangular.t),
     snd (HermPacked.Clear hP) = HermPacked.mk 0 0 None /\
     snd (HermPacked.Nullify hP) = HermPacked.mk 0 0 None /\
     snd (Triangular.Clear hA) = Triangular.mk 0 0 None None /\
     snd (Triangular.Nullify hA) = Triangular.mk 0 0 None None /\
     (o = AllocNull \/ o = AllocThrow ->
      HermPacked.Matrix_HermPacked true o i j h
      = Done (h, HermPacked.mk 0 0 None) /\
      (i <> HermPacked.m_ (snd hP) ->
       state_of (HermPacked.Reallocate true o i j hP)
       = Some (fst hP, HermPacked.mk 0 0 None)) /\
      (i <> 0 ->
       state_of (Triangular.Matrix_Triangular true true o i j h)
       = Some (h, Triangular.mk 0 0 None None)) /\
      (i <> 0 -> i <> Triangular.m_ (snd hA) ->
       state_of (Triangular.Reallocate S true true o i j hA)
       = Some (fst hA, Triangular.mk 0 0 None None)))).
Proof.
  split; [|split; [|split; [|split]]].
  - intros hP HR. now apply HermPacked_Reachable_square in HR.
  - intros hA HR. now apply Triangular_Reachable_square in HR.
  - intros. repeat split.
  - intros init i j data h P A H0. repeat split.
    + rewrite HermPacked_constructor. eauto.
    + intros Hi. rewrite HermPacked_Reallocate_success by assumption. eauto.
    + unfold HermPacked.SetData. cbn. eauto.
    + rewrite (Triangular_constructor S) by assumption. eauto.
    + intros Hi. rewrite Triangular_Reallocate_success by assumption. eauto.
    + rewrite Triangular_SetData_success by assumption. eauto.
  - intros o i j h [hp P] [ha A]. cbn [fst snd].
    split; [reflexivity|]. split; [reflexivity|]. split; [reflexivity|].
    split; [reflexivity|]. intros Ho. repeat split.
    + destruct Ho as [-> | ->]; reflexivity.
    + intros Hi. now rewrite HermPacked_Reallocate_failure.
    + intros Hi. unfold Triangular.Matrix_Triangular. cbn.
      destruct Ho as [-> | ->]; cbn; destruct (Z.eqb_spec i 0); (contradiction || reflexivity).
    + intros H0 Hi. rewrite Triangular_Reallocate_failure; auto.
Qed.

End StorageContracts.

Section ResizeContract.

Import Store.

Context {T : Type}.

(** C5.  A [Resize(i, j)] of a well-formed matrix to a valid dimension,
    with an allocation that succeeds, leaves a well-formed [i x i] matrix:
    when the dimension changes, the old block is given back and the
    matrix is on a new block of [i * i] elements with the row pointers
    [me_[k] = data_ + k * i] (triangular), or of [i * (i + 1) / 2] elements
    (packed).  Every stored element [(k, l)] with [k] and [l] below
    [min(i, i_old)] reads back as before, at its place for the new
    dimension: through the row pointers into the new block for a
    triangular matrix, at the packed row offset of the new dimension for
    row-major packing, and at the (dimension-free) packed column offset
    for column-major packing. *)
Theorem Resize_preserves_elements (S : Triangular.Storage) (cm : bool)
    (init : nat -> T) (i j : Z) (h : gmap loc (list T))
    (P : HermPacked.t) (A : Triangular.t) :
  HermPacked.valid_dimension i ->
  Triangular.valid_dimension i ->
  (Triangular.wf (h, A) ->
   exists hA2,
     Triangular.Resize S cm true (AllocOk init) i j (h, A) = Done hA2 /\
     Triangular.GetM (snd hA2) = i /\ Triangular.GetN (snd hA2) = i /\
     Triangular.wf hA2 /\
     (i = Triangular.m_ A -> hA2 = (h, A)) /\
     (i <> Triangular.m_ A ->
      exists blk,
        Z.of_nat (length blk) = i * i /\
        hA2 = (<[new_loc h := blk]> (deallocate (Triangular.data_ A) h),
               Triangular.mk i i (Some (new_loc h))
                 (Some (Triangular.row_table (Some (new_loc h)) i
                          (Z.to_nat i))))) /\
     forall k l, 0 <= k < Z.min (Triangular.m_ A) i ->
                 0 <= l < Z.min (Triangular.m_ A) i ->
       is_Some (Triangular.Val S (h, A) k l) /\
       Triangular.Val S hA2 k l = Triangular.Val S (h, A) k l) /\
  (HermPacked.wf (h, P) ->
   (exists h2 P2,
      HermPacked.RowHermPacked_Resize cm (AllocOk init) i j (h, P) = Done (h2, P2) /\
      HermPacked.GetM P2 = i /\ HermPacked.GetN P2 = i /\
      HermPacked.wf (h2, P2) /\
      (i <> HermPacked.m_ P ->
       exists blk,
         Z.of_nat (length blk) = i * (i + 1) / 2 /\
         h2 = <[new_loc h := blk]> (deallocate (HermPacked.data_ P) h) /\
         P2 = HermPacked.mk i i (Some (new_loc h))) /\
      forall k l, 0 <= k <= l -> l < Z.min (HermPacked.m_ P) i ->
        is_Some (load h (HermPacked.data_ P)
                   (HermPacked.RowHermPacked_offset (HermPacked.m_ P) k l)) /\
        load h2 (HermPacked.data_ P2) (HermPacked.RowHermPacked_offset i k l)
        = load h (HermPacked.data_ P)
            (HermPacked.RowHermPacked_offset (HermPacked.m_ P) k l)) /\
   (exists h2 P2,
      HermPacked.ColHermPacked_Resize cm (AllocOk init) i j (h, P) = Done (h2, P2) /\
      HermPacked.GetM P2 = i /\ HermPacked.GetN P2 = i /\
      HermPacked.wf (h2, P2) /\
      (i <> HermPacked.m_ P ->
       exists blk,
         Z.of_nat (length blk) = i * (i + 1) / 2 /\
         h2 = <[new_loc h := blk]> (deallocate (HermPacked.data_ P) h) /\
         P2 = HermPacked.mk i i (Some (new_loc h))) /\
      forall k l, 0 <= k <= l -> l < Z.min (HermPacked.m_ P) i ->
        is_Some (load h (HermPacked.data_ P) (HermPacked.ColHermPacked_offset k l)) /\
        load h2 (HermPacked.data_ P2) (HermPacked.ColHermPacked_offset k l)
        = load h (HermPacked.data_ P) (HermPacked.ColHermPacked_offset k l))).
Proof.
  intros HvP HvA. split.
  - intros Hwf.
    destruct (Triangular_Resize_preserves S cm init i j (h, A) Hwf HvA)
      as (hA2 & HR & Hm & Hn & Hval).
    destruct (Triangular_Resize_result S cm init i j h A hA2 Hwf HvA HR)
      as (Hwf2 & Hsame & Hnew).
    exists hA2. split; [exact HR|]. split; [exact Hm|]. split; [exact Hn|].
    split; [exact Hwf2|]. split; [exact Hsame|]. split; [exact Hnew|exact Hval].
  - intros Hwf. split.
    + destruct (RowHermPacked_Resize_preserves cm init i j h P Hwf HvP)
        as (h2 & P2 & HR & Hm & Hn & Hval).
      destruct (HermPacked_Resize_result cm init i j h h2 P P2 Hwf HvP
                  (or_introl HR)) as (Hwf2 & Hnew).
      exists h2, P2. split; [exact HR|]. split; [exact Hm|]. split; [exact Hn|].
      split; [exact Hwf2|]. split; [exact Hnew|exact Hval].
    + destruct (ColHermPacked_Resize_preserves cm init i j h P Hwf HvP)
        as (h2 & P2 & HR & Hm & Hn & Hval).
      destruct (HermPacked_Resize_result cm init i j h h2 P P2 Hwf HvP
                  (or_intror HR)) as (Hwf2 & Hnew).
      exists h2, P2. split; [exact HR|]. split; [exact Hm|]. split; [exact Hn|].
      split; [exact Hwf2|]. split; [exact Hnew|exact Hval].
Qed.

End ResizeContract.

Section BinaryContract.

Import Store.

Context {T : Type} {VR : ValueRep T}.

(** C4.  For a valid dimension [i], the matrix constructed as [(i, i)]
    reports [GetDataSize()] equal to [i*(i+1)/2] (packed) or [i*i]
    (triangular).  [Write] emits the two dimensions, four bytes each, then
    the stored elements in storage order; [Read] on these bytes
    reallocates to the persisted dimension and fills the elements: the
    matrix read has the dimensions and the stored contents of the matrix
    written.  The object representation of an element is assumed to have
    [sizeof] bytes, [sizeof] positive, and to determine the element. *)
Theorem binary_roundtrip
    (encode_length : forall a : T, length (encode a) = sizeof)
    (decode_encode : forall a : T, decode (encode a) = a)
    (sizeof_pos : (0 < sizeof)%nat)
    (S : Triangular.Storage) (cm ci : bool) (i : Z) (pre rest : list byte) :
  (* packed storage *)
  (HermPacked.valid_dimension i ->
   (forall init j (h : gmap loc (list T)), exists hP,
      HermPacked.Matrix_HermPacked cm (AllocOk init) i j h = Done hP /\
      HermPacked.wf hP /\
      HermPacked.GetM (snd hP) = i /\ HermPacked.GetN (snd hP) = i /\
      HermPacked.GetDataSize (snd hP) = i * (i + 1) / 2) /\
   (forall (hP : gmap loc (list T) * HermPacked.t) buf init hQ,
      HermPacked.wf hP -> HermPacked.m_ (snd hP) = i ->
      HermPacked.contents hP = Some buf ->
      HermPacked.wf hQ ->
      exists hQ',
        HermPacked.Write ci (mkOstream true pre) hP
        = Done (mkOstream true (pre ++ encode_int i ++ encode_int i ++ encode_all buf)) /\
        length (encode_int i) = 4%nat /\
        HermPacked.Read cm ci (AllocOk init)
          (mkIstream true (encode_int i ++ encode_int i ++ encode_all buf ++ rest)) hQ
        = Done (mkIstream true rest, hQ') /\
        HermPacked.GetM (snd hQ') = i /\ HermPacked.GetN (snd hQ') = i /\
        HermPacked.contents hQ' = Some buf)) /\
  (* triangular storage *)
  (Triangular.valid_dimension i ->
   (forall init j (h : gmap loc (list T)), exists hA,
      Triangular.Matrix_Triangular cm true (AllocOk init) i j h = Done hA /\
      Triangular.wf hA /\
      Triangular.GetM (snd hA) = i /\ Triangular.GetN (snd hA) = i /\
      Triangular.GetDataSize (snd hA) = i * i) /\
   (forall (hA : gmap loc (list T) * Triangular.t) buf init hB,
      Triangular.wf hA -> Triangular.m_ (snd hA) = i ->
      Triangular.contents hA = Some buf ->
      Triangular.wf hB ->
      exists hB',
        Triangular.Write ci (mkOstream true pre) hA
        = Done (mkOstream true (pre ++ encode_int i ++ encode_int i ++ encode_all buf)) /\
        Triangular.Read S cm ci true (AllocOk init)
          (mkIstream true (encode_int i ++ encode_int i ++ encode_all buf ++ rest)) hB
        = Done (mkIstream true rest, hB') /\
        Triangular.GetM (snd hB') = i /\ Triangular.GetN (snd hB') = i /\
        Triangular.contents hB' = Some buf)).
Proof.
  split.
  - intros Hv. split.
    + intros init j h.
      destruct (HermPacked_constructor_wf cm init i j h Hv)
        as (hP & Hc & Hwf & Hm & Hn & Hs & _).
      exists hP. repeat split; assumption || apply Hwf.
    + intros hP buf init hQ HwfP Hm Hc HwfQ.
      assert (Hlen : Z.of_nat (length buf) = i * (i + 1) / 2).
      { pose proof (buffer_length _ _ _ _ Hc) as Hl.
        unfold HermPacked.GetDataSize in Hl. rewrite Hm in Hl.
        rewrite packed_size_valid in Hl by assumption.
        pose proof (packed_size_nonneg i Hv).
        rewrite packed_size_valid in H by assumption. lia. }
      destruct (HermPacked_Read_bytes encode_length decode_encode sizeof_pos
                  cm ci init i buf rest hQ Hv Hlen HwfQ)
        as (hQ' & HR & HmQ & HnQ & HcQ).
      exists hQ'. rewrite (HermPacked_Write_bytes ci pre hP buf Hc).
      destruct HwfP as (_ & HnP & _). rewrite HnP, Hm.
      repeat split; assumption || apply length_encode_int.
  - intros Hv. split.
    + intros init j h. rewrite (Triangular_constructor S) by apply Hv.
      eexists. split; [reflexivity|].
      destruct (Triangular_fresh_wf h (new_loc h) i (block (int_mul i i) init) Hv)
        as [Hwf _].
      { rewrite length_block, square_size_valid by assumption. destruct Hv. nia. }
      split; [exact Hwf|]. cbn. repeat split.
      now apply square_size_valid.
    + intros hA buf init hB HwfA Hm Hc HwfB.
      assert (Hlen : Z.of_nat (length buf) = i * i).
      { pose proof (buffer_length _ _ _ _ Hc) as Hl.
        destruct HwfA as (_ & HnA & _).
        unfold Triangular.GetDataSize in Hl. rewrite HnA, Hm in Hl.
        rewrite square_size_valid in Hl by assumption. destruct Hv. nia. }
      destruct (Triangular_Read_bytes encode_length decode_encode sizeof_pos
                  S cm ci init i buf rest hB Hv Hlen HwfB)
        as (hB' & HR & HmB & HnB & HcB).
      exists hB'. rewrite (Triangular_Write_bytes S ci pre hA buf Hc).
      destruct HwfA as (_ & HnA & _). rewrite HnA, Hm.
      repeat split; assumption.
Qed.

End BinaryContract.

Section TextContract.

Import Store.

Context {T : Type} {Token : Type} {TR : TextRep T Token}.


End TextContract.


(** ** The contracts on concrete matrices *)

Section StorageExamples.

Import Store Examples.

Lemma byte_encode_length (a : byte) : length (encode a) = sizeof.
Proof. reflexivity. Qed.

Lemma byte_decode_encode (a : byte) : decode (encode a) = a.
Proof. reflexivity. Qed.


Lemma packed_2x2_wf : HermPacked.wf (triangular_heap2, packed_2x2).
Proof.
  split; [split; cbn; lia|]. split; [reflexivity|].
  exists [Byte.x01; Byte.x02; Byte.x03]. reflexivity.
Qed.

Lemma packed_empty_wf : HermPacked.wf (∅ : gmap loc (list byte), packed_empty).
Proof.
  split; [split; cbn; lia|]. split; [reflexivity|]. exists []. reflexivity.
Qed.

Lemma triangular_2x2_wf : Triangular.wf (triangular_heap2, triangular_2x2).
Proof.
  split; [split; cbn; lia|]. split; [reflexivity|]. split.
  - exists [Byte.x01; Byte.x02; Byte.x03; Byte.x04]. reflexivity.
  - reflexivity.
Qed.

Lemma triangular_Z_wf : Triangular.wf (triangular_heapZ, triangular_2x2).
Proof.
  split; [split; cbn; lia|]. split; [reflexivity|]. split.
  - exists [11; 12; 21; 22]. reflexivity.
  - reflexivity.
Qed.

(** Counterexample to C3 as stated: without [SELDON_CHECK_MEMORY], a
    reallocation of the constructed [1 x 1] matrix to 2 rows that returns
    NULL makes [Reallocate] return normally, with a [2 x 2] matrix on a
    null data pointer. *)
Lemma Reallocate_unchecked_counterexample :
  HermPacked.Matrix_HermPacked false (AllocOk (fun _ => Byte.x2a)) 1 1 ∅
  = Done (packed_heap, packed_1x1) /\
  HermPacked.Reallocate false AllocNull 2 2 (packed_heap, packed_1x1)
  = Done (packed_heap, HermPacked.mk 2 2 None).
Proof. split; reflexivity. Qed.

(** Witness of C3 as amended: with the checks, the same failed call
    throws and leaves the empty matrix; a call with the current number of
    rows does nothing; a failed call on the triangular [2 x 2] matrix
    throws as well. *)
Lemma Reallocate_contract_witness :
  HermPacked.Reallocate true AllocNull 2 2 (packed_heap, packed_1x1)
  = Thrown (NoMemory "Matrix_HermPacked::Reallocate(int, int)")
      (packed_heap, HermPacked.mk 0 0 None) /\
  HermPacked.Reallocate true AllocNull 1 5 (packed_heap, packed_1x1)
  = Done (packed_heap, packed_1x1) /\
  Triangular.Reallocate Triangular.RowUpTriang true true AllocThrow 3 3
    (packed_heap, triangular_2x2)
  = Thrown (NoMemory "Matrix_Triangular::Reallocate(int, int)")
      (packed_heap, Triangular.mk 0 0 None None).
Proof.
  split; [|split].
  - destruct (Reallocate_contract Triangular.RowUpTriang 2 2 packed_heap
                packed_1x1 triangular_2x2) as (_ & H & _).
    apply H; [discriminate | now left].
  - destruct (Reallocate_contract Triangular.RowUpTriang 1 5 packed_heap
                packed_1x1 triangular_2x2) as (H & _).
    now apply H.
  - destruct (Reallocate_contract Triangular.RowUpTriang 3 3 packed_heap
                packed_1x1 triangular_2x2) as (_ & _ & _ & H).
    apply H; [discriminate | discriminate | now right; right].
Defined.

(** Witness of C4: the packed [2 x 2] matrix is written as eleven bytes
    and read back into an empty matrix. *)
Lemma binary_roundtrip_witness :
  exists hQ',
    HermPacked.Write false (mkOstream true []) (triangular_heap2, packed_2x2)
    = Done (mkOstream true
              ([] ++ encode_int 2 ++ encode_int 2
                  ++ encode_all [Byte.x01; Byte.x02; Byte.x03])) /\
    length (encode_int 2) = 4%nat /\
    HermPacked.Read true false (AllocOk (fun _ => Byte.x00))
      (mkIstream true
         (encode_int 2 ++ encode_int 2
            ++ encode_all [Byte.x01; Byte.x02; Byte.x03] ++ []))
      (∅, packed_empty)
    = Done (mkIstream true [], hQ') /\
    HermPacked.GetM (snd hQ') = 2 /\ HermPacked.GetN (snd hQ') = 2 /\
    HermPacked.contents hQ' = Some [Byte.x01; Byte.x02; Byte.x03].
Proof.
  destruct (binary_roundtrip byte_encode_length byte_decode_encode
              ltac:(cbn; lia) Triangular.RowUpTriang true false 2 [] [])
    as ((_ & H) & _); [split; cbn; lia|].
  apply (H (triangular_heap2, packed_2x2) [Byte.x01; Byte.x02; Byte.x03]
           (fun _ => Byte.x00) (∅, packed_empty));
    [exact packed_2x2_wf | reflexivity | reflexivity | exact packed_empty_wf].
Defined.

(** Witness of C5: the triangular [2 x 2] matrix resized to [1 x 1] is a
    well-formed matrix on a new block of one element, and keeps its
    element [(0, 0)]. *)
Lemma Resize_preserves_elements_witness :
  exists hA2,
    Triangular.Resize Triangular.RowUpTriang true true (AllocOk (fun _ => Byte.x00))
      1 1 (triangular_heap2, triangular_2x2) = Done hA2 /\
    Triangular.GetM (snd hA2) = 1 /\
    Triangular.wf hA2 /\
    (exists blk,
       Z.of_nat (length blk) = 1 /\
       hA2 = (<[new_loc triangular_heap2 := blk]>
                (deallocate (Some 1%positive) triangular_heap2),
              Triangular.mk 1 1 (Some (new_loc triangular_heap2))
                (Some (Triangular.row_table
                         (Some (new_loc triangular_heap2)) 1 1)))) /\
    Triangular.Val Triangular.RowUpTriang hA2 0 0 = Some Byte.x01.
Proof.
  destruct (Resize_preserves_elements Triangular.RowUpTriang true
              (fun _ => Byte.x00) 1 1 triangular_heap2 packed_2x2 triangular_2x2)
    as (H & _); [split; cbn; lia | split; cbn; lia |].
  destruct (H triangular_2x2_wf) as (hA2 & HR & Hm & _ & Hwf & _ & Hnew & Hval).
  exists hA2. split; [exact HR|]. split; [exact Hm|]. split; [exact Hwf|].
  split; [apply Hnew; cbn; lia|].
  destruct (Hval 0 0) as [_ ->]; [cbn; lia | cbn; lia | reflexivity].
Defined.

(** Witness of C6: a buffer of the caller given to the packed [1 x 1]
    matrix and to the triangular [2 x 2] matrix survives [Nullify]. *)
Lemma Nullify_after_SetData_witness :
  (let hP1 := HermPacked.SetData 2 2 (Some user_buffer) (user_heap, packed_1x1) in
   let hP2 := HermPacked.Nullify hP1 in
   HermPacked.data_ (snd hP1) = Some user_buffer /\
   fst hP2 !! user_buffer = Some [Byte.x0a; Byte.x0b; Byte.x0c; Byte.x0d] /\
   snd hP2 = HermPacked.mk 0 0 None /\
   fst (HermPacked.Clear hP2) !! user_buffer
   = Some [Byte.x0a; Byte.x0b; Byte.x0c; Byte.x0d]) /\
  (forall cm ok hA1,
     Triangular.SetData cm ok 2 2 (Some user_buffer) (user_heap, triangular_2x2)
     = Done hA1 ->
     let hA2 := Triangular.Nullify hA1 in
     (ok = true -> 0 <= 2 -> Triangular.data_ (snd hA1) = Some user_buffer) /\
     fst hA2 !! user_buffer = Some [Byte.x0a; Byte.x0b; Byte.x0c; Byte.x0d] /\
     snd hA2 = Triangular.mk 0 0 None None /\
     fst (Triangular.Clear hA2) !! user_buffer
     = Some [Byte.x0a; Byte.x0b; Byte.x0c; Byte.x0d]).
Proof.
  apply (Nullify_after_SetData 2 2 user_buffer
           [Byte.x0a; Byte.x0b; Byte.x0c; Byte.x0d] user_heap packed_1x1
           triangular_2x2); [reflexivity | discriminate | discriminate].
Defined.



(** Witness of C8: the packed matrix constructed with [(1, 4)], then
    resized to 3 rows by a reallocation that returns NULL without the
    memory checks, is square. *)
Lemma storage_always_square_witness :
  HermPacked.Matrix_HermPacked false (AllocOk (fun _ => Byte.x2a)) 1 4 ∅
  = Done (packed_heap, packed_1x1) /\
  HermPacked.Reallocate false AllocNull 3 9 (packed_heap, packed_1x1)
  = Done (packed_heap, HermPacked.mk 3 3 None) /\
  HermPacked.GetM (snd (packed_heap, HermPacked.mk 3 3 None))
  = HermPacked.GetN (snd (packed_heap, HermPacked.mk 3 3 None)).
Proof.
  split; [reflexivity|]. split; [reflexivity|].
  destruct (storage_always_square (T := byte) (Token := byte)
              Triangular.RowUpTriang false false) as (H & _).
  apply H.
  apply HermPacked.Reach_Reallocate
    with (o := AllocNull) (i := 3) (j := 9) (hA := (packed_heap, packed_1x1));
    [|reflexivity].
  apply HermPacked.Reach_Matrix_HermPacked
    with (o := AllocOk (fun _ => Byte.x2a)) (i := 1) (j := 4) (h := ∅).
  reflexivity.
Defined.

End StorageExamples.


(* ===================================================================== *)
(** * Part III.  Further properties of the code                           *)
(* ===================================================================== *)

(** ** Loops over the stored elements, files *)

Section BlockLoops.

Import Store.

Context {T : Type}.

Lemma block_step_store (ptr : option loc) (f : Z -> T) :
  block_step ptr (fun i _ => f i) (fun i h => store h ptr i (f i)).
Proof.
  intros l i h blk -> Hl Hi.
  destruct (lookup_lt_is_Some_2 blk (Z.to_nat i)) as [a Ha]; [lia|].
  exists a. split; [exact Ha|]. now apply store_insert.
Qed.

Lemma block_step_load_store (ptr : option loc) (g : Z -> T -> T) :
  block_step ptr g
    (fun i h => match load h ptr i with
                | Some a => store h ptr i (g i a)
                | None => None
                end).
Proof.
  intros l i h blk -> Hl Hi.
  destruct (lookup_lt_is_Some_2 blk (Z.to_nat i)) as [a Ha]; [lia|].
  exists a. split; [exact Ha|].
  rewrite (load_lookup h l blk) by (assumption || lia). rewrite Ha.
  now apply store_insert.
Qed.

Lemma block_loop (l : loc) (g : Z -> T -> T)
    (step : Z -> gmap loc (list T) -> option (gmap loc (list T))) :
  block_step (Some l) g step ->
  forall (c : nat) (k : Z) (h : gmap loc (list T)) (blk : list T),
    h !! l = Some blk -> 0 <= k -> k + Z.of_nat c <= Z.of_nat (length blk) ->
    exists blk',
      for_loop c k step h = Some (<[l := blk']> h) /\
      length blk' = length blk /\
      (forall i, k <= i < k + Z.of_nat c ->
                 blk' !! Z.to_nat i = g i <$> blk !! Z.to_nat i) /\
      (forall idx : nat, ~ (k <= Z.of_nat idx < k + Z.of_nat c) ->
                         blk' !! idx = blk !! idx).
Proof.
  intros Hstep. induction c as [|c IH]; intros k h blk Hl Hk Hc.
  - exists blk. cbn [for_loop]. rewrite insert_id by assumption.
    split; [reflexivity|]. split; [reflexivity|]. split; [intros; lia|reflexivity].
  - destruct (Hstep l k h blk eq_refl Hl) as (a & Ha & Hs); [lia|].
    cbn [for_loop]. rewrite Hs.
    destruct (IH (k + 1) (<[l := <[Z.to_nat k := g k a]> blk]> h)
                (<[Z.to_nat k := g k a]> blk))
      as (blk' & Hloop & Hlen & Hin & Hout).
    + apply lookup_insert_eq.
    + lia.
    + rewrite length_insert. lia.
    + exists blk'. rewrite Hloop, insert_insert_eq.
      split; [reflexivity|]. split; [now rewrite Hlen, length_insert|]. split.
      * intros i Hi. destruct (Z.eq_dec i k) as [->|Hne].
        -- rewrite Hout by lia. rewrite list_lookup_insert_eq by lia.
           now rewrite Ha.
        -- rewrite Hin by lia. now rewrite list_lookup_insert_ne by lia.
      * intros idx Hidx. rewrite Hout by lia.
        apply list_lookup_insert_ne. lia.
Qed.

(** The loop over the first [n] elements behind [ptr]: they become the
    images of the old ones, the rest of the heap stays, and a heap that
    is the matrix's block over [h0] is still so. *)
Lemma block_loop_buffer (ptr : option loc) (n : Z) (g : Z -> T -> T)
    (step : Z -> gmap loc (list T) -> option (gmap loc (list T)))
    (h : gmap loc (list T)) (buf : list T) :
  block_step ptr g step ->
  buffer h ptr n = Some buf ->
  exists h',
    for_loop (Z.to_nat n) 0 step h = Some h' /\
    buffer h' ptr n = Some (imap (fun i a => g (Z.of_nat i) a) buf) /\
    (forall l, ptr <> Some l -> h' !! l = h !! l) /\
    (forall h0, owns h0 ptr h -> owns h0 ptr h').
Proof.
  intros Hstep Hbuf.
  destruct (Z.leb_spec n 0) as [Hn|Hn].
  - replace (Z.to_nat n) with O by lia. exists h. cbn [for_loop].
    unfold buffer in *. destruct (Z.leb_spec n 0); [|lia].
    injection Hbuf as <-. repeat split; auto.
  - destruct (buffer_block _ _ _ _ Hbuf Hn) as (l & blk & -> & Hl & Hlen).
    destruct (block_loop l g step Hstep (Z.to_nat n) 0 h blk Hl)
      as (blk' & Hloop & Hlen' & Hin & Hout); [lia|lia|].
    exists (<[l := blk']> h). split; [exact Hloop|].
    assert (Hb : buf = take (Z.to_nat n) blk).
    { unfold buffer in Hbuf. destruct (Z.leb_spec n 0); [lia|].
      rewrite Hl in Hbuf.
      destruct (Z.leb_spec n (Z.of_nat (length blk))); [|lia].
      now injection Hbuf as <-. }
    split; [|split].
    + unfold buffer. destruct (Z.leb_spec n 0); [lia|].
      rewrite lookup_insert_eq.
      destruct (Z.leb_spec n (Z.of_nat (length blk'))); [|lia].
      f_equal. apply list_eq. intros i.
      rewrite list_lookup_imap, Hb.
      destruct (Nat.lt_ge_cases i (Z.to_nat n)) as [Hi|Hi].
      * rewrite !lookup_take_lt by lia.
        specialize (Hin (Z.of_nat i)). rewrite Nat2Z.id in Hin.
        apply Hin. lia.
      * rewrite !lookup_take_ge by lia. reflexivity.
    + intros l' Hne. apply lookup_insert_ne. congruence.
    + intros h0 (H0 & b0 & ->). split; [exact H0|].
      exists blk'. apply insert_insert_eq.
Qed.

Lemma imap_const_replicate {A B : Type} (b : B) (l : list A) :
  imap (fun _ _ => b) l = replicate (length l) b.
Proof.
  apply list_eq. intros i. rewrite list_lookup_imap.
  destruct (l !! i) as [a|] eqn:E.
  - apply lookup_lt_Some in E. cbn. symmetry. now apply lookup_replicate_2.
  - apply lookup_ge_None in E. cbn. symmetry.
    apply lookup_ge_None. now rewrite length_replicate.
Qed.

Lemma imap_index {A B : Type} (f : nat -> B) (l : list A) :
  imap (fun i _ => f i) l = map f (seq 0 (length l)).
Proof.
  apply list_eq. intros i. rewrite list_lookup_imap, list_lookup_fmap.
  destruct (l !! i) as [a|] eqn:E.
  - apply lookup_lt_Some in E. cbn. rewrite lookup_seq_lt by lia. reflexivity.
  - apply lookup_ge_None in E. cbn. rewrite lookup_seq_ge by lia. reflexivity.
Qed.

Lemma imap_map {A B : Type} (f : A -> B) (l : list A) :
  imap (fun _ a => f a) l = map f l.
Proof.
  apply list_eq. intros i. now rewrite list_lookup_imap, list_lookup_fmap.
Qed.

(** A loop over a state that carries the heap with something the loop
    does not change. *)
Lemma for_loop_lift {S1 S2 : Type} (inj : S1 -> S2)
    (f : Z -> S2 -> option S2) (g : Z -> S1 -> option S1) :
  forall (c : nat) (k : Z) (s : S1),
    (forall i s, k <= i < k + Z.of_nat c -> f i (inj s) = option_map inj (g i s)) ->
    for_loop c k f (inj s) = option_map inj (for_loop c k g s).
Proof.
  induction c as [|c IH]; intros k s H; [reflexivity|].
  cbn [for_loop]. rewrite H by lia.
  destruct (g k s) as [s1|]; [|reflexivity]. cbn [option_map].
  apply IH. intros i s0 Hi. apply H. lia.
Qed.

(** A loop that stores [a] at the distinct places [d i] of a block. *)
Lemma scatter_loop (a : T) (l1 : loc) (d : Z -> Z) :
  forall (c : nat) (k : Z) (h : gmap loc (list T)) (blk : list T),
    h !! l1 = Some blk ->
    (forall i, k <= i < k + Z.of_nat c -> 0 <= d i < Z.of_nat (length blk)) ->
    (forall i i', k <= i < k + Z.of_nat c -> k <= i' < k + Z.of_nat c ->
                  d i = d i' -> i = i') ->
    exists blk',
      for_loop c k (fun i h => store h (Some l1) (d i) a) h
      = Some (<[l1 := blk']> h) /\
      length blk' = length blk /\
      (forall i, k <= i < k + Z.of_nat c -> blk' !! Z.to_nat (d i) = Some a) /\
      (forall idx, (forall i, k <= i < k + Z.of_nat c -> d i <> Z.of_nat idx) ->
                   blk' !! idx = blk !! idx).
Proof.
  intros c k h blk Hl Hd Hinj.
  destruct (copy_back_loop [a] l1 d (fun _ => 0) c k h blk Hl)
    as (blk' & Hloop & Hlen & Hin & Hout); [intros; cbn; lia | exact Hd | exact Hinj |].
  exists blk'. split; [exact Hloop|]. split; [exact Hlen|]. split; [|exact Hout].
  intros i Hi. rewrite (Hin i Hi). reflexivity.
Qed.

End BlockLoops.

Section MemorySet.

Import Store.

Context {T : Type} {VR : ValueRep T}.

Lemma length_decode_all (n : nat) :
  forall bs : list byte, length (decode_all n bs) = n.
Proof. induction n as [|n IH]; intros bs; [reflexivity|]. cbn. now rewrite IH. Qed.

(** Bytes that are all [c] decode to elements that are all the element of
    [sizeof] bytes [c]. *)
Lemma decode_all_replicate (c : byte) (n m : nat) :
  forall rest : list byte,
    decode_all (n + m) (replicate (n * sizeof) c ++ rest)
    = replicate n (decode (replicate sizeof c)) ++ decode_all m rest.
Proof.
  induction n as [|n IH]; intros rest; [reflexivity|].
  cbn [Nat.add Nat.mul decode_all replicate app].
  rewrite replicate_add, <- app_assoc.
  rewrite take_app_length' by (symmetry; apply length_replicate).
  rewrite drop_app_length' by (symmetry; apply length_replicate).
  now rewrite IH.
Qed.

(** [memoryset] over the first [n] elements behind [ptr]. *)
Lemma memoryset_buffer (h : gmap loc (list T)) (ptr : option loc) (n : Z)
    (c : byte) (buf : list T) :
  (0 < sizeof)%nat ->
  buffer h ptr n = Some buf ->
  exists h',
    memoryset h ptr c (Z.to_nat n * sizeof) = Some h' /\
    buffer h' ptr n = Some (replicate (length buf) (decode (replicate sizeof c))) /\
    (forall l, ptr <> Some l -> h' !! l = h !! l) /\
    (forall h0, owns h0 ptr h -> owns h0 ptr h').
Proof.
  intros Hsz Hbuf.
  pose proof (buffer_length _ _ _ _ Hbuf) as Hlen.
  destruct (Z.leb_spec n 0) as [Hn|Hn].
  - replace (Z.to_nat n) with O by lia. exists h. cbn [Nat.mul memoryset].
    unfold buffer in *. destruct (Z.leb_spec n 0); [|lia].
    injection Hbuf as <-. repeat split; auto.
  - destruct (buffer_block _ _ _ _ Hbuf Hn) as (l & blk & -> & Hl & Hblk).
    unfold memoryset.
    destruct (Z.to_nat n * sizeof)%nat as [|N] eqn:EN; [nia|]. rewrite <- EN.
    rewrite Hl. unfold store_bytes. rewrite length_replicate.
    destruct (Nat.leb_spec (Z.to_nat n * sizeof) (length blk * sizeof)) as [_|Hb];
      [|nia].
    eexists. split; [reflexivity|].
    assert (Hsplit : decode_all (length blk)
                       (replicate (Z.to_nat n * sizeof) c
                          ++ drop (Z.to_nat n * sizeof) (encode_all blk))
                     = replicate (Z.to_nat n) (decode (replicate sizeof c))
                         ++ decode_all (length blk - Z.to_nat n)
                              (drop (Z.to_nat n * sizeof) (encode_all blk))).
    { replace (length blk) with (Z.to_nat n + (length blk - Z.to_nat n))%nat at 1
        by lia.
      apply decode_all_replicate. }
    split; [|split].
    + unfold buffer. destruct (Z.leb_spec n 0); [lia|].
      rewrite lookup_insert_eq, length_decode_all.
      destruct (Z.leb_spec n (Z.of_nat (length blk))); [|lia].
      rewrite Hsplit, take_app_length' by (symmetry; apply length_replicate).
      do 2 f_equal. lia.
    + intros l' Hne. apply lookup_insert_ne. congruence.
    + intros h0 (H0 & b0 & ->). split; [exact H0|].
      eexists. apply insert_insert_eq.
Qed.

End MemorySet.

Section ShortReads.

Import Store.

(** An [int] cannot be read from fewer than four bytes, nor from a stream
    that is not good. *)
Lemma read_int_short (good : bool) (bs : list byte) :
  (length bs < 4)%nat -> read_int (mkIstream good bs) = None.
Proof.
  intros H. unfold read_int, read. cbn [i_good i_bytes].
  destruct good; [|reflexivity].
  destruct (Nat.leb_spec 4 (length bs)); [lia|].
  destruct (Nat.eqb_spec (length bs) 4); [lia|reflexivity].
Qed.

Lemma read_int_not_good (bs : list byte) : read_int (mkIstream false bs) = None.
Proof. reflexivity. Qed.

Lemma read_int_rest (bs : list byte) (z : Z) (s : istream) :
  read_int (mkIstream true bs) = Some (z, s) ->
  s = mkIstream true (drop 4 bs) /\ (4 <= length bs)%nat.
Proof.
  unfold read_int, read. cbn [i_good i_bytes].
  destruct (Nat.leb_spec 4 (length bs)) as [H|H].
  - destruct (length (take 4 bs) =? 4)%nat; [|discriminate].
    intros E. injection E as _ <-. split; [reflexivity|exact H].
  - destruct (Nat.eqb_spec (length bs) 4); [lia|discriminate].
Qed.

Context {T : Type} {VR : ValueRep T}.

(** A payload that ends early: what arrives is stored, and the stream
    fails. *)
Lemma read_into_short (h : gmap loc (list T)) (ptr : option loc) (n : Z)
    (payload : list byte) (old : list T) :
  buffer h ptr n = Some old ->
  (length payload < Z.to_nat n * sizeof)%nat ->
  exists h',
    read_into h ptr n (mkIstream true payload) = Some (h', mkIstream false []) /\
    (forall l, ptr <> Some l -> h' !! l = h !! l) /\
    (forall m, is_Some (buffer h ptr m) -> is_Some (buffer h' ptr m)) /\
    (forall h0, owns h0 ptr h -> owns h0 ptr h').
Proof.
  intros Hbuf Hshort. unfold read_into.
  destruct (Z.ltb_spec n 0) as [Hn|Hn]; [lia|].
  unfold read. cbn [i_good i_bytes].
  destruct (Nat.leb_spec (Z.to_nat n * sizeof) (length payload)); [lia|].
  destruct payload as [|b payload].
  - exists h. repeat split; auto.
  - assert (Hpos : 0 < n) by lia.
    destruct (buffer_block _ _ _ _ Hbuf Hpos) as (l & blk & -> & Hl & Hblk).
    rewrite Hl. unfold store_bytes.
    destruct (Nat.leb_spec (length (b :: payload)) (length blk * sizeof)) as [_|Hb];
      [|nia].
    eexists. split; [reflexivity|]. split; [|split].
    + intros l' Hne. apply lookup_insert_ne. congruence.
    + intros m. unfold buffer. destruct (m <=? 0); [auto|].
      rewrite Hl, lookup_insert_eq, length_decode_all.
      destruct (m <=? Z.of_nat (length blk)); [eauto | intros [? ?]; discriminate].
    + intros h0 (H0 & b0 & ->). split; [exact H0|].
      eexists. apply insert_insert_eq.
Qed.

End ShortReads.

Section Files.

Import Store.

Lemma write_file_same (FileName : string) (bs : list byte) (fs : files) :
  write_file FileName bs fs FileName = Some bs.
Proof. unfold write_file. now rewrite String.eqb_refl. Qed.

Lemma write_file_other (FileName name : string) (bs : list byte) (fs : files) :
  name <> FileName -> write_file FileName bs fs name = fs name.
Proof.
  intros H. unfold write_file.
  destruct (String.eqb_spec name FileName); [contradiction|reflexivity].
Qed.

End Files.

(** *** The block a matrix owns *)

Section Owns.

Import Store.

Context {T : Type}.

Lemma owns_allocate (init : nat -> T) (n : Z) (h h' : gmap loc (list T))
    (ptr : option loc) :
  allocate (AllocOk init) n h = Pointer h' ptr -> owns h ptr h'.
Proof.
  intros E. injection E as <- <-. split; [apply new_loc_fresh|]. eauto.
Qed.

Lemma owns_deallocate (h0 h : gmap loc (list T)) (ptr : option loc) :
  owns h0 ptr h -> deallocate ptr h = h0.
Proof.
  destruct ptr as [l|]; cbn [owns deallocate]; [|auto].
  intros (H0 & blk & ->). now apply delete_insert_id.
Qed.

Lemma owns_reallocate (init : nat -> T) (n : Z) (h0 h h' : gmap loc (list T))
    (ptr ptr' : option loc) :
  owns h0 ptr h ->
  reallocate (AllocOk init) ptr n h = Pointer h' ptr' -> owns h0 ptr' h'.
Proof.
  intros Ho E. injection E as <- <-.
  rewrite (owns_deallocate h0 h ptr Ho). split; [|eauto].
  pose proof (new_loc_fresh h) as Hf.
  destruct ptr as [l|]; cbn [owns] in Ho.
  - destruct Ho as (_ & blk & ->).
    destruct (decide (new_loc (<[l := blk]> h0) = l)) as [E|Hne].
    + rewrite E, lookup_insert_eq in Hf. discriminate.
    + now rewrite lookup_insert_ne in Hf by congruence.
  - now subst h.
Qed.

Lemma owns_store (h0 h h' : gmap loc (list T)) (ptr : option loc) (i : Z)
    (a : T) :
  store h ptr i a = Some h' -> owns h0 ptr h -> owns h0 ptr h'.
Proof.
  unfold store. destruct ptr as [l|]; [|discriminate].
  destruct (h !! l) as [buf|]; [|discriminate].
  destruct (write_at buf i a) as [buf'|]; [|discriminate].
  intros E (H0 & blk & ->). injection E as <-. split; [exact H0|].
  eexists. apply insert_insert_eq.
Qed.

Lemma owns_copy_back (xold : list T) (h0 h h' : gmap loc (list T))
    (ptr : option loc) (dst src : Z) :
  copy_back xold ptr dst src h = Some h' -> owns h0 ptr h -> owns h0 ptr h'.
Proof.
  unfold copy_back. destruct (read_at xold src); [|discriminate].
  apply owns_store.
Qed.

Lemma owns_load_store (g : T -> T) (h0 h h' : gmap loc (list T))
    (ptr : option loc) (i : Z) :
  match load h ptr i with
  | Some a => store h ptr i (g a)
  | None => None
  end = Some h' ->
  owns h0 ptr h -> owns h0 ptr h'.
Proof. destruct (load h ptr i); [apply owns_store|discriminate]. Qed.

Context {VR : ValueRep T}.

Lemma owns_read_into (h0 h h' : gmap loc (list T)) (ptr : option loc) (n : Z)
    (s s' : istream) :
  read_into h ptr n s = Some (h', s') -> owns h0 ptr h -> owns h0 ptr h'.
Proof.
  unfold read_into. destruct (n <? 0); [discriminate|].
  destruct (read (Z.to_nat n * sizeof) s) as [bs s1].
  destruct bs as [|b bs]; [intros E; now injection E as <- _|].
  destruct ptr as [l|]; [|discriminate].
  destruct (h !! l) as [buf|]; [|discriminate].
  destruct (store_bytes (b :: bs) buf) as [buf'|]; [|discriminate].
  intros E (H0 & blk & ->). injection E as <- _. split; [exact H0|].
  eexists. apply insert_insert_eq.
Qed.

Lemma owns_memoryset (h0 h h' : gmap loc (list T)) (ptr : option loc)
    (c : byte) (n : nat) :
  memoryset h ptr c n = Some h' -> owns h0 ptr h -> owns h0 ptr h'.
Proof.
  unfold memoryset. destruct n as [|n]; [intros E; now injection E as <-|].
  destruct ptr as [l|]; [|discriminate].
  destruct (h !! l) as [buf|]; [|discriminate].
  destruct (store_bytes (replicate (S n) c) buf) as [buf'|]; [|discriminate].
  intros E (H0 & blk & ->). injection E as <-. split; [exact H0|].
  eexists. apply insert_insert_eq.
Qed.

End Owns.


(** ** Packed Hermitian matrices: filling and scaling *)

Section HermPackedFill.

Import Store HermPacked.

Context {T : Type}.

Abbreviation heap := (gmap loc (list T)).

(** The loops of [Fill], [Fill()] and [operator*=] over the stored
    elements. *)
Lemma HermPacked_loop (g : Z -> T -> T)
    (step : Z -> heap -> option heap) (h : heap) (A : t) (buf : list T) :
  block_step (data_ A) g step ->
  contents (h, A) = Some buf ->
  exists h',
    for_loop (Z.to_nat (GetDataSize A)) 0 step h = Some h' /\
    contents (h', A) = Some (imap (fun i a => g (Z.of_nat i) a) buf) /\
    (forall l, data_ A <> Some l -> h' !! l = h !! l) /\
    (forall h0, owns h0 (data_ A) h -> owns h0 (data_ A) h').
Proof. intros Hstep Hc. exact (block_loop_buffer _ _ g step h buf Hstep Hc). Qed.

Lemma HermPacked_Fill_contents {T0 : Type} (conv : T0 -> T) (x : T0)
    (h : heap) (A : t) (buf : list T) :
  contents (h, A) = Some buf ->
  exists h',
    Fill conv x (h, A) = Some (h', A) /\
    contents (h', A) = Some (replicate (length buf) (conv x)) /\
    (forall l, data_ A <> Some l -> h' !! l = h !! l) /\
    (forall h0, owns h0 (data_ A) h -> owns h0 (data_ A) h').
Proof.
  intros Hc.
  destruct (HermPacked_loop (fun _ _ => conv x)
              (fun i h => store h (data_ A) i (conv x)) h A buf)
    as (h' & Hl & Hc' & Hf & Ho);
    [apply (block_step_store (data_ A) (fun _ => conv x)) | exact Hc |].
  exists h'. unfold Fill. rewrite Hl, Hc', imap_const_replicate. auto.
Qed.

Lemma HermPacked_Fill0_contents (conv : Z -> T) (h : heap) (A : t)
    (buf : list T) :
  contents (h, A) = Some buf ->
  exists h',
    Fill0 conv (h, A) = Some (h', A) /\
    contents (h', A)
    = Some (map (fun i => conv (Z.of_nat i)) (seq 0 (length buf))) /\
    (forall l, data_ A <> Some l -> h' !! l = h !! l) /\
    (forall h0, owns h0 (data_ A) h -> owns h0 (data_ A) h').
Proof.
  intros Hc.
  destruct (HermPacked_loop (fun i _ => conv i)
              (fun i h => store h (data_ A) i (conv i)) h A buf)
    as (h' & Hl & Hc' & Hf & Ho);
    [apply (block_step_store (data_ A) conv) | exact Hc |].
  exists h'. unfold Fill0. rewrite Hl, Hc'.
  rewrite (imap_index (fun i => conv (Z.of_nat i))). auto.
Qed.

Lemma ColHermPacked_mul_assign_contents {T0 : Type} (mul : T -> T0 -> T)
    (x : T0) (h : heap) (A : t) (buf : list T) :
  contents (h, A) = Some buf ->
  exists h',
    ColHermPacked_mul_assign mul x (h, A) = Some (h', A) /\
    contents (h', A) = Some (map (fun a => mul a x) buf) /\
    (forall l, data_ A <> Some l -> h' !! l = h !! l) /\
    (forall h0, owns h0 (data_ A) h -> owns h0 (data_ A) h').
Proof.
  intros Hc.
  destruct (HermPacked_loop (fun _ a => mul a x)
              (fun i h => match load h (data_ A) i with
                          | Some a => store h (data_ A) i (mul a x)
                          | None => None
                          end) h A buf)
    as (h' & Hl & Hc' & Hf & Ho);
    [apply (block_step_load_store (data_ A) (fun _ a => mul a x)) | exact Hc |].
  exists h'. unfold ColHermPacked_mul_assign. rewrite Hl, Hc', imap_map. auto.
Qed.

Lemma RowHermPacked_mul_assign_contents {T0 : Type} (mul : T -> T0 -> T)
    (x : T0) (h : heap) (A : t) (buf : list T) :
  contents (h, A) = Some buf ->
  exists h',
    RowHermPacked_mul_assign mul x (h, A) = Some (h', A) /\
    contents (h', A) = Some (map (fun a => mul a x) buf) /\
    (forall l, data_ A <> Some l -> h' !! l = h !! l) /\
    (forall h0, owns h0 (data_ A) h -> owns h0 (data_ A) h').
Proof. exact (ColHermPacked_mul_assign_contents mul x h A buf). Qed.

(** *** The packed offsets *)

Lemma triangle_even (l : Z) : 2 * (l * (l + 1) / 2) = l * (l + 1).
Proof.
  replace (l * (l + 1)) with ((l + 1) * ((l + 1) - 1)) by ring.
  apply consecutive_even.
Qed.

Lemma ColHermPacked_offset_bound (n k l : Z) :
  0 <= k <= l -> l < n -> 0 <= ColHermPacked_offset k l < n * (n + 1) / 2.
Proof.
  intros Hk Hl. unfold ColHermPacked_offset.
  pose proof (triangle_even l). pose proof (triangle_even n). nia.
Qed.

Lemma ColHermPacked_offset_inj (k l k' l' : Z) :
  0 <= k <= l -> 0 <= k' <= l' ->
  ColHermPacked_offset k l = ColHermPacked_offset k' l' -> k = k' /\ l = l'.
Proof.
  intros Hk Hk'. unfold ColHermPacked_offset.
  pose proof (triangle_even l). pose proof (triangle_even l'). intros E.
  assert (l = l') by nia. subst l'. lia.
Qed.

Lemma RowHermPacked_offset_inj (n k l k' l' : Z) :
  0 <= k <= l -> l < n -> 0 <= k' <= l' -> l' < n ->
  RowHermPacked_offset n k l = RowHermPacked_offset n k' l' -> k = k' /\ l = l'.
Proof.
  intros Hk Hl Hk' Hl'.
  rewrite (offset_column n k l), (offset_column n k' l'). intros E.
  destruct (Z.lt_trichotomy k k') as [Hlt|[->|Hlt]].
  - pose proof (offset_rows_apart n k k'). lia.
  - lia.
  - pose proof (offset_rows_apart n k' k). lia.
Qed.

Lemma Val_offset_bound (S : Storage) (A : t) (k l : Z) :
  0 <= k <= l -> l < m_ A ->
  0 <= Val_offset S A k l < m_ A * (m_ A + 1) / 2.
Proof.
  intros Hk Hl. destruct S; cbn [Val_offset].
  - now apply ColHermPacked_offset_bound.
  - now apply offset_bound.
Qed.

Lemma Val_offset_inj (S : Storage) (A : t) (k l k' l' : Z) :
  0 <= k <= l -> l < m_ A -> 0 <= k' <= l' -> l' < m_ A ->
  Val_offset S A k l = Val_offset S A k' l' -> k = k' /\ l = l'.
Proof.
  intros Hk Hl Hk' Hl'. destruct S; cbn [Val_offset].
  - now apply ColHermPacked_offset_inj.
  - now apply RowHermPacked_offset_inj.
Qed.

(** A stored element is the element of the contents at its offset. *)
Lemma HermPacked_Val_contents (S : Storage) (hA : heap * t) (buf : list T)
    (k l : Z) :
  valid_dimension (m_ (snd hA)) -> contents hA = Some buf ->
  0 <= k <= l -> l < m_ (snd hA) ->
  Val S hA k l = buf !! Z.to_nat (Val_offset S (snd hA) k l).
Proof.
  destruct hA as [h A]. cbn [snd]. intros Hv Hc Hk Hl.
  pose proof (Val_offset_bound S A k l Hk Hl) as Hb.
  unfold contents in Hc. cbn [fst snd] in Hc. unfold GetDataSize in Hc.
  rewrite packed_size_valid in Hc by assumption.
  unfold Val. now apply (buffer_load h (data_ A) (m_ A * (m_ A + 1) / 2) buf).
Qed.

(** [SetIdentity] leaves ones on the diagonal and the converted zero on
    the rest of the stored triangle. *)
Lemma HermPacked_SetIdentity_elements (S : Storage) (conv : T -> T)
    (zero one : T) (h : heap) (A : t) :
  wf (h, A) ->
  exists h',
    SetIdentity S conv zero one (h, A) = Some (h', A) /\
    (forall k l, 0 <= k <= l -> l < m_ A ->
       Val S (h', A) k l = Some (if k =? l then one else conv zero)) /\
    (forall l, data_ A <> Some l -> h' !! l = h !! l) /\
    (forall h0, owns h0 (data_ A) h -> owns h0 (data_ A) h').
Proof.
  intros (Hv & Hn & [buf Hc]). cbn [fst snd] in *.
  destruct (HermPacked_Fill_contents conv zero h A buf Hc)
    as (h1 & HF & Hc1 & Hf1 & Ho1).
  unfold SetIdentity. rewrite HF. cbn [snd]. rewrite Hn, Z.min_id.
  pose proof (buffer_length _ _ _ _ Hc) as Hlen. cbn [fst snd] in Hlen.
  unfold contents in Hc1. cbn [fst snd] in Hc1.
  unfold GetDataSize in Hlen, Hc1. rewrite packed_size_valid in Hlen, Hc1 by assumption.
  destruct (Z.eq_dec (m_ A) 0) as [E0|Hm].
  - rewrite E0. exists h1. cbn [Z.to_nat for_loop].
    split; [reflexivity|]. split; [intros; lia|]. split; assumption.
  - assert (Hpos : 0 < m_ A) by (destruct Hv; lia).
    assert (HN : 0 < m_ A * (m_ A + 1) / 2)
      by (pose proof (triangle_even (m_ A)); nia).
    destruct (buffer_block _ _ _ _ Hc1 HN) as (l1 & blk1 & Hd & Hl1 & Hb1).
    rewrite (for_loop_lift (fun h => (h, A))
               (fun i hA => set_Val S hA i i one)
               (fun i h => store h (data_ A) (Val_offset S A i i) one)).
    2:{ intros i s _. unfold set_Val.
        destruct (store s (data_ A) (Val_offset S A i i) one); reflexivity. }
    rewrite Hd in Hf1, Ho1, Hc1 |- *.
    destruct (scatter_loop one l1 (fun i => Val_offset S A i i)
                (Z.to_nat (m_ A)) 0 h1 blk1 Hl1)
      as (blk' & Hloop & Hlen' & Hin & Hout).
    { intros i Hi. pose proof (Val_offset_bound S A i i). lia. }
    { intros i i' Hi Hi' E. apply (Val_offset_inj S A i i i' i') in E; lia. }
    rewrite Hloop. cbn [option_map]. exists (<[l1 := blk']> h1).
    split; [reflexivity|]. split; [|split].
    + intros k l Hk Hl.
      pose proof (Val_offset_bound S A k l Hk Hl) as Hb.
      unfold Val. rewrite Hd.
      rewrite (load_lookup _ l1 blk') by (apply lookup_insert_eq || lia).
      destruct (Z.eqb_spec k l) as [->|Hne].
      * apply Hin. lia.
      * rewrite Hout.
        -- rewrite <- (load_lookup h1 l1 blk1) by (assumption || lia).
           rewrite (buffer_load h1 (Some l1) _ _ (Val_offset S A k l) Hc1) by lia.
           apply lookup_replicate_2. lia.
        -- intros i Hi E. rewrite Z2Nat.id in E by lia.
           apply (Val_offset_inj S A i i k l) in E; lia.
    + intros l Hne. rewrite lookup_insert_ne by congruence. now apply Hf1.
    + intros h0 Ho. specialize (Ho1 h0 Ho).
      destruct Ho1 as (H0 & b0 & ->). split; [exact H0|].
      exists blk'. apply insert_insert_eq.
Qed.

End HermPackedFill.

Section HermPackedZero.

Import Store HermPacked.

Context {T : Type} {VR : ValueRep T}.

Lemma HermPacked_Zero_contents (h : gmap loc (list T)) (A : t) (buf : list T) :
  (0 < sizeof)%nat ->
  valid_dimension (m_ A) ->
  contents (h, A) = Some buf ->
  exists h',
    Zero (h, A) = Some (h', A) /\
    contents (h', A)
    = Some (replicate (length buf) (decode (replicate sizeof Byte.x00))) /\
    (forall l, data_ A <> Some l -> h' !! l = h !! l) /\
    (forall h0, owns h0 (data_ A) h -> owns h0 (data_ A) h').
Proof.
  intros Hsz Hv Hc.
  destruct (memoryset_buffer h (data_ A) (GetDataSize A) Byte.x00 buf Hsz Hc)
    as (h' & Hm & Hc' & Hf & Ho).
  exists h'. unfold Zero.
  pose proof (packed_size_nonneg _ Hv). unfold GetDataSize in *.
  destruct (Z.ltb_spec (packed_size (m_ A)) 0); [lia|].
  rewrite Hm. auto.
Qed.

End HermPackedZero.

(** ** Packed Hermitian matrices: streams that fail, files *)

Section HermPackedIO.

Import Store HermPacked.

Context {T : Type} {VR : ValueRep T}.

Abbreviation heap := (gmap loc (list T)).

Lemma valid_dimension_int (i : Z) :
  valid_dimension i -> - 2 ^ 31 <= i < 2 ^ 31.
Proof. intros [H0 H1]. nia. Qed.

(** The dimensions are read into variables without a value: a stream
    that does not hold both of them leaves one indeterminate. *)
Lemma HermPacked_Read_short_header (cm ci : bool) (o : alloc_outcome)
    (good : bool) (bs : list byte) (hA : heap * t) :
  ci && negb good = false -> (length bs < 8)%nat ->
  Read cm ci o (mkIstream good bs) hA = Undefined.
Proof.
  intros Hci Hlen. unfold Read. cbn [i_good]. rewrite Hci.
  destruct good; [|reflexivity].
  destruct (read_int (mkIstream true bs)) as [[new_m s1]|] eqn:E1; [|reflexivity].
  apply read_int_rest in E1 as [-> H4].
  rewrite read_int_short; [reflexivity|]. rewrite length_drop. lia.
Qed.

(** The number of columns of the header is read and not used. *)
Lemma HermPacked_Read_ignores_columns (cm ci : bool) (o : alloc_outcome)
    (i j : Z) (rest : list byte) (hA : heap * t) :
  - 2 ^ 31 <= i < 2 ^ 31 -> - 2 ^ 31 <= j < 2 ^ 31 ->
  Read cm ci o (mkIstream true (encode_int i ++ encode_int j ++ rest)) hA
  = Read cm ci o (mkIstream true (encode_int i ++ encode_int i ++ rest)) hA.
Proof.
  intros Hi Hj. unfold Read. cbn [i_good negb]. rewrite !andb_false_r.
  rewrite !read_int_encode by assumption. reflexivity.
Qed.

(** A payload that ends early: the matrix has the dimensions of the
    header, and the failure of the stream is an [IOError] only with
    [SELDON_CHECK_IO]. *)
Lemma HermPacked_Read_truncated (cm ci : bool) (init : nat -> T) (i j : Z)
    (payload : list byte) (hQ : heap * t) :
  wf hQ -> valid_dimension i -> - 2 ^ 31 <= j < 2 ^ 31 ->
  (length payload < Z.to_nat (i * (i + 1) / 2) * sizeof)%nat ->
  exists hQ',
    Read cm ci (AllocOk init)
      (mkIstream true (encode_int i ++ encode_int j ++ payload)) hQ
    = (if ci
       then Thrown (IOError "Matrix_HermPacked::Read(ifstream& FileStream)"
                      input_failed)
       else Done) (mkIstream false [], hQ') /\
    m_ (snd hQ') = i /\ n_ (snd hQ') = i.
Proof.
  intros Hwf Hv Hj Hshort.
  pose proof (valid_dimension_int i Hv) as Hi.
  destruct (HermPacked_Reallocate_buffer cm init i j hQ Hwf Hv)
    as (h1 & A1 & HR & Hm & Hn & [old Hold]).
  unfold Read. cbn [i_good]. rewrite andb_false_r.
  rewrite !read_int_encode by assumption. rewrite HR.
  unfold GetDataSize. rewrite Hm.
  rewrite <- (packed_size_valid i Hv) in Hshort.
  destruct (read_into_short h1 (data_ A1) (packed_size i) payload old Hold Hshort)
    as (h' & Hr & _).
  rewrite Hr. cbn [i_good negb]. rewrite andb_true_r.
  exists (h', A1). destruct ci; (split; [reflexivity|]); split; assumption.
Qed.

(** *** Files *)

Lemma HermPacked_Write_file_unopened (ci : bool) (FileName : string)
    (fs : files) (hA : heap * t) :
  Write_file ci false FileName fs hA
  = if ci
    then Thrown (IOError "Matrix_HermPacked::Write(string FileName)"
                   (unable_to_open FileName)) fs
    else Done fs.
Proof. destruct ci, hA as [h A]; reflexivity. Qed.

Lemma HermPacked_Read_file_unopened (cm ci : bool) (o : alloc_outcome)
    (can_open : bool) (FileName : string) (fs : files) (hA : heap * t) :
  can_open = false \/ fs FileName = None ->
  Read_file cm ci o can_open FileName fs hA
  = if ci
    then Thrown (IOError "Matrix_HermPacked::Read(string FileName)"
                   (unable_to_open FileName)) hA
    else Undefined.
Proof.
  intros H. unfold Read_file, open_in.
  assert (E : (if can_open then fs FileName else None) = None)
    by (destruct H as [-> | H]; [reflexivity | destruct can_open; auto]).
  rewrite E. cbn [i_good negb]. rewrite andb_true_r.
  destruct ci; [reflexivity|]. reflexivity.
Qed.

Hypothesis encode_length : forall a : T, length (encode a) = sizeof.
Hypothesis decode_encode : forall a : T, decode (encode a) = a.
Hypothesis sizeof_pos : (0 < sizeof)%nat.

(** A matrix written to a file is read back from it. *)
Lemma HermPacked_file_roundtrip (cm ci : bool) (init : nat -> T)
    (FileName : string) (fs : files) (hP hQ : heap * t) (buf : list T) :
  wf hP -> contents hP = Some buf -> wf hQ ->
  let bytes := encode_int (m_ (snd hP)) ++ encode_int (n_ (snd hP))
                 ++ encode_all buf in
  exists hQ',
    Write_file ci true FileName fs hP = Done (write_file FileName bytes fs) /\
    Read_file cm ci (AllocOk init) true FileName (write_file FileName bytes fs) hQ
    = Done hQ' /\
    m_ (snd hQ') = m_ (snd hP) /\ n_ (snd hQ') = n_ (snd hP) /\
    contents hQ' = Some buf.
Proof.
  intros HwP Hc HwQ bytes. destruct HwP as (Hv & Hn & _).
  pose proof (buffer_length _ _ _ _ Hc) as Hlen. unfold GetDataSize in Hlen.
  rewrite packed_size_valid in Hlen by assumption.
  assert (Hlen' : Z.of_nat (length buf) = m_ (snd hP) * (m_ (snd hP) + 1) / 2).
  { destruct Hv. pose proof (triangle_even (m_ (snd hP))). nia. }
  destruct (HermPacked_Read_bytes encode_length decode_encode sizeof_pos
              cm ci init (m_ (snd hP)) buf [] hQ Hv Hlen' HwQ)
    as (hQ' & HR & Hm' & Hn' & Hc').
  exists hQ'. split; [|split; [|split; [exact Hm'|split; [congruence|exact Hc']]]].
  - unfold Write_file, open_out. rewrite andb_false_r.
    rewrite (HermPacked_Write_bytes ci [] hP buf Hc). reflexivity.
  - unfold Read_file, open_in. rewrite write_file_same. cbn [i_good negb].
    rewrite andb_false_r. subst bytes. rewrite Hn.
    rewrite app_nil_r in HR. rewrite HR. reflexivity.
Qed.

End HermPackedIO.

(** ** Packed Hermitian matrices: the block of the matrix *)

Section HermPackedOwns.

Import Store HermPacked.

Context {T : Type}.

Abbreviation heap := (gmap loc (list T)).

(** The heap of a matrix that owns its block over [h0]. *)
Abbreviation owned h0 hA := (owns h0 (data_ (snd hA)) (fst hA)).

Lemma HermPacked_owns_constructor (cm : bool) (init : nat -> T) (i j : Z)
    (h0 : heap) (hA : heap * t) :
  Matrix_HermPacked cm (AllocOk init) i j h0 = Done hA -> owned h0 hA.
Proof.
  rewrite HermPacked_constructor. intros E. injection E as <-. cbn [fst snd data_].
  split; [apply new_loc_fresh|]. eauto.
Qed.

Lemma HermPacked_owns_Reallocate (cm : bool) (init : nat -> T) (i j : Z)
    (h0 : heap) (hA hA' : heap * t) :
  owned h0 hA -> Reallocate cm (AllocOk init) i j hA = Done hA' -> owned h0 hA'.
Proof.
  destruct hA as [h A]. cbn [fst snd]. intros Ho.
  destruct (Z.eq_dec i (m_ A)) as [E|Hne].
  - rewrite HermPacked_Reallocate_same by assumption.
    intros H. now injection H as <-.
  - rewrite HermPacked_Reallocate_success by assumption.
    intros H. injection H as <-. cbn [fst snd data_].
    now apply (owns_reallocate init (packed_size i) h0 h _ (data_ A)).
Qed.

Lemma HermPacked_owns_Clear (h0 : heap) (hA : heap * t) :
  owned h0 hA -> Clear hA = (h0, mk 0 0 None).
Proof.
  destruct hA as [h A]. cbn [fst snd]. intros Ho. unfold Clear.
  now rewrite (owns_deallocate h0 h (data_ A) Ho).
Qed.

Lemma HermPacked_owns_ColResize (cm : bool) (init : nat -> T) (i j : Z)
    (h0 : heap) (hA hA' : heap * t) :
  owned h0 hA ->
  ColHermPacked_Resize cm (AllocOk init) i j hA = Done hA' -> owned h0 hA'.
Proof.
  destruct hA as [h A]. intros Ho. unfold ColHermPacked_Resize.
  destruct (buffer h (data_ A) (GetDataSize A)) as [xold|]; [|discriminate].
  destruct (Reallocate cm (AllocOk init) i j (h, A)) as [[h1 A1]| |] eqn:HR;
    [|discriminate|discriminate].
  pose proof (HermPacked_owns_Reallocate _ _ _ _ _ _ _ Ho HR) as Ho1.
  cbn [fst snd] in Ho1.
  destruct (for_loop _ 0 _ h1) as [h2|] eqn:Hl; [|discriminate].
  intros E. injection E as <-. cbn [fst snd].
  revert Hl Ho1. apply for_loop_preserves.
  intros k s s'. apply owns_copy_back.
Qed.

Lemma HermPacked_owns_RowResize (cm : bool) (init : nat -> T) (i j : Z)
    (h0 : heap) (hA hA' : heap * t) :
  owned h0 hA ->
  RowHermPacked_Resize cm (AllocOk init) i j hA = Done hA' -> owned h0 hA'.
Proof.
  destruct hA as [h A]. intros Ho. unfold RowHermPacked_Resize.
  destruct (buffer h (data_ A) (GetDataSize A)) as [xold|]; [|discriminate].
  destruct (Reallocate cm (AllocOk init) i j (h, A)) as [[h1 A1]| |] eqn:HR;
    [|discriminate|discriminate].
  pose proof (HermPacked_owns_Reallocate _ _ _ _ _ _ _ Ho HR) as Ho1.
  cbn [fst snd] in Ho1.
  destruct (for_loop _ 0 _ (0, 0, h1)) as [[[n nold] h2]|] eqn:Hl; [|discriminate].
  intros E. injection E as <-. cbn [fst snd].
  apply (for_loop_preserves
           (fun s : Z * Z * heap => owns h0 (data_ A1) (snd s)) _)
    with (s' := (n, nold, h2)) in Hl; [exact Hl| |exact Ho1].
  intros k [[n1 o1] s1] s'. cbn [snd].
  destruct (for_loop _ k _ s1) as [s2|] eqn:Hin; [|discriminate].
  intros E Hs. injection E as <-. cbn [snd].
  revert Hin Hs. apply for_loop_preserves.
  intros l s s3. apply owns_copy_back.
Qed.

Lemma HermPacked_owns_Fill {T0 : Type} (conv : T0 -> T) (x : T0) (h0 : heap)
    (hA hA' : heap * t) :
  owned h0 hA -> Fill conv x hA = Some hA' -> owned h0 hA'.
Proof.
  destruct hA as [h A]. intros Ho. unfold Fill.
  destruct (for_loop _ 0 _ h) as [h1|] eqn:Hl; [|discriminate].
  intros E. injection E as <-. cbn [fst snd] in *.
  revert Hl Ho. apply for_loop_preserves. intros k s s'. apply owns_store.
Qed.

Lemma HermPacked_owns_Fill0 (conv : Z -> T) (h0 : heap) (hA hA' : heap * t) :
  owned h0 hA -> Fill0 conv hA = Some hA' -> owned h0 hA'.
Proof.
  destruct hA as [h A]. intros Ho. unfold Fill0.
  destruct (for_loop _ 0 _ h) as [h1|] eqn:Hl; [|discriminate].
  intros E. injection E as <-. cbn [fst snd] in *.
  revert Hl Ho. apply for_loop_preserves. intros k s s'. apply owns_store.
Qed.

Lemma HermPacked_owns_mul_assign {T0 : Type} (mul : T -> T0 -> T) (x : T0)
    (h0 : heap) (hA hA' : heap * t) :
  owned h0 hA ->
  (ColHermPacked_mul_assign mul x hA = Some hA' -> owned h0 hA') /\
  (RowHermPacked_mul_assign mul x hA = Some hA' -> owned h0 hA').
Proof.
  destruct hA as [h A]. intros Ho.
  assert (H : ColHermPacked_mul_assign mul x (h, A) = Some hA' -> owned h0 hA').
  { unfold ColHermPacked_mul_assign.
    destruct (for_loop _ 0 _ h) as [h1|] eqn:Hl; [|discriminate].
    intros E. injection E as <-. cbn [fst snd] in *.
    revert Hl Ho. apply for_loop_preserves. intros k s s'.
    apply (owns_load_store (fun a => mul a x)). }
  split; exact H.
Qed.

Lemma HermPacked_owns_SetIdentity (S : Storage) (conv : T -> T) (zero one : T)
    (h0 : heap) (hA hA' : heap * t) :
  owned h0 hA -> SetIdentity S conv zero one hA = Some hA' -> owned h0 hA'.
Proof.
  intros Ho. unfold SetIdentity.
  destruct (Fill conv zero hA) as [hA1|] eqn:HF; [|discriminate].
  pose proof (HermPacked_owns_Fill _ _ _ _ _ Ho HF) as Ho1.
  intros Hl.
  apply (for_loop_preserves (fun hA : heap * t => owned h0 hA) _)
    with (s' := hA') in Hl; [exact Hl| |exact Ho1].
  intros k [s A] s'. unfold set_Val. cbn [fst snd].
  destruct (store s (data_ A) (Val_offset S A k k) one) as [s1|] eqn:Hs;
    [|discriminate].
  intros E Hq. injection E as <-. cbn [fst snd].
  exact (owns_store _ _ _ _ _ _ Hs Hq).
Qed.

Context {VR : ValueRep T}.

Lemma HermPacked_owns_Zero (h0 : heap) (hA hA' : heap * t) :
  owned h0 hA -> Zero hA = Some hA' -> owned h0 hA'.
Proof.
  destruct hA as [h A]. intros Ho. unfold Zero.
  destruct (GetDataSize A <? 0); [discriminate|].
  destruct (memoryset h (data_ A) Byte.x00 _) as [h1|] eqn:Hm; [|discriminate].
  intros E. injection E as <-. cbn [fst snd] in *.
  exact (owns_memoryset _ _ _ _ _ _ Hm Ho).
Qed.

Lemma HermPacked_owns_Read (cm ci : bool) (init : nat -> T) (s s' : istream)
    (h0 : heap) (hA hA' : heap * t) :
  owned h0 hA -> Read cm ci (AllocOk init) s hA = Done (s', hA') -> owned h0 hA'.
Proof.
  intros Ho. unfold Read.
  destruct (ci && negb (i_good s)); [discriminate|].
  destruct (read_int s) as [[new_m s1]|]; [|discriminate].
  destruct (read_int s1) as [[new_n s2]|]; [|discriminate].
  destruct (Reallocate cm (AllocOk init) new_m new_n hA) as [[h1 A1]| |] eqn:HR;
    [|discriminate|discriminate].
  pose proof (HermPacked_owns_Reallocate _ _ _ _ _ _ _ Ho HR) as Ho1.
  destruct (read_into h1 (data_ A1) (GetDataSize A1) s2) as [[h2 s3]|] eqn:Hr;
    [|discriminate].
  destruct (ci && negb (i_good s3)); [discriminate|].
  intros E. injection E as _ <-. cbn [fst snd] in *.
  exact (owns_read_into _ _ _ _ _ _ _ Hr Ho1).
Qed.

End HermPackedOwns.


(** ** Triangular matrices: filling *)

Section TriangularFill.

Import Store Triangular.

Context {T : Type}.

Abbreviation heap := (gmap loc (list T)).

Lemma Triangular_Fill_contents {T0 : Type} (conv : T0 -> T) (x : T0)
    (h : heap) (A : t) (buf : list T) :
  contents (h, A) = Some buf ->
  exists h',
    Fill conv x (h, A) = Some (h', A) /\
    contents (h', A) = Some (replicate (length buf) (conv x)) /\
    (forall l, data_ A <> Some l -> h' !! l = h !! l) /\
    (forall h0, owns h0 (data_ A) h -> owns h0 (data_ A) h').
Proof.
  intros Hc.
  destruct (block_loop_buffer (data_ A) (GetDataSize A) (fun _ _ => conv x)
              (fun i h => store h (data_ A) i (conv x)) h buf)
    as (h' & Hl & Hc' & Hf & Ho);
    [apply (block_step_store (data_ A) (fun _ => conv x)) | exact Hc |].
  exists h'. unfold Fill, contents. cbn [fst snd].
  rewrite Hl, Hc', imap_const_replicate. auto.
Qed.

Lemma Triangular_Fill0_contents (conv : Z -> T) (h : heap) (A : t)
    (buf : list T) :
  contents (h, A) = Some buf ->
  exists h',
    Fill0 conv (h, A) = Some (h', A) /\
    contents (h', A)
    = Some (map (fun i => conv (Z.of_nat i)) (seq 0 (length buf))) /\
    (forall l, data_ A <> Some l -> h' !! l = h !! l) /\
    (forall h0, owns h0 (data_ A) h -> owns h0 (data_ A) h').
Proof.
  intros Hc.
  destruct (block_loop_buffer (data_ A) (GetDataSize A) (fun i _ => conv i)
              (fun i h => store h (data_ A) i (conv i)) h buf)
    as (h' & Hl & Hc' & Hf & Ho);
    [apply (block_step_store (data_ A) conv) | exact Hc |].
  exists h'. unfold Fill0, contents. cbn [fst snd]. rewrite Hl, Hc'.
  rewrite (imap_index (fun i => conv (Z.of_nat i))). auto.
Qed.

(** [SetIdentity] leaves ones on the diagonal and the converted zero
    everywhere else in the square. *)
Lemma Triangular_SetIdentity_elements (S : Storage) (conv : T -> T)
    (zero one : T) (h : heap) (A : t) :
  wf (h, A) ->
  exists h',
    SetIdentity S conv zero one (h, A) = Some (h', A) /\
    (forall i j, 0 <= i < m_ A -> 0 <= j < m_ A ->
       Val S (h', A) i j = Some (if i =? j then one else conv zero)) /\
    (forall l, data_ A <> Some l -> h' !! l = h !! l) /\
    (forall h0, owns h0 (data_ A) h -> owns h0 (data_ A) h').
Proof.
  intros (Hv & Hn & [buf Hc] & Hme). cbn [fst snd] in *.
  destruct (Triangular_Fill_contents conv zero h A buf Hc)
    as (h1 & HF & Hc1 & Hf1 & Ho1).
  unfold SetIdentity. rewrite HF. cbn [snd]. rewrite Hn, Z.min_id.
  pose proof (buffer_length _ _ _ _ Hc) as Hlen. cbn [fst snd] in Hlen.
  unfold contents in Hc1. cbn [fst snd] in Hc1.
  unfold GetDataSize in Hlen, Hc1. rewrite Hn, square_size_valid in Hlen, Hc1
    by assumption.
  destruct (Z.eq_dec (m_ A) 0) as [E0|Hm].
  - rewrite E0. exists h1. cbn [Z.to_nat for_loop].
    split; [reflexivity|]. split; [intros; lia|]. split; assumption.
  - assert (Hpos : 0 < m_ A) by (destruct Hv; lia).
    assert (HN : 0 < m_ A * m_ A) by nia.
    specialize (Hme Hpos).
    destruct (buffer_block _ _ _ _ Hc1 HN) as (l1 & blk1 & Hd & Hl1 & Hb1).
    rewrite Hd in Hf1, Ho1, Hc1, Hme |- *.
    rewrite (for_loop_lift (fun h => (h, A))
               (fun i hA => set_Val S hA i i one)
               (fun i h => store h (Some l1)
                             (GetFirst S i i * m_ A + GetSecond S i i) one)
               (Z.to_nat (m_ A)) 0 h1).
    2:{ intros i s Hi. unfold set_Val.
        rewrite (Val_address_table S A (Some l1) i i Hme)
          by (rewrite GetFirst_diag; lia).
        destruct (store s (Some l1) (GetFirst S i i * m_ A + GetSecond S i i) one);
          reflexivity. }
    destruct (scatter_loop one l1
                (fun i => GetFirst S i i * m_ A + GetSecond S i i)
                (Z.to_nat (m_ A)) 0 h1 blk1 Hl1)
      as (blk' & Hloop & Hlen' & Hin & Hout).
    { intros i Hi. pose proof (addr_range S (m_ A) i i). lia. }
    { intros i i' Hi Hi' E. apply (addr_inj S (m_ A) i i i' i') in E; lia. }
    rewrite Hloop. cbn [option_map]. exists (<[l1 := blk']> h1).
    split; [reflexivity|]. split; [|split].
    + intros i j Hi Hj.
      pose proof (addr_range S (m_ A) i j Hi Hj) as Hb.
      unfold Val.
      rewrite (Val_address_table S A (Some l1) i j Hme)
        by (destruct S; cbn [GetFirst]; lia).
      rewrite (load_lookup _ l1 blk') by (apply lookup_insert_eq || lia).
      destruct (Z.eqb_spec i j) as [->|Hne].
      * apply Hin. lia.
      * rewrite Hout.
        -- rewrite <- (load_lookup h1 l1 blk1) by (assumption || lia).
           rewrite (buffer_load h1 (Some l1) _ _ _ Hc1) by lia.
           apply lookup_replicate_2. lia.
        -- intros k Hk E. rewrite Z2Nat.id in E by lia.
           apply (addr_inj S (m_ A) k k i j) in E; lia.
    + intros l Hne. rewrite lookup_insert_ne by congruence. now apply Hf1.
    + intros h0 Ho. specialize (Ho1 h0 Ho).
      destruct Ho1 as (H0 & b0 & ->). split; [exact H0|].
      exists blk'. apply insert_insert_eq.
Qed.

End TriangularFill.

Section TriangularZero.

Import Store Triangular.

Context {T : Type} {VR : ValueRep T}.

Lemma Triangular_Zero_contents (h : gmap loc (list T)) (A : t) (buf : list T) :
  (0 < sizeof)%nat ->
  valid_dimension (m_ A) -> n_ A = m_ A ->
  contents (h, A) = Some buf ->
  exists h',
    Zero (h, A) = Some (h', A) /\
    contents (h', A)
    = Some (replicate (length buf) (decode (replicate sizeof Byte.x00))) /\
    (forall l, data_ A <> Some l -> h' !! l = h !! l) /\
    (forall h0, owns h0 (data_ A) h -> owns h0 (data_ A) h').
Proof.
  intros Hsz Hv Hn Hc.
  destruct (memoryset_buffer h (data_ A) (GetDataSize A) Byte.x00 buf Hsz Hc)
    as (h' & Hm & Hc' & Hf & Ho).
  exists h'. unfold Zero.
  assert (0 <= GetDataSize A).
  { unfold GetDataSize. rewrite Hn, square_size_valid by assumption. nia. }
  destruct (Z.ltb_spec (GetDataSize A) 0); [lia|].
  rewrite Hm. auto.
Qed.

End TriangularZero.

(** ** Triangular matrices: streams that fail, files *)

Section TriangularIO.

Import Store Triangular.

Context {T : Type} {VR : ValueRep T}.

Abbreviation heap := (gmap loc (list T)).

Lemma square_dimension_int (i : Z) :
  valid_dimension i -> - 2 ^ 31 <= i < 2 ^ 31.
Proof. intros [H0 H1]. nia. Qed.

Lemma Triangular_Read_short_header (S : Storage) (cm ci ok : bool)
    (o : alloc_outcome) (good : bool) (bs : list byte) (hA : heap * t) :
  ci && negb good = false -> (length bs < 8)%nat ->
  Read S cm ci ok o (mkIstream good bs) hA = Undefined.
Proof.
  intros Hci Hlen. unfold Read. cbn [i_good]. rewrite Hci.
  destruct good; [|reflexivity].
  destruct (read_int (mkIstream true bs)) as [[new_m s1]|] eqn:E1; [|reflexivity].
  apply read_int_rest in E1 as [-> H4].
  rewrite read_int_short; [reflexivity|]. rewrite length_drop. lia.
Qed.

(** A payload that ends early. *)
Lemma Triangular_Read_truncated (S : Storage) (cm ci : bool) (init : nat -> T)
    (i : Z) (payload : list byte) (hQ : heap * t) :
  wf hQ -> valid_dimension i ->
  (length payload < Z.to_nat (i * i) * sizeof)%nat ->
  exists hQ',
    Read S cm ci true (AllocOk init)
      (mkIstream true (encode_int i ++ encode_int i ++ payload)) hQ
    = (if ci
       then Thrown (IOError "Matrix_Triangular::Read(ifstream& FileStream)"
                      input_failed)
       else Done) (mkIstream false [], hQ') /\
    m_ (snd hQ') = i /\ n_ (snd hQ') = i.
Proof.
  intros Hwf Hv Hshort.
  pose proof (square_dimension_int i Hv) as Hi.
  destruct (Triangular_Reallocate_wf S cm init i i hQ Hwf Hv)
    as ([h1 A1] & HR & Hm & Hn & (_ & _ & [old Hold] & _)).
  cbn [fst snd] in *.
  unfold Read. cbn [i_good negb]. rewrite andb_false_r.
  rewrite !read_int_encode by assumption. rewrite HR.
  unfold contents, GetDataSize in Hold. cbn [fst snd] in Hold.
  rewrite Hm, Hn in Hold.
  rewrite <- (square_size_valid i Hv) in Hshort.
  destruct (read_into_short h1 (data_ A1) (int_mul i i) payload old Hold Hshort)
    as (h' & Hr & _).
  rewrite Hr. cbn [i_good negb]. rewrite andb_true_r.
  exists (h', A1). cbn [snd]. destruct ci; (split; [reflexivity|]); split; assumption.
Qed.

(** The payload is taken to hold rows times columns elements, the block
    holds rows times rows: a header with more columns than rows makes
    the read run past the block. *)
Lemma Triangular_Read_overrun (S : Storage) (cm ci : bool) (init : nat -> T)
    (m n : Z) (payload : list byte) (h : heap) (A : t) :
  (0 < sizeof)%nat ->
  0 < m < n -> m * n < 2 ^ 31 -> m <> m_ A ->
  (Z.to_nat (m * m) * sizeof < length payload)%nat ->
  Read S cm ci true (AllocOk init)
    (mkIstream true (encode_int m ++ encode_int n ++ payload)) (h, A)
  = Undefined.
Proof.
  intros Hsz Hm Hmn Hne Hlong.
  assert (Hmm : int_mul m m = m * m) by (apply wrap_small; nia).
  assert (Hmn' : int_mul m n = m * n) by (apply wrap_small; nia).
  unfold Read. cbn [i_good negb]. rewrite andb_false_r.
  rewrite !read_int_encode by nia.
  rewrite Triangular_Reallocate_success by lia.
  cbn [data_]. rewrite Hmm, Hmn'.
  unfold read_into. destruct (Z.ltb_spec (m * n) 0); [nia|].
  unfold read. cbn [i_good i_bytes].
  assert (Hblk : length (block (m * m) init) = Z.to_nat (m * m))
    by apply length_block.
  assert (H1 : (Z.to_nat (m * m) < Z.to_nat (m * n))%nat)
    by (apply Z2Nat.inj_lt; nia).
  assert (H2 : (Z.to_nat (m * m) * sizeof < Z.to_nat (m * n) * sizeof)%nat)
    by (apply Nat.mul_lt_mono_pos_r; assumption).
  assert (Harith : forall len read_bytes blk_bytes : nat,
             (blk_bytes < read_bytes)%nat -> (blk_bytes < len)%nat ->
             (Nat.min read_bytes len <= blk_bytes)%nat -> False) by (intros; lia).
  destruct (Nat.leb_spec (Z.to_nat (m * n) * sizeof) (length payload)) as [Hle|Hgt].
  - destruct (take (Z.to_nat (m * n) * sizeof) payload) as [|b bs] eqn:E.
    + apply (f_equal length) in E. rewrite length_take in E. cbn [length] in E.
      exfalso. apply (Harith _ _ _ H2 Hlong). rewrite E. apply Nat.le_0_l.
    + rewrite lookup_insert_eq. unfold store_bytes.
      rewrite <- E, length_take, Hblk.
      destruct (Nat.leb_spec (Nat.min (Z.to_nat (m * n) * sizeof) (length payload))
                  (Z.to_nat (m * m) * sizeof)) as [Hbad|_]; [|reflexivity].
      exfalso. exact (Harith _ _ _ H2 Hlong Hbad).
  - destruct payload as [|b bs]; [cbn in Hlong; lia|].
    rewrite lookup_insert_eq. unfold store_bytes. rewrite Hblk.
    destruct (Nat.leb_spec (length (b :: bs)) (Z.to_nat (m * m) * sizeof))
      as [Hbad|_]; [|reflexivity].
    exfalso. apply (Nat.lt_irrefl (length (b :: bs))).
    eapply Nat.le_lt_trans; [exact Hbad|exact Hlong].
Qed.

(** *** Files *)

Lemma Triangular_Write_file_unopened (ci : bool) (FileName : string)
    (fs : files) (hA : heap * t) :
  Write_file ci false FileName fs hA
  = if ci
    then Thrown (IOError "Matrix_Triangular::Write(string FileName)"
                   (unable_to_open FileName)) fs
    else Done fs.
Proof. destruct ci, hA as [h A]; reflexivity. Qed.

Lemma Triangular_Read_file_unopened (S : Storage) (cm ci ok : bool)
    (o : alloc_outcome) (can_open : bool) (FileName : string) (fs : files)
    (hA : heap * t) :
  can_open = false \/ fs FileName = None ->
  Read_file S cm ci ok o can_open FileName fs hA
  = if ci
    then Thrown (IOError "Matrix_Triangular::Read(string FileName)"
                   (unable_to_open FileName)) hA
    else Undefined.
Proof.
  intros H. unfold Read_file, open_in.
  assert (E : (if can_open then fs FileName else None) = None)
    by (destruct H as [-> | H]; [reflexivity | destruct can_open; auto]).
  rewrite E. cbn [i_good negb]. rewrite andb_true_r.
  destruct ci; reflexivity.
Qed.

Hypothesis encode_length : forall a : T, length (encode a) = sizeof.
Hypothesis decode_encode : forall a : T, decode (encode a) = a.
Hypothesis sizeof_pos : (0 < sizeof)%nat.

Lemma Triangular_file_roundtrip (S : Storage) (cm ci : bool) (init : nat -> T)
    (FileName : string) (fs : files) (hP hQ : heap * t) (buf : list T) :
  wf hP -> contents hP = Some buf -> wf hQ ->
  let bytes := encode_int (m_ (snd hP)) ++ encode_int (n_ (snd hP))
                 ++ encode_all buf in
  exists hQ',
    Write_file ci true FileName fs hP = Done (write_file FileName bytes fs) /\
    Read_file S cm ci true (AllocOk init) true FileName
      (write_file FileName bytes fs) hQ
    = Done hQ' /\
    m_ (snd hQ') = m_ (snd hP) /\ n_ (snd hQ') = n_ (snd hP) /\
    contents hQ' = Some buf.
Proof.
  intros HwP Hc HwQ bytes. destruct HwP as (Hv & Hn & _).
  pose proof (buffer_length _ _ _ _ Hc) as Hlen. unfold GetDataSize in Hlen.
  rewrite Hn, square_size_valid in Hlen by assumption.
  assert (Hlen' : Z.of_nat (length buf) = m_ (snd hP) * m_ (snd hP)) by nia.
  destruct (Triangular_Read_bytes encode_length decode_encode sizeof_pos
              S cm ci init (m_ (snd hP)) buf [] hQ Hv Hlen' HwQ)
    as (hQ' & HR & Hm' & Hn' & Hc').
  exists hQ'. split; [|split; [|split; [exact Hm'|split; [congruence|exact Hc']]]].
  - unfold Write_file, open_out. rewrite andb_false_r.
    rewrite (Triangular_Write_bytes S ci [] hP buf Hc). reflexivity.
  - unfold Read_file, open_in. rewrite write_file_same. cbn [i_good negb].
    rewrite andb_false_r. subst bytes. rewrite Hn.
    rewrite app_nil_r in HR. rewrite HR. reflexivity.
Qed.

End TriangularIO.

(** ** Triangular matrices: printing, text that cannot be read *)

Section TriangularPrint.

Import Store Triangular.

Context {T : Type} {Token : Type} {TR : TextRep T Token}.

Abbreviation heap := (gmap loc (list T)).

(** The rows and columns [print_rows] goes through, when every element
    in them can be read. *)
Lemma print_rows_grid (S : Storage) (zero : T) (a row_end b column_end : Z)
    (cout : list (list Token)) (hA : heap * t) (g : Z -> Z -> T) :
  (forall i j, a <= i < row_end -> b <= j < column_end ->
               get S zero hA i j = Some (g i j)) ->
  print_rows S zero a row_end b column_end cout hA
  = Some (cout ++ map (fun r => map (fun c => print (g (a + Z.of_nat r)
                                                      (b + Z.of_nat c)))
                                  (seq 0 (Z.to_nat (column_end - b))))
                    (seq 0 (Z.to_nat (row_end - a)))).
Proof.
  intros Hget. unfold print_rows.
  pose proof (for_loop_collect
                (fun i => for_loop (Z.to_nat (column_end - b)) b
                            (fun j line => match get S zero hA i j with
                                           | Some x => Some (line ++ [print x])
                                           | None => None
                                           end) [])
                (fun line => line)
                (fun i => map (fun c => print (g i (b + Z.of_nat c)))
                            (seq 0 (Z.to_nat (column_end - b))))
                (Z.to_nat (row_end - a)) a cout) as Hout.
  cbv beta in Hout. rewrite Hout; [reflexivity|].
  intros i Hi.
  rewrite (for_loop_collect (fun j => get S zero hA i j) print (fun j => g i j)).
  - reflexivity.
  - intros j Hj. apply Hget; lia.
Qed.

(** Every element of a well-formed matrix can be read through
    [operator()]. *)
Lemma get_wf (S : Storage) (zero : T) (hA : heap * t) (i j : Z) :
  wf hA -> 0 <= i < m_ (snd hA) -> 0 <= j < m_ (snd hA) ->
  get S zero hA i j = Some (default zero (get S zero hA i j)).
Proof.
  intros Hwf Hi Hj. pose proof Hwf as (_ & _ & [buf Hc] & _).
  destruct (Val_contents S hA buf i j Hwf Hc Hi Hj) as [_ [x Hx]].
  unfold get. destruct (stored S i j); [|reflexivity]. now rewrite Hx.
Qed.

Lemma length_grid {A : Type} (f : nat -> nat -> A) (rows columns : nat) :
  length (map (fun r => map (f r) (seq 0 columns)) (seq 0 rows)) = rows /\
  Forall (fun line => length line = columns)
    (map (fun r => map (f r) (seq 0 columns)) (seq 0 rows)).
Proof.
  split; [now rewrite length_map, length_seq|].
  apply List.Forall_forall. intros line Hin.
  apply in_map_iff in Hin as (r & <- & _). now rewrite length_map, length_seq.
Qed.

Lemma lookup_grid {A : Type} (f : nat -> nat -> A) (rows columns r c : nat) :
  (r < rows)%nat -> (c < columns)%nat ->
  exists line,
    map (fun r => map (f r) (seq 0 columns)) (seq 0 rows) !! r = Some line /\
    line !! c = Some (f r c).
Proof.
  intros Hr Hc. exists (map (f r) (seq 0 columns)). split.
  - rewrite list_lookup_fmap, lookup_seq_lt by assumption. reflexivity.
  - rewrite list_lookup_fmap, lookup_seq_lt by assumption. reflexivity.
Qed.

(** The column check of [ReadText]: with [SELDON_CHECK_IO], a text in
    which the elements after the first line do not make whole rows of the
    length of the first line is refused. *)
Lemma ReadText_column_check (S : Storage) (cm ok : bool) (o : alloc_outcome)
    (line : list Token) (rest : list (list Token)) (hA : heap * t) :
  line <> [] ->
  Z.of_nat (length (concat rest)) mod Z.of_nat (length line) <> 0 ->
  ReadText S cm true ok o (mkItext true (line :: rest)) hA
  = Thrown (IOError "Matrix_Pointers::ReadText(ifstream& FileStream)"
              "The file should contain same number of columns.")
      (mkItext false [], Clear hA).
Proof.
  intros Hline Hmod. unfold ReadText. cbn [it_good negb andb getline it_lines].
  rewrite !length_map.
  assert (Hn : 0 < Z.of_nat (length line))
    by (destruct line; [contradiction | cbn [length]; lia]).
  destruct (Z.eqb_spec (Z.of_nat (length line)) 0) as [E|_]; [lia|].
  rewrite Z.quot_div_nonneg by lia.
  destruct (Z.eqb_spec (Z.of_nat (length (concat rest)))
              ((1 + Z.of_nat (length (concat rest)) / Z.of_nat (length line) - 1)
               * Z.of_nat (length line))) as [E|_]; [|reflexivity].
  exfalso. apply Hmod. rewrite E.
  replace (1 + Z.of_nat (length (concat rest)) / Z.of_nat (length line) - 1)
    with (Z.of_nat (length (concat rest)) / Z.of_nat (length line)) by lia.
  apply Z.mod_mul. lia.
Qed.

End TriangularPrint.

(** ** Triangular matrices: the block of the matrix *)

Section TriangularOwns.

Import Store Triangular.

Context {T : Type}.

Abbreviation heap := (gmap loc (list T)).

Abbreviation owned h0 hA := (owns h0 (data_ (snd hA)) (fst hA)).

Lemma Triangular_owns_allocate_data (cm : bool) (f : string) (init : nat -> T)
    (n i : Z) (h0 h : heap) (ptr : option loc) (A : t) (first second : Z)
    (hA' : heap * t) :
  owns h0 ptr h ->
  allocate_data cm f (reallocate (AllocOk init) ptr n h) i h A first second
  = Done hA' ->
  owned h0 hA'.
Proof.
  intros Ho. unfold allocate_data.
  destruct (reallocate (AllocOk init) ptr n h) as [h' ptr'|] eqn:HR;
    [|discriminate].
  pose proof (owns_reallocate _ _ _ _ _ _ _ Ho HR) as Ho'.
  injection HR as <- <-. cbn [is_Some bool_decide]. rewrite andb_false_r.
  destruct (set_rows (me_ A) _ second first) as [me|]; [|discriminate].
  intros E. injection E as <-. exact Ho'.
Qed.

Lemma Triangular_owns_constructor (cm : bool) (init : nat -> T) (i j : Z)
    (h0 : heap) (hA : heap * t) :
  Matrix_Triangular cm true (AllocOk init) i j h0 = Done hA -> owned h0 hA.
Proof.
  unfold Matrix_Triangular. cbn [calloc is_Some bool_decide negb andb].
  rewrite andb_false_r. cbn [andb].
  apply (Triangular_owns_allocate_data cm _ init (int_mul i i) i h0 h0 None).
  reflexivity.
Qed.

Lemma Triangular_owns_Reallocate (S : Storage) (cm : bool) (init : nat -> T)
    (i j : Z) (h0 : heap) (hA hA' : heap * t) :
  owned h0 hA ->
  Reallocate S cm true (AllocOk init) i j hA = Done hA' -> owned h0 hA'.
Proof.
  destruct hA as [h A]. cbn [fst snd]. intros Ho. unfold Reallocate.
  destruct (negb (i =? m_ A)); [|intros E; now injection E as <-].
  cbn [realloc is_Some bool_decide negb andb]. rewrite andb_false_r. cbn [andb data_].
  now apply Triangular_owns_allocate_data.
Qed.

(** Whatever the reallocation of the row pointers returns, a
    [Reallocate] that returns leaves a matrix that owns its block, on the
    heap it had or, when the old block was dropped without being freed,
    on the heap with the old block. *)
Lemma Triangular_owns_Reallocate_any (S : Storage) (cm ok : bool)
    (init : nat -> T) (i j : Z) (h0 : heap) (hA hA' : heap * t) :
  owned h0 hA ->
  Reallocate S cm ok (AllocOk init) i j hA = Done hA' ->
  owned h0 hA' \/ owned (fst hA) hA'.
Proof.
  destruct ok; [left; eapply Triangular_owns_Reallocate; eassumption|].
  destruct hA as [h A]. cbn [fst snd]. intros Ho. unfold Reallocate.
  destruct (negb (i =? m_ A)); [|intros E; injection E as <-; now left].
  cbn [realloc is_Some bool_decide negb andb]. rewrite andb_true_r.
  destruct cm; cbn [andb].
  - destruct (negb (i =? 0)); [discriminate|]. cbn [data_]. intros H. right.
    apply (Triangular_owns_allocate_data _ _ _ _ _ h h None _ _ _ _ eq_refl H).
  - cbn [data_]. intros H. left.
    apply (Triangular_owns_allocate_data _ _ _ _ _ h0 h _ _ _ _ _ Ho H).
Qed.

Lemma Triangular_owns_Clear (h0 : heap) (hA : heap * t) :
  owned h0 hA -> Clear hA = (h0, mk 0 0 None None).
Proof.
  destruct hA as [h A]. cbn [fst snd]. intros Ho. unfold Clear.
  now rewrite (owns_deallocate h0 h (data_ A) Ho).
Qed.

Lemma Triangular_owns_Resize (S : Storage) (cm : bool) (init : nat -> T)
    (i j : Z) (h0 : heap) (hA hA' : heap * t) :
  owned h0 hA ->
  Resize S cm true (AllocOk init) i j hA = Done hA' -> owned h0 hA'.
Proof.
  destruct hA as [h A]. intros Ho. unfold Resize.
  destruct (negb (i =? m_ A)); [|intros E; now injection E as <-].
  destruct (buffer h (data_ A) (GetDataSize A)) as [xold|]; [|discriminate].
  destruct (Reallocate S cm true (AllocOk init) i i (h, A)) as [[h1 A1]| |] eqn:HR;
    [|discriminate|discriminate].
  pose proof (Triangular_owns_Reallocate _ _ _ _ _ _ _ _ Ho HR) as Ho1.
  cbn [fst snd] in Ho1.
  destruct (for_loop _ 0 _ h1) as [h2|] eqn:Hl; [|discriminate].
  intros E. injection E as <-. cbn [fst snd].
  revert Hl Ho1. apply for_loop_preserves.
  intros k s s'. apply for_loop_preserves.
  intros l s1 s2. apply owns_copy_back.
Qed.

Lemma Triangular_owns_Resize_any (S : Storage) (cm ok : bool)
    (init : nat -> T) (i j : Z) (h0 : heap) (hA hA' : heap * t) :
  owned h0 hA ->
  Resize S cm ok (AllocOk init) i j hA = Done hA' ->
  owned h0 hA' \/ owned (fst hA) hA'.
Proof.
  destruct hA as [h A]. intros Ho. unfold Resize.
  destruct (negb (i =? m_ A)); [|intros E; injection E as <-; now left].
  destruct (buffer h (data_ A) (GetDataSize A)) as [xold|]; [|discriminate].
  destruct (Reallocate S cm ok (AllocOk init) i i (h, A)) as [[h1 A1]| |] eqn:HR;
    [|discriminate|discriminate].
  destruct (for_loop _ 0 _ h1) as [h2|] eqn:Hl; [|discriminate].
  intros E. injection E as <-. cbn [fst snd].
  assert (Hkeep : forall hb, owns hb (data_ A1) h1 -> owns hb (data_ A1) h2).
  { intros hb Hb.
    apply (for_loop_preserves (owns hb (data_ A1)) _) with (s' := h2) in Hl;
      [exact Hl| |exact Hb].
    intros k s s'. apply for_loop_preserves.
    intros l s1 s2. apply owns_copy_back. }
  destruct (Triangular_owns_Reallocate_any _ _ _ _ _ _ _ _ _ Ho HR) as [H|H];
    [left|right]; apply Hkeep; exact H.
Qed.

Lemma Triangular_owns_Fill {T0 : Type} (conv : T0 -> T) (x : T0) (h0 : heap)
    (hA hA' : heap * t) :
  owned h0 hA -> Fill conv x hA = Some hA' -> owned h0 hA'.
Proof.
  destruct hA as [h A]. intros Ho. unfold Fill.
  destruct (for_loop _ 0 _ h) as [h1|] eqn:Hl; [|discriminate].
  intros E. injection E as <-. cbn [fst snd] in *.
  revert Hl Ho. apply for_loop_preserves. intros k s s'. apply owns_store.
Qed.

Lemma Triangular_owns_Fill0 (conv : Z -> T) (h0 : heap) (hA hA' : heap * t) :
  owned h0 hA -> Fill0 conv hA = Some hA' -> owned h0 hA'.
Proof.
  destruct hA as [h A]. intros Ho. unfold Fill0.
  destruct (for_loop _ 0 _ h) as [h1|] eqn:Hl; [|discriminate].
  intros E. injection E as <-. cbn [fst snd] in *.
  revert Hl Ho. apply for_loop_preserves. intros k s s'. apply owns_store.
Qed.

Context {VR : ValueRep T}.

Lemma Triangular_owns_Zero (h0 : heap) (hA hA' : heap * t) :
  owned h0 hA -> Zero hA = Some hA' -> owned h0 hA'.
Proof.
  destruct hA as [h A]. intros Ho. unfold Zero.
  destruct (GetDataSize A <? 0); [discriminate|].
  destruct (memoryset h (data_ A) Byte.x00 _) as [h1|] eqn:Hm; [|discriminate].
  intros E. injection E as <-. cbn [fst snd] in *.
  exact (owns_memoryset _ _ _ _ _ _ Hm Ho).
Qed.

Lemma Triangular_owns_Read (S : Storage) (cm ci : bool) (init : nat -> T)
    (s s' : istream) (h0 : heap) (hA hA' : heap * t) :
  owned h0 hA ->
  Read S cm ci true (AllocOk init) s hA = Done (s', hA') -> owned h0 hA'.
Proof.
  intros Ho. unfold Read.
  destruct (ci && negb (i_good s)); [discriminate|].
  destruct (read_int s) as [[new_m s1]|]; [|discriminate].
  destruct (read_int s1) as [[new_n s2]|]; [|discriminate].
  destruct (Reallocate S cm true (AllocOk init) new_m new_n hA)
    as [[h1 A1]| |] eqn:HR; [|discriminate|discriminate].
  pose proof (Triangular_owns_Reallocate _ _ _ _ _ _ _ _ Ho HR) as Ho1.
  destruct (read_into h1 (data_ A1) (int_mul new_m new_n) s2) as [[h2 s3]|] eqn:Hr;
    [|discriminate].
  destruct (ci && negb (i_good s3)); [discriminate|].
  intros E. injection E as _ <-. cbn [fst snd] in *.
  exact (owns_read_into _ _ _ _ _ _ _ Hr Ho1).
Qed.

Lemma Triangular_owns_Read_any (S : Storage) (cm ci ok : bool)
    (init : nat -> T) (s s' : istream) (h0 : heap) (hA hA' : heap * t) :
  owned h0 hA ->
  Read S cm ci ok (AllocOk init) s hA = Done (s', hA') ->
  owned h0 hA' \/ owned (fst hA) hA'.
Proof.
  intros Ho. unfold Read.
  destruct (ci && negb (i_good s)); [discriminate|].
  destruct (read_int s) as [[new_m s1]|]; [|discriminate].
  destruct (read_int s1) as [[new_n s2]|]; [|discriminate].
  destruct (Reallocate S cm ok (AllocOk init) new_m new_n hA)
    as [[h1 A1]| |] eqn:HR; [|discriminate|discriminate].
  destruct (read_into h1 (data_ A1) (int_mul new_m new_n) s2) as [[h2 s3]|] eqn:Hr;
    [|discriminate].
  destruct (ci && negb (i_good s3)); [discriminate|].
  intros E. injection E as _ <-. cbn [fst snd] in *.
  destruct (Triangular_owns_Reallocate_any _ _ _ _ _ _ _ _ _ Ho HR) as [H|H];
    [left|right]; exact (owns_read_into _ _ _ _ _ _ _ Hr H).
Qed.

End TriangularOwns.


(** *** The calls of a run and what the loop keeps *)

Section QmrRuns.

Import Qmr.

Context {Treal Complexe Vector1 Matrix1 Preconditioner Iter : Type}.
Context {SO : ScalarOps Treal Complexe}.
Context {VO : VectorOps Treal Complexe Vector1}.
Context {YO : SystemOps Matrix1 Preconditioner Vector1}.
Context {IO : IterationOps Iter Complexe Matrix1 Vector1}.

Abbreviation State := (@State Treal Complexe Vector1 Preconditioner Iter).

(** A pass that runs to its end makes one matrix-vector product and one
    preconditioner solve, advances the iteration object once, and leaves
    in [rho] the norm of the new [y]. *)
Lemma body_Continue_effect (A : Matrix1) (st st' : State) :
  body A st = Continue st' ->
  calls st' = calls st ++ [Iter_First; Iter_Mlt; M_Solve; Iter_First; Iter_Incr] /\
  iter st' = Incr (iter st) /\
  rho st' = Norm2 (y st').
Proof.
  unfold body. intros Hb.
  repeat match type of Hb with
         | (if ?c then _ else _) = _ => destruct c; try discriminate
         end.
  injection Hb as <-. cbn. repeat split.
Qed.

Lemma passes_effect (A : Matrix1) (n : nat) :
  forall st st' : State,
    passes n A st = Some st' ->
    calls st' = calls st ++ concat (replicate n pass_calls) /\
    iter st' = Nat.iter n Incr (iter st) /\
    (rho st = Norm2 (y st) -> rho st' = Norm2 (y st')).
Proof.
  induction n as [|n IH]; intros st st' Hp.
  - injection Hp as <-. cbn. rewrite app_nil_r. repeat split. auto.
  - cbn [passes] in Hp.
    destruct (Finished (iter st) (r st)); [discriminate|].
    destruct (body A (test_Finished st)) as [sb|sc] eqn:Hb; [discriminate|].
    destruct (body_Continue_effect _ _ _ Hb) as (Hc & Hi & Hr).
    destruct (IH _ _ Hp) as (Hc' & Hi' & Hr').
    split; [|split].
    + rewrite Hc', Hc. cbn [test_Finished calls replicate concat].
      unfold pass_calls. rewrite <- !app_assoc. reflexivity.
    + rewrite Hi', Hi. cbn [test_Finished iter].
      rewrite Nat.iter_succ_r. reflexivity.
    + intros _. apply Hr', Hr.
Qed.

(** X1.  A run of [n] complete passes that the stopping test then ends
    makes, in this order, the calls of the setup, [n] times the calls of
    one pass (the stopping test, one matrix-vector product, one
    preconditioner solve, one increment of the iteration count) and the
    last stopping test; it returns the error code of the iteration object,
    which was advanced [n] times from count 0. *)
Theorem QmrSym_call_log (A : Matrix1) (x0 b : Vector1) (M0 : Preconditioner)
    (it : Iter) (n : nat) (st : State) :
  0 < GetM A ->
  fst (Init it b) = 0 ->
  passes n A (entry A x0 b M0 (snd (Init it b))) = Some st ->
  Finished (iter st) (r st) = true ->
  forall fuel, (n <= fuel)%nat ->
    let it1 := snd (Init it b) in
    let itn := Nat.iter n Incr (SetNumberIteration 0 it1) in
    QmrSym fuel A x0 b M0 it
    = Some (mkOutput (ErrorCode itn) (x st) (M st) itn
              (entry_calls (IsInitGuess_Null it1)
                 ++ concat (replicate n pass_calls)
                 ++ [Iter_Finished; Iter_ErrorCode])).
Proof.
  intros HN Hinit Hp Hfin fuel Hfuel it1 itn.
  rewrite QmrSym_loop by assumption.
  replace fuel with (n + (fuel - n))%nat by lia.
  rewrite (loop_passes _ _ _ _ _ Hp).
  destruct (passes_effect _ _ _ _ Hp) as (Hc & Hi & _).
  assert (Hloop : loop (fuel - n) A st = Some (test_Finished st))
    by (destruct (fuel - n)%nat; cbn [loop]; rewrite Hfin; reflexivity).
  rewrite Hloop. cbn [option_map]. unfold finish.
  cbn [test_Finished iter x M calls]. rewrite Hc, Hi.
  cbn [entry iter calls]. fold it1. fold itn. unfold entry_calls.
  rewrite <- !app_assoc. reflexivity.
Qed.

(** X2.  At the head of every pass, [rho] is the norm of [y], the
    preconditioned vector of the last solve: the first breakdown test is a
    test of [Norm2(y)]. *)
Theorem rho_is_norm_of_y (A : Matrix1) (x0 b : Vector1) (M0 : Preconditioner)
    (it : Iter) (n : nat) (st : State) :
  passes n A (entry A x0 b M0 it) = Some st ->
  rho st = Norm2 (y st) /\
  (breakdown_at A st = Some Breakdown1 <-> real_eqb (Norm2 (y st)) Treal_0 = true).
Proof.
  intros Hp. destruct (passes_effect _ _ _ _ Hp) as (_ & _ & Hr).
  assert (E : rho st = Norm2 (y st)) by (apply Hr; reflexivity).
  split; [exact E|]. unfold breakdown_at. rewrite E.
  destruct (real_eqb (Norm2 (y st)) Treal_0).
  - split; reflexivity.
  - split; [|discriminate].
    repeat match goal with
           | |- context [if ?c then _ else _] => destruct c
           end; discriminate.
Qed.

(** X3.  When [iter.Init(b)] reports a failure, [QmrSym] returns the error
    code of the iteration object at once: the solution vector and the
    preconditioner are as they were, and neither a solve nor a
    matrix-vector product was called. *)
Theorem QmrSym_Init_failure (fuel : nat) (A : Matrix1) (x0 b : Vector1)
    (M0 : Preconditioner) (it : Iter) :
  0 < GetM A ->
  fst (Init it b) <> 0 ->
  QmrSym fuel A x0 b M0 it
  = Some (mkOutput (ErrorCode (snd (Init it b))) x0 M0 (snd (Init it b))
            [Iter_Init; Iter_ErrorCode]).
Proof.
  intros HN Hinit. unfold QmrSym.
  destruct (Z.leb_spec (GetM A) 0); [lia|].
  destruct (Z.eqb_spec (fst (Init it b)) 0); [contradiction|reflexivity].
Qed.

End QmrRuns.

Section QmrDoubleRuns.

Import Qmr QmrDouble.

(** Witness of X1: [A2 x = b2] converges after two passes, with two
    matrix-vector products and three solves. *)
Lemma QmrSym_call_log_witness :
  exists out,
    QmrSym 2 A2 [0; 0]%float b2 tt iter0 = Some out /\
    calls_out out
    = [Iter_Init; Iter_IsInitGuess_Null; M_Solve; Iter_SetNumberIteration 0;
       Iter_Finished; Iter_First; Iter_Mlt; M_Solve; Iter_First; Iter_Incr;
       Iter_Finished; Iter_First; Iter_Mlt; M_Solve; Iter_First; Iter_Incr;
       Iter_Finished; Iter_ErrorCode] /\
    status out = 0.
Proof.
  destruct (passes 2 A2 (entry A2 [0; 0]%float b2 tt (snd (Init iter0 b2))))
    as [st|] eqn:Hp; [|vm_compute in Hp; discriminate].
  eexists. split; [|split].
  - apply (QmrSym_call_log A2 [0; 0]%float b2 tt iter0 2 st);
      [reflexivity | reflexivity | exact Hp | | lia].
    vm_compute in Hp. injection Hp as <-. reflexivity.
  - reflexivity.
  - reflexivity.
Defined.

(** Witness of X2, after one pass on [A2 x = b2]. *)
Lemma rho_is_norm_of_y_witness :
  rho st1 = Norm2 (y st1).
Proof.
  destruct (passes 1 A2 (entry A2 [0; 0]%float b2 tt (snd (Init iter0 b2))))
    as [st|] eqn:Hp; [|vm_compute in Hp; discriminate].
  destruct (rho_is_norm_of_y A2 [0; 0]%float b2 tt (snd (Init iter0 b2)) 1 st Hp)
    as [E _].
  vm_compute in Hp. injection Hp as <-. exact E.
Defined.

(** Witness of X3: a right-hand side of norm 0 makes [Init] fail. *)
Lemma QmrSym_Init_failure_witness :
  QmrSym 5 A2 [1; 1]%float [0; 0]%float tt iter0
  = Some (mkOutput 0 [1; 1]%float tt iter0 [Iter_Init; Iter_ErrorCode]).
Proof.
  rewrite (QmrSym_Init_failure 5 A2 [1; 1]%float [0; 0]%float tt iter0);
    [reflexivity | reflexivity | vm_compute; discriminate].
Defined.

End QmrDoubleRuns.


(** *** Runs in which a method raises, and runs that do not end *)

Section EkfRuns.

Import Ekf.

Context {Driver : Type} {DO : DriverOps Driver}.




(** When the steps return and [HasFinished()] never holds, the loop
    uses up every bound. *)
Lemma while_loop_endless (fuel : nat) :
  forall (driver : Driver) (tr : list Call),
    (forall k, exists dk, cycles k driver = Some dk /\ HasFinished dk = false) ->
    fst (while_loop fuel driver tr) = OutOfFuel.
Proof.
  induction fuel as [|fuel IH]; intros driver tr H.
  - destruct (H O) as (d0 & Hc & Hf). injection Hc as <-.
    cbn [while_loop]. unfold bind, query_HasFinished. rewrite Hf. reflexivity.
  - destruct (H O) as (d0 & Hc & Hf). injection Hc as <-.
    destruct (H 1%nat) as (d1 & Hc1 & _).
    cbn [cycles] in Hc1. rewrite Hf in Hc1.
    destruct (one_cycle driver) as [d'|] eqn:Hone; [|discriminate].
    unfold one_cycle in Hone.
    destruct (InitializeStep driver) as [a1|] eqn:H1; [|discriminate].
    destruct (Forward a1) as [a2|] eqn:H2; [|discriminate].
    destruct (Analyze a2) as [a3|] eqn:H3; [|discriminate].
    cbn [while_loop]. unfold bind at 1, query_HasFinished. rewrite Hf.
    unfold bind, invoke. rewrite H1, H2, H3, Hone.
    apply IH. intros k. destruct (H (S k)) as (dk & Hck & Hfk).
    exists dk. split; [|exact Hfk].
    cbn [cycles] in Hck. rewrite Hf in Hck. unfold one_cycle in Hck.
    rewrite H1, H2, H3, Hone in Hck. exact Hck.
Qed.

(** X5.  [main] is bounded by [HasFinished()] alone: when the driver is
    initialized, every step returns and [HasFinished()] holds after no
    number of cycles, no bound on the loop lets [main] return. *)
Theorem main_never_returns (argv0 configuration_file : string)
    (driver0 d1 : Driver) :
  Initialize configuration_file driver0 = Some d1 ->
  (forall k, exists dk, cycles k d1 = Some dk /\ HasFinished dk = false) ->
  forall fuel, main fuel argv0 [configuration_file] driver0 = None.
Proof.
  intros Hinit Hloop fuel. unfold main.
  change (negb (1 + Z.of_nat (length [configuration_file]) =? 2)) with false.
  cbn [nth]. unfold bind at 1, invoke at 1. rewrite Hinit.
  unfold bind at 1.
  pose proof (while_loop_endless fuel d1
                ([] ++ [Call_Initialize configuration_file]) Hloop) as Hw.
  destruct (while_loop fuel d1 ([] ++ [Call_Initialize configuration_file]))
    as [res tr']. cbn [fst] in Hw. subst res. reflexivity.
Qed.

End EkfRuns.


(** Witness of X5: the driver that never finishes. *)
Lemma main_never_returns_witness :
  Ekf.main (DO := Ekf.endless_driver) 1000 "test_ekf"
    ["configuration.lua"%string] tt = None.
Proof.
  apply (main_never_returns (DO := Ekf.endless_driver) "test_ekf"
           "configuration.lua" tt tt eq_refl).
  intros k. exists tt. split; [|reflexivity].
  induction k as [|k IH]; [reflexivity|]. exact IH.
Defined.


(** ** Filling, scaling and printing the matrices *)

Section FillContracts.

Import Store.

Context {T : Type}.

Abbreviation heap := (gmap loc (list T)).

(** X6.  [Fill(x)] sets every stored element of a packed or triangular
    matrix to the value [x] converts to; the dimensions, the data pointer
    and every other block of the heap are as before. *)
Theorem Fill_fills {T0 : Type} (conv : T0 -> T) (x : T0) (h : heap)
    (P : HermPacked.t) (A : Triangular.t) (bufP bufA : list T) :
  HermPacked.contents (h, P) = Some bufP ->
  Triangular.contents (h, A) = Some bufA ->
  (exists h',
     HermPacked.Fill conv x (h, P) = Some (h', P) /\
     HermPacked.contents (h', P) = Some (replicate (length bufP) (conv x)) /\
     (forall l, HermPacked.data_ P <> Some l -> h' !! l = h !! l)) /\
  (exists h',
     Triangular.Fill conv x (h, A) = Some (h', A) /\
     Triangular.contents (h', A) = Some (replicate (length bufA) (conv x)) /\
     (forall l, Triangular.data_ A <> Some l -> h' !! l = h !! l)).
Proof.
  intros HP HA. split.
  - destruct (HermPacked_Fill_contents conv x h P bufP HP) as (h' & H1 & H2 & H3 & _).
    exists h'. auto.
  - destruct (Triangular_Fill_contents conv x h A bufA HA) as (h' & H1 & H2 & H3 & _).
    exists h'. auto.
Qed.

(** X7.  [Fill()] sets the stored elements, in the order of the storage,
    to the values 0, 1, 2, ... convert to. *)
Theorem Fill0_counts (conv : Z -> T) (h : heap)
    (P : HermPacked.t) (A : Triangular.t) (bufP bufA : list T) :
  HermPacked.contents (h, P) = Some bufP ->
  Triangular.contents (h, A) = Some bufA ->
  (exists h',
     HermPacked.Fill0 conv (h, P) = Some (h', P) /\
     HermPacked.contents (h', P)
     = Some (map (fun i => conv (Z.of_nat i)) (seq 0 (length bufP))) /\
     (forall l, HermPacked.data_ P <> Some l -> h' !! l = h !! l)) /\
  (exists h',
     Triangular.Fill0 conv (h, A) = Some (h', A) /\
     Triangular.contents (h', A)
     = Some (map (fun i => conv (Z.of_nat i)) (seq 0 (length bufA))) /\
     (forall l, Triangular.data_ A <> Some l -> h' !! l = h !! l)).
Proof.
  intros HP HA. split.
  - destruct (HermPacked_Fill0_contents conv h P bufP HP) as (h' & H1 & H2 & H3 & _).
    exists h'. auto.
  - destruct (Triangular_Fill0_contents conv h A bufA HA) as (h' & H1 & H2 & H3 & _).
    exists h'. auto.
Qed.

(** X8.  [operator*=] multiplies every stored element of a packed matrix
    by [x], for both storages alike, and changes nothing else; two
    calls multiply by [x] and then by [y]. *)
Theorem mul_assign_scales {T0 : Type} (mul : T -> T0 -> T) (x y : T0)
    (h : heap) (P : HermPacked.t) (buf : list T) :
  HermPacked.contents (h, P) = Some buf ->
  exists h1 h2,
    HermPacked.ColHermPacked_mul_assign mul x (h, P) = Some (h1, P) /\
    HermPacked.RowHermPacked_mul_assign mul x (h, P) = Some (h1, P) /\
    HermPacked.contents (h1, P) = Some (map (fun a => mul a x) buf) /\
    (forall l, HermPacked.data_ P <> Some l -> h1 !! l = h !! l) /\
    HermPacked.ColHermPacked_mul_assign mul y (h1, P) = Some (h2, P) /\
    HermPacked.contents (h2, P) = Some (map (fun a => mul (mul a x) y) buf).
Proof.
  intros Hc.
  destruct (ColHermPacked_mul_assign_contents mul x h P buf Hc)
    as (h1 & H1 & Hc1 & Hf1 & _).
  destruct (ColHermPacked_mul_assign_contents mul y h1 P _ Hc1)
    as (h2 & H2 & Hc2 & _).
  exists h1, h2. split; [exact H1|]. split; [exact H1|].
  split; [exact Hc1|]. split; [exact Hf1|]. split; [exact H2|].
  rewrite Hc2, map_map. reflexivity.
Qed.

(** X10.  [SetIdentity()] on a well-formed matrix leaves ones on the
    diagonal and the converted zero on every other stored element: on
    the rest of the upper triangle of a packed matrix, of either storage,
    and on the rest of the square of a triangular matrix. *)
Theorem SetIdentity_is_identity (SP : HermPacked.Storage)
    (SA : Triangular.Storage) (conv : T -> T) (zero one : T) (h : heap)
    (P : HermPacked.t) (A : Triangular.t) :
  HermPacked.wf (h, P) ->
  Triangular.wf (h, A) ->
  (exists h',
     HermPacked.SetIdentity SP conv zero one (h, P) = Some (h', P) /\
     (forall k l, 0 <= k <= l -> l < HermPacked.m_ P ->
        HermPacked.Val SP (h', P) k l
        = Some (if k =? l then one else conv zero)) /\
     (forall l, HermPacked.data_ P <> Some l -> h' !! l = h !! l)) /\
  (exists h',
     Triangular.SetIdentity SA conv zero one (h, A) = Some (h', A) /\
     (forall i j, 0 <= i < Triangular.m_ A -> 0 <= j < Triangular.m_ A ->
        Triangular.Val SA (h', A) i j
        = Some (if i =? j then one else conv zero)) /\
     (forall l, Triangular.data_ A <> Some l -> h' !! l = h !! l)).
Proof.
  intros HP HA. split.
  - destruct (HermPacked_SetIdentity_elements SP conv zero one h P HP)
      as (h' & H1 & H2 & H3 & _).
    exists h'. auto.
  - destruct (Triangular_SetIdentity_elements SA conv zero one h A HA)
      as (h' & H1 & H2 & H3 & _).
    exists h'. auto.
Qed.

Context {VR : ValueRep T}.

(** X9.  [Zero()] sets every stored element to the element whose bytes
    are all 0, and changes nothing else. *)
Theorem Zero_clears (sizeof_pos : (0 < sizeof)%nat) (h : heap)
    (P : HermPacked.t) (A : Triangular.t) (bufP bufA : list T) :
  HermPacked.wf (h, P) -> HermPacked.contents (h, P) = Some bufP ->
  Triangular.wf (h, A) -> Triangular.contents (h, A) = Some bufA ->
  (exists h',
     HermPacked.Zero (h, P) = Some (h', P) /\
     HermPacked.contents (h', P)
     = Some (replicate (length bufP) (decode (replicate sizeof Byte.x00))) /\
     (forall l, HermPacked.data_ P <> Some l -> h' !! l = h !! l)) /\
  (exists h',
     Triangular.Zero (h, A) = Some (h', A) /\
     Triangular.contents (h', A)
     = Some (replicate (length bufA) (decode (replicate sizeof Byte.x00))) /\
     (forall l, Triangular.data_ A <> Some l -> h' !! l = h !! l)).
Proof.
  intros (HvP & _) HP (HvA & HnA & _) HA. cbn [fst snd] in *. split.
  - destruct (HermPacked_Zero_contents h P bufP sizeof_pos HvP HP)
      as (h' & H1 & H2 & H3 & _).
    exists h'. auto.
  - destruct (Triangular_Zero_contents h A bufA sizeof_pos HvA HnA HA)
      as (h' & H1 & H2 & H3 & _).
    exists h'. auto.
Qed.

End FillContracts.

(** ** Reading and writing the matrices *)

Section StreamContracts.

Import Store.

Context {T : Type} {VR : ValueRep T}.

Abbreviation heap := (gmap loc (list T)).

(** X14.  The binary [Read] reads the two dimensions into variables that
    have no value: on a stream of fewer than eight bytes (and, without
    [SELDON_CHECK_IO], on a stream that is not good) a dimension is used
    indeterminate and the behaviour is undefined.  With [SELDON_CHECK_IO]
    a stream that is not good is refused with an [IOError] before
    anything is read, and the matrix is as before. *)
Theorem Read_short_header (S : Triangular.Storage) (cm ci ok : bool)
    (o : alloc_outcome) (good : bool) (bs : list byte)
    (hP : heap * HermPacked.t) (hA : heap * Triangular.t) :
  (length bs < 8)%nat ->
  (ci && negb good = false ->
   HermPacked.Read cm ci o (mkIstream good bs) hP = Undefined /\
   Triangular.Read S cm ci ok o (mkIstream good bs) hA = Undefined) /\
  HermPacked.Read cm true o (mkIstream false bs) hP
  = Thrown (IOError "Matrix_HermPacked::Read(ifstream& FileStream)"
              "Stream is not ready.") (mkIstream false bs, hP) /\
  Triangular.Read S cm true ok o (mkIstream false bs) hA
  = Thrown (IOError "Matrix_Triangular::Read(ifstream& FileStream)"
              "Stream is not ready.") (mkIstream false bs, hA).
Proof.
  intros Hlen. split; [|split; reflexivity].
  intros Hci. split.
  - now apply HermPacked_Read_short_header.
  - now apply Triangular_Read_short_header.
Qed.

(** X15.  When the payload ends before the stored elements are all read,
    the matrix is left with the dimensions of the header; the call throws
    an [IOError] with [SELDON_CHECK_IO] and returns as if nothing had
    happened without it, the stream failed and at its end. *)
Theorem Read_truncated_payload (S : Triangular.Storage) (cm ci : bool)
    (init : nat -> T) (i : Z) (payloadP payloadA : list byte)
    (hP : heap * HermPacked.t) (hA : heap * Triangular.t) :
  HermPacked.wf hP -> HermPacked.valid_dimension i ->
  (length payloadP < Z.to_nat (i * (i + 1) / 2) * sizeof)%nat ->
  Triangular.wf hA -> Triangular.valid_dimension i ->
  (length payloadA < Z.to_nat (i * i) * sizeof)%nat ->
  (exists hP',
     HermPacked.Read cm ci (AllocOk init)
       (mkIstream true (encode_int i ++ encode_int i ++ payloadP)) hP
     = (if ci
        then Thrown (IOError "Matrix_HermPacked::Read(ifstream& FileStream)"
                       input_failed)
        else Done) (mkIstream false [], hP') /\
     HermPacked.GetM (snd hP') = i /\ HermPacked.GetN (snd hP') = i) /\
  (exists hA',
     Triangular.Read S cm ci true (AllocOk init)
       (mkIstream true (encode_int i ++ encode_int i ++ payloadA)) hA
     = (if ci
        then Thrown (IOError "Matrix_Triangular::Read(ifstream& FileStream)"
                       input_failed)
        else Done) (mkIstream false [], hA') /\
     Triangular.GetM (snd hA') = i /\ Triangular.GetN (snd hA') = i).
Proof.
  intros HwP HvP HsP HwA HvA HsA. split.
  - apply HermPacked_Read_truncated; try assumption.
    now apply valid_dimension_int.
  - now apply Triangular_Read_truncated.
Qed.

(** X17.  [Matrix_Triangular::Read] allocates rows times rows elements
    and reads rows times columns elements: on a header with more columns
    than rows, followed by more bytes than the block holds, the read runs
    past the block and the behaviour is undefined. *)
Theorem Triangular_Read_overruns (S : Triangular.Storage) (cm ci : bool)
    (init : nat -> T) (m n : Z) (payload : list byte)
    (h : heap) (A : Triangular.t) :
  (0 < sizeof)%nat ->
  0 < m < n -> m * n < 2 ^ 31 -> m <> Triangular.m_ A ->
  (Z.to_nat (m * m) * sizeof < length payload)%nat ->
  Triangular.Read S cm ci true (AllocOk init)
    (mkIstream true (encode_int m ++ encode_int n ++ payload)) (h, A)
  = Undefined.
Proof. apply Triangular_Read_overrun. Qed.

(** X13.  A file that cannot be opened: with [SELDON_CHECK_IO] the
    methods on file names throw an [IOError] that names the file, and
    neither the files nor the matrix change; without it, [Write] returns
    with nothing written, and [Read] reads its dimensions from a failed
    stream, which is undefined. *)
Theorem file_not_opened (S : Triangular.Storage) (cm ci ok : bool)
    (o : alloc_outcome) (can_open : bool) (FileName : string) (fs : files)
    (hP : heap * HermPacked.t) (hA : heap * Triangular.t) :
  can_open = false \/ fs FileName = None ->
  HermPacked.Write_file ci false FileName fs hP
  = (if ci
     then Thrown (IOError "Matrix_HermPacked::Write(string FileName)"
                    (unable_to_open FileName)) fs
     else Done fs) /\
  Triangular.Write_file ci false FileName fs hA
  = (if ci
     then Thrown (IOError "Matrix_Triangular::Write(string FileName)"
                    (unable_to_open FileName)) fs
     else Done fs) /\
  HermPacked.Read_file cm ci o can_open FileName fs hP
  = (if ci
     then Thrown (IOError "Matrix_HermPacked::Read(string FileName)"
                    (unable_to_open FileName)) hP
     else Undefined) /\
  Triangular.Read_file S cm ci ok o can_open FileName fs hA
  = (if ci
     then Thrown (IOError "Matrix_Triangular::Read(string FileName)"
                    (unable_to_open FileName)) hA
     else Undefined).
Proof.
  intros H. split; [apply HermPacked_Write_file_unopened|].
  split; [apply Triangular_Write_file_unopened|].
  split; [now apply HermPacked_Read_file_unopened|].
  now apply Triangular_Read_file_unopened.
Qed.

(** X16.  [Matrix_HermPacked::Read] reads the number of columns of the
    header and does not use it: whatever it is, the matrix read has as
    many columns as rows and the stored elements of the payload. *)
Theorem HermPacked_Read_ignores_column_count
    (encode_length : forall a : T, length (encode a) = sizeof)
    (decode_encode : forall a : T, decode (encode a) = a)
    (sizeof_pos : (0 < sizeof)%nat)
    (cm ci : bool) (init : nat -> T) (i j : Z) (buf : list T)
    (rest : list byte) (hQ : heap * HermPacked.t) :
  HermPacked.valid_dimension i ->
  - 2 ^ 31 <= j < 2 ^ 31 ->
  Z.of_nat (length buf) = i * (i + 1) / 2 ->
  HermPacked.wf hQ ->
  exists hQ',
    HermPacked.Read cm ci (AllocOk init)
      (mkIstream true (encode_int i ++ encode_int j ++ encode_all buf ++ rest)) hQ
    = Done (mkIstream true rest, hQ') /\
    HermPacked.GetM (snd hQ') = i /\ HermPacked.GetN (snd hQ') = i /\
    HermPacked.contents hQ' = Some buf.
Proof.
  intros Hv Hj Hlen Hwf.
  rewrite HermPacked_Read_ignores_columns
    by (assumption || now apply valid_dimension_int).
  now apply HermPacked_Read_bytes.
Qed.

(** X12.  A well-formed matrix written to a file with [Write(FileName)]
    is read back from it with [Read(FileName)]: the file holds the two
    dimensions and the stored elements, the other files are as before,
    and the matrix read has the dimensions and the stored elements of
    the matrix written. *)
Theorem file_roundtrip
    (encode_length : forall a : T, length (encode a) = sizeof)
    (decode_encode : forall a : T, decode (encode a) = a)
    (sizeof_pos : (0 < sizeof)%nat)
    (S : Triangular.Storage) (cm ci : bool) (init : nat -> T)
    (FileName : string) (fs : files)
    (hP hQ : heap * HermPacked.t) (bufP : list T)
    (hA hB : heap * Triangular.t) (bufA : list T) :
  HermPacked.wf hP -> HermPacked.contents hP = Some bufP -> HermPacked.wf hQ ->
  Triangular.wf hA -> Triangular.contents hA = Some bufA -> Triangular.wf hB ->
  (exists fs' hQ',
     HermPacked.Write_file ci true FileName fs hP = Done fs' /\
     fs' FileName
     = Some (encode_int (HermPacked.GetM (snd hP))
               ++ encode_int (HermPacked.GetN (snd hP)) ++ encode_all bufP) /\
     (forall name, name <> FileName -> fs' name = fs name) /\
     HermPacked.Read_file cm ci (AllocOk init) true FileName fs' hQ = Done hQ' /\
     HermPacked.GetM (snd hQ') = HermPacked.GetM (snd hP) /\
     HermPacked.GetN (snd hQ') = HermPacked.GetN (snd hP) /\
     HermPacked.contents hQ' = Some bufP) /\
  (exists fs' hB',
     Triangular.Write_file ci true FileName fs hA = Done fs' /\
     fs' FileName
     = Some (encode_int (Triangular.GetM (snd hA))
               ++ encode_int (Triangular.GetN (snd hA)) ++ encode_all bufA) /\
     (forall name, name <> FileName -> fs' name = fs name) /\
     Triangular.Read_file S cm ci true (AllocOk init) true FileName fs' hB
     = Done hB' /\
     Triangular.GetM (snd hB') = Triangular.GetM (snd hA) /\
     Triangular.GetN (snd hB') = Triangular.GetN (snd hA) /\
     Triangular.contents hB' = Some bufA).
Proof.
  intros HwP HcP HwQ HwA HcA HwB. split.
  - destruct (HermPacked_file_roundtrip encode_length decode_encode sizeof_pos
                cm ci init FileName fs hP hQ bufP HwP HcP HwQ)
      as (hQ' & HW & HR & Hm & Hn & Hc).
    eexists _, hQ'. split; [exact HW|].
    split; [apply write_file_same|].
    split; [intros name Hne; now apply write_file_other|].
    split; [exact HR|]. split; [exact Hm|]. split; [exact Hn|exact Hc].
  - destruct (Triangular_file_roundtrip encode_length decode_encode sizeof_pos
                S cm ci init FileName fs hA hB bufA HwA HcA HwB)
      as (hB' & HW & HR & Hm & Hn & Hc).
    eexists _, hB'. split; [exact HW|].
    split; [apply write_file_same|].
    split; [intros name Hne; now apply write_file_other|].
    split; [exact HR|]. split; [exact Hm|]. split; [exact Hn|exact Hc].
Qed.

End StreamContracts.

(** ** Text *)

Section TextContracts.

Import Store.

Context {T : Type} {Token : Type} {TR : TextRep T Token}.

Abbreviation heap := (gmap loc (list T)).

(** X11.  [Print(a, b, m, n)] on a well-formed triangular matrix is
    clipped to the matrix: it prints the rows from [a] up to the last one
    below [a + m] that the matrix has, and of each the columns from [b] up
    to the last one below [b + n], every element as [operator()] gives
    it; no element outside the matrix is read.  [Print()] prints the
    whole matrix, as [WriteText] writes it, and so does [Print(l)] when
    [l] is at least the dimension. *)
Theorem Print_is_clipped (S : Triangular.Storage) (ci : bool) (zero : T)
    (a b m n l : Z) (cout : list (list Token)) (hA : heap * Triangular.t) :
  Triangular.wf hA ->
  0 <= a -> 0 <= b ->
  - 2 ^ 31 <= a + m < 2 ^ 31 -> - 2 ^ 31 <= b + n < 2 ^ 31 ->
  Triangular.GetM (snd hA) <= l < 2 ^ 31 ->
  let dim := Triangular.GetM (snd hA) in
  (exists lines,
     Triangular.Print_sub S zero a b m n cout hA = Some (cout ++ lines) /\
     length lines = Z.to_nat (Z.min dim (a + m) - a) /\
     Forall (fun line => length line = Z.to_nat (Z.min dim (b + n) - b)) lines /\
     forall i j, a <= i < Z.min dim (a + m) -> b <= j < Z.min dim (b + n) ->
       exists line x,
         lines !! Z.to_nat (i - a) = Some line /\
         Triangular.get S zero hA i j = Some x /\
         line !! Z.to_nat (j - b) = Some (print x)) /\
  (exists lines,
     Triangular.Print S zero cout hA = Some (cout ++ lines) /\
     Triangular.Print_l S zero l cout hA = Some (cout ++ lines) /\
     Triangular.WriteText S ci zero (mkOtext true cout) hA
     = Done (mkOtext true (cout ++ lines)) /\
     length lines = Z.to_nat dim).
Proof.
  intros Hwf Ha Hb Ham Hbn Hl dim. unfold Triangular.GetM in *.
  pose proof Hwf as ((Hd0 & _) & Hn & _).
  set (g := fun i j => default zero (Triangular.get S zero hA i j)).
  assert (Hget : forall i j, 0 <= i < Triangular.m_ (snd hA) ->
                             0 <= j < Triangular.m_ (snd hA) ->
                             Triangular.get S zero hA i j = Some (g i j))
    by (intros i j Hi Hj; now apply get_wf).
  split.
  - unfold Triangular.Print_sub, int_add.
    rewrite !wrap_small, Hn by assumption.
    rewrite (print_rows_grid S zero _ _ _ _ cout hA g)
      by (intros i j Hi Hj; apply Hget; lia).
    eexists. split; [reflexivity|].
    destruct (length_grid
                (fun r c => print (g (a + Z.of_nat r) (b + Z.of_nat c)))
                (Z.to_nat (Z.min dim (a + m) - a))
                (Z.to_nat (Z.min dim (b + n) - b))) as [Hlen Hall].
    split; [exact Hlen|]. split; [exact Hall|].
    intros i j Hi Hj.
    destruct (lookup_grid
                (fun r c => print (g (a + Z.of_nat r) (b + Z.of_nat c)))
                (Z.to_nat (Z.min dim (a + m) - a))
                (Z.to_nat (Z.min dim (b + n) - b))
                (Z.to_nat (i - a)) (Z.to_nat (j - b)))
      as (line & Hline & Hx); [unfold dim in *; lia | unfold dim in *; lia |].
    exists line, (g i j). split; [exact Hline|].
    split; [apply Hget; unfold dim in *; lia|].
    rewrite Hx. do 3 f_equal; lia.
  - exists (map (fun r => map (fun c => print (g (Z.of_nat r) (Z.of_nat c)))
                            (seq 0 (Z.to_nat dim)))
              (seq 0 (Z.to_nat dim))).
    assert (HP : Triangular.Print S zero cout hA
                 = Some (cout ++ map (fun r => map (fun c => print (g (Z.of_nat r)
                                                                    (Z.of_nat c)))
                                                 (seq 0 (Z.to_nat dim)))
                                   (seq 0 (Z.to_nat dim)))).
    { unfold Triangular.Print. rewrite Hn.
      rewrite (print_rows_grid S zero _ _ _ _ cout hA g)
        by (intros i j Hi Hj; apply Hget; lia).
      rewrite Z.sub_0_r. reflexivity. }
    split; [exact HP|]. split; [|split].
    + unfold Triangular.Print_l, Triangular.Print_sub, int_add.
      rewrite Z.add_0_l, wrap_small, Hn, Z.min_l by lia.
      unfold Triangular.Print in HP. rewrite Hn in HP. exact HP.
    + now apply WriteText_grid.
    + now rewrite length_map, length_seq.
Qed.

(** X18.  [ReadText] clears the matrix before it looks at the stream.
    With [SELDON_CHECK_IO], a stream that is not good is refused with an
    [IOError], and so is a text in which the elements after the first
    line do not make whole rows of the length of the first line; an empty
    stream makes it return.  In each case the matrix is left empty.  A
    first line without an element makes the number of rows a division by
    0. *)
Theorem ReadText_refuses (S : Triangular.Storage) (cm ok : bool)
    (o : alloc_outcome) (lines rest : list (list Token)) (line : list Token)
    (hA : heap * Triangular.t) :
  line <> [] ->
  Z.of_nat (length (concat rest)) mod Z.of_nat (length line) <> 0 ->
  Triangular.ReadText S cm true ok o (mkItext false lines) hA
  = Thrown (IOError "Matrix_Pointers::ReadText(ifstream& FileStream)"
              "Stream is not ready.")
      (mkItext false lines, Triangular.Clear hA) /\
  Triangular.ReadText S cm true ok o (mkItext true (line :: rest)) hA
  = Thrown (IOError "Matrix_Pointers::ReadText(ifstream& FileStream)"
              "The file should contain same number of columns.")
      (mkItext false [], Triangular.Clear hA) /\
  (forall ci,
     Triangular.ReadText S cm ci ok o (mkItext true []) hA
     = Done (mkItext false [], Triangular.Clear hA)) /\
  (forall ci,
     Triangular.ReadText S cm ci ok o (mkItext true ([] :: rest)) hA
     = Undefined).
Proof.
  intros Hline Hmod. split; [reflexivity|].
  split; [now apply ReadText_column_check|].
  split; intros ci; unfold Triangular.ReadText; cbn [it_good negb];
    rewrite andb_false_r; reflexivity.
Qed.

End TextContracts.

(** ** Memory *)

Section MemoryContracts.

Import Store.

Context {T : Type} {VR : ValueRep T}.

Abbreviation heap := (gmap loc (list T)).

Lemma HermPacked_Updates_owns (cm ci : bool) (h0 : heap)
    (hP hP' : heap * HermPacked.t) :
  HermPacked.Updates cm ci hP hP' ->
  owns h0 (HermPacked.data_ (snd hP)) (fst hP) ->
  owns h0 (HermPacked.data_ (snd hP')) (fst hP').
Proof.
  intros [init i j hA hA' H|init i j hA hA' H|init i j hA hA' H
         |init s s' hA hA' H|hA hA' H|S conv zero one hA hA' H
         |conv hA hA' H|conv x hA hA' H|mul x hA hA' H|mul x hA hA' H] Ho.
  - eapply HermPacked_owns_Reallocate; eassumption.
  - eapply HermPacked_owns_ColResize; eassumption.
  - eapply HermPacked_owns_RowResize; eassumption.
  - eapply HermPacked_owns_Read; eassumption.
  - eapply HermPacked_owns_Zero; eassumption.
  - eapply HermPacked_owns_SetIdentity; eassumption.
  - eapply HermPacked_owns_Fill0; eassumption.
  - eapply HermPacked_owns_Fill; eassumption.
  - eapply (proj1 (HermPacked_owns_mul_assign mul x h0 hA hA' Ho)); eassumption.
  - eapply (proj2 (HermPacked_owns_mul_assign mul x h0 hA hA' Ho)); eassumption.
Qed.

Lemma Triangular_Updates_owns (S : Triangular.Storage) (cm ci : bool)
    (h0 : heap) (hA hA' : heap * Triangular.t) :
  Triangular.Updates S cm ci true hA hA' ->
  owns h0 (Triangular.data_ (snd hA)) (fst hA) ->
  owns h0 (Triangular.data_ (snd hA')) (fst hA').
Proof.
  intros [init i j hB hB' H|init i j hB hB' H|init s s' hB hB' H
         |hB hB' H|conv hB hB' H|conv x hB hB' H] Ho.
  - eapply Triangular_owns_Reallocate; eassumption.
  - eapply Triangular_owns_Resize; eassumption.
  - eapply Triangular_owns_Read; eassumption.
  - eapply Triangular_owns_Zero; eassumption.
  - eapply Triangular_owns_Fill0; eassumption.
  - eapply Triangular_owns_Fill; eassumption.
Qed.

(** Whatever the reallocations of the row pointers return, the matrix
    owns its block on a heap that holds the heap it started on. *)
Lemma Triangular_Updates_holds (S : Triangular.Storage) (cm ci ok : bool)
    (h0 : heap) (hA hA' : heap * Triangular.t) :
  Triangular.Updates S cm ci ok hA hA' ->
  (exists hl, h0 ⊆ hl /\ owns hl (Triangular.data_ (snd hA)) (fst hA)) ->
  exists hl, h0 ⊆ hl /\ owns hl (Triangular.data_ (snd hA')) (fst hA').
Proof.
  intros HU (hl & Hsub & Ho).
  assert (Hin : hl ⊆ fst hA).
  { revert Ho. destruct (Triangular.data_ (snd hA)) as [l|]; cbn [owns].
    - intros (Hl & blk & ->). now apply insert_subseteq.
    - now intros ->. }
  assert (Hcase : owns hl (Triangular.data_ (snd hA')) (fst hA') \/
                  owns (fst hA) (Triangular.data_ (snd hA')) (fst hA')).
  { destruct HU as [init i j hB hB' H|init i j hB hB' H|init s s' hB hB' H
                   |hB hB' H|conv hB hB' H|conv x hB hB' H].
    - eapply Triangular_owns_Reallocate_any; eassumption.
    - eapply Triangular_owns_Resize_any; eassumption.
    - eapply Triangular_owns_Read_any; eassumption.
    - left. eapply Triangular_owns_Zero; eassumption.
    - left. eapply Triangular_owns_Fill0; eassumption.
    - left. eapply Triangular_owns_Fill; eassumption. }
  destruct Hcase as [H|H]; [exists hl|exists (fst hA)]; (split; [|exact H]).
  - exact Hsub.
  - now transitivity hl.
Qed.

(** X19.  A matrix constructed on a heap and then changed by any
    sequence of calls that return, with allocations of the data that
    succeed, keeps away from the blocks the heap held before the
    construction: they are still there with their elements, also after
    [Clear()].  [Clear()] gives back exactly the heap from before the
    construction for a packed matrix, and for a triangular matrix when
    every reallocation of the row pointers returned a block.  When the
    reallocation of the row pointers for [Reallocate(0, j)] returns NULL
    (as [realloc] may for the size 0) on a matrix that is not empty, with
    [SELDON_CHECK_MEMORY] the call returns with an empty matrix and the
    old block stays allocated, also after [Clear()]. *)
Theorem matrix_keeps_to_its_block (S : Triangular.Storage) (cm ci : bool)
    (init : nat -> T) (i j : Z) (h0 : heap)
    (hP hP' : heap * HermPacked.t) (hA hA' : heap * Triangular.t) :
  HermPacked.Matrix_HermPacked cm (AllocOk init) i j h0 = Done hP ->
  rtc (HermPacked.Updates cm ci) hP hP' ->
  Triangular.Matrix_Triangular cm true (AllocOk init) i j h0 = Done hA ->
  rtc (fun hB hB' => exists ok, Triangular.Updates S cm ci ok hB hB') hA hA' ->
  (HermPacked.Clear hP' = (h0, HermPacked.mk 0 0 None) /\
   forall l blk, h0 !! l = Some blk -> fst hP' !! l = Some blk) /\
  (forall l blk, h0 !! l = Some blk ->
     fst hA' !! l = Some blk /\ fst (Triangular.Clear hA') !! l = Some blk) /\
  (rtc (Triangular.Updates S cm ci true) hA hA' ->
   Triangular.Clear hA' = (h0, Triangular.mk 0 0 None None)) /\
  (cm = true -> Triangular.m_ (snd hA') <> 0 ->
   forall l blk init' j',
     Triangular.data_ (snd hA') = Some l -> fst hA' !! l = Some blk ->
     exists hA'',
       Triangular.Reallocate S cm false (AllocOk init') 0 j' hA' = Done hA'' /\
       Triangular.GetM (snd hA'') = 0 /\
       fst hA'' !! l = Some blk /\
       fst (Triangular.Clear hA'') !! l = Some blk).
Proof.
  intros HP HsP HA HsA.
  assert (Hframe : forall (ptr : option loc) (hl h : heap),
             owns hl ptr h -> forall l blk, hl !! l = Some blk -> h !! l = Some blk).
  { intros [l1|] hl h; cbn [owns].
    - intros (H0 & b & ->) l blk Hl.
      rewrite lookup_insert_ne by congruence. exact Hl.
    - now intros ->. }
  split; [|split; [|split]].
  - assert (Ho : owns h0 (HermPacked.data_ (snd hP')) (fst hP')).
    { apply HermPacked_owns_constructor in HP. revert HP.
      induction HsP as [|x y z Hxy _ IH]; [auto|].
      intros Hx. apply IH. eapply HermPacked_Updates_owns; eassumption. }
    split; [now apply HermPacked_owns_Clear | exact (Hframe _ _ _ Ho)].
  - assert (Hk : exists hl, h0 ⊆ hl /\
                   owns hl (Triangular.data_ (snd hA')) (fst hA')).
    { assert (H0 : exists hl, h0 ⊆ hl /\
                     owns hl (Triangular.data_ (snd hA)) (fst hA))
        by (exists h0; split; [reflexivity|];
            now apply Triangular_owns_constructor in HA).
      clear HA. revert H0.
      induction HsA as [|x y z [ok Hxy] _ IH]; [auto|].
      intros Hx. apply IH. eapply Triangular_Updates_holds; eassumption. }
    destruct Hk as (hl & Hsub & Ho). intros l blk Hl.
    assert (Hl' : hl !! l = Some blk)
      by (eapply lookup_weaken; eassumption).
    split; [exact (Hframe _ _ _ Ho l blk Hl')|].
    rewrite (Triangular_owns_Clear hl hA' Ho). exact Hl'.
  - intros Hs.
    assert (Ho : owns h0 (Triangular.data_ (snd hA')) (fst hA')).
    { apply Triangular_owns_constructor in HA. clear HsA. revert HA.
      induction Hs as [|x y z Hxy _ IH]; [auto|].
      intros Hx. apply IH. eapply Triangular_Updates_owns; eassumption. }
    now apply Triangular_owns_Clear.
  - intros -> Hm l blk init' j' Hd Hl. destruct hA' as [h A]. cbn [fst snd] in *.
    unfold Triangular.Reallocate.
    destruct (Z.eqb_spec 0 (Triangular.m_ A)) as [E|_]; [congruence|].
    cbn [negb Triangular.realloc is_Some bool_decide andb Z.eqb Triangular.data_].
    unfold Triangular.allocate_data, reallocate.
    cbn [deallocate is_Some bool_decide negb andb Triangular.me_].
    rewrite GetFirst_diag. cbn [Z.to_nat Triangular.set_rows for_loop].
    eexists. split; [reflexivity|]. cbn [fst snd Triangular.GetM Triangular.m_].
    split; [reflexivity|].
    assert (Hne : new_loc h <> l).
    { intros <-. rewrite new_loc_fresh in Hl. discriminate. }
    split; [now rewrite lookup_insert_ne|].
    unfold Triangular.Clear. cbn [fst Triangular.data_ deallocate].
    rewrite lookup_delete_ne by exact Hne.
    now rewrite lookup_insert_ne.
Qed.

(** X20.  A buffer given to a matrix with [SetData] is the matrix's own
    from then on: unless [Nullify] is called, [Clear()] (the destructor)
    frees it. *)
Theorem SetData_then_Clear_frees (i j : Z) (data : loc) (buf : list T)
    (h : heap) (P : HermPacked.t) (A : Triangular.t) :
  h !! data = Some buf ->
  HermPacked.data_ P <> Some data ->
  Triangular.data_ A <> Some data ->
  0 <= i ->
  (let hP1 := HermPacked.SetData i j (Some data) (h, P) in
   fst hP1 !! data = Some buf /\
   fst (HermPacked.Clear hP1) !! data = None /\
   fst (HermPacked.Clear (HermPacked.Nullify hP1)) !! data = Some buf) /\
  (forall cm, exists hA1,
     Triangular.SetData cm true i j (Some data) (h, A) = Done hA1 /\
     fst hA1 !! data = Some buf /\
     fst (Triangular.Clear hA1) !! data = None /\
     fst (Triangular.Clear (Triangular.Nullify hA1)) !! data = Some buf).
Proof.
  intros Hbuf HP HA Hi.
  assert (Hkeep : forall ptr : option loc,
             ptr <> Some data -> deallocate ptr h !! data = Some buf).
  { intros [l|] Hne; cbn [deallocate]; [|exact Hbuf].
    rewrite lookup_delete_ne by congruence. exact Hbuf. }
  split.
  - cbv zeta. unfold HermPacked.SetData, HermPacked.Clear, HermPacked.Nullify.
    cbn [fst snd HermPacked.data_ deallocate].
    split; [now apply Hkeep|]. split; [apply lookup_delete_eq|now apply Hkeep].
  - intros cm. rewrite Triangular_SetData_success by assumption.
    eexists. split; [reflexivity|].
    unfold Triangular.Clear, Triangular.Nullify.
    cbn [fst snd Triangular.data_ deallocate].
    split; [now apply Hkeep|]. split; [apply lookup_delete_eq|now apply Hkeep].
Qed.

(** X21.  An allocation that fails in a constructor: with
    [SELDON_CHECK_MEMORY] the constructor of a packed matrix returns,
    leaving an empty matrix, where the constructor of a triangular matrix
    throws [NoMemory]; without it, a packed matrix built on a null
    pointer has [i] rows, and filling it is undefined. *)
Theorem constructor_allocation_failure (i j : Z) (h : heap) :
  0 < i -> HermPacked.valid_dimension i ->
  (forall o, o = AllocNull \/ o = AllocThrow ->
     HermPacked.Matrix_HermPacked true o i j h
     = Done (h, HermPacked.mk 0 0 None)) /\
  (HermPacked.Matrix_HermPacked false AllocNull i j h
   = Done (h, HermPacked.mk i i None) /\
   forall (T0 : Type) (conv : T0 -> T) (x : T0),
     HermPacked.Fill conv x (h, HermPacked.mk i i None) = None) /\
  (forall ok o, ok = false \/ o = AllocNull \/ o = AllocThrow ->
     Triangular.Matrix_Triangular true ok o i j h
     = Thrown (NoMemory "Matrix_Triangular::Matrix_Triangular(int, int)")
         (h, Triangular.mk 0 0 None None)).
Proof.
  intros Hi Hv. split; [|split; [split|]].
  - intros o [-> | ->]; reflexivity.
  - reflexivity.
  - intros T0 conv x. unfold HermPacked.Fill, HermPacked.GetDataSize.
    cbn [HermPacked.m_ HermPacked.data_].
    rewrite packed_size_valid by assumption.
    assert (Hpos : 0 < i * (i + 1) / 2)
      by (pose proof (triangle_even i); nia).
    destruct (Z.to_nat (i * (i + 1) / 2)) as [|c] eqn:E; [lia|]. reflexivity.
  - intros ok o H. unfold Triangular.Matrix_Triangular, Triangular.calloc.
    destruct (Z.eqb_spec i 0) as [E|_]; [lia|].
    destruct ok; [|reflexivity].
    destruct H as [H | [-> | ->]]; [discriminate| |];
      cbn [is_Some bool_decide negb andb]; unfold Triangular.allocate_data;
      cbn [allocate is_Some bool_decide negb andb];
      destruct (Z.eqb_spec i 0) as [E|_]; try lia; reflexivity.
Qed.

(** X22.  The constructor, [Reallocate] and [SetData] of a triangular
    matrix set the row pointers from the data pointer: [me_[k]] is
    [data_ + k * i] for every row [k]. *)
Theorem row_pointers_follow_data (S : Triangular.Storage) (cm : bool)
    (init : nat -> T) (i j : Z) (data : option loc) (h : heap)
    (A : Triangular.t) :
  0 <= i ->
  (exists h',
     Triangular.Matrix_Triangular cm true (AllocOk init) i j h
     = Done (h', Triangular.mk i i (Some (new_loc h))
                   (Some (Triangular.row_table (Some (new_loc h)) i (Z.to_nat i))))) /\
  (i <> Triangular.m_ A ->
   exists h',
     Triangular.Reallocate S cm true (AllocOk init) i j (h, A)
     = Done (h', Triangular.mk i i (Some (new_loc h))
                   (Some (Triangular.row_table (Some (new_loc h)) i (Z.to_nat i))))) /\
  (exists h',
     Triangular.SetData cm true i j data (h, A)
     = Done (h', Triangular.mk i i data
                   (Some (Triangular.row_table data i (Z.to_nat i))))) /\
  (forall ptr k, 0 <= k < i ->
     Triangular.row_table ptr i (Z.to_nat i) !! Z.to_nat k = Some (ptr, k * i)).
Proof.
  intros Hi. split; [|split; [|split]].
  - rewrite (Triangular_constructor S) by assumption. eauto.
  - intros Hne. rewrite Triangular_Reallocate_success by assumption. eauto.
  - rewrite Triangular_SetData_success by assumption. eauto.
  - intros ptr k Hk. rewrite row_table_lookup by lia.
    now rewrite Z2Nat.id by lia.
Qed.

End MemoryContracts.


(** ** The further contracts on concrete matrices *)

Section MoreExamples.

Import Store Examples.

Lemma packed_2x2_contents :
  HermPacked.contents (triangular_heap2, packed_2x2)
  = Some [Byte.x01; Byte.x02; Byte.x03].
Proof. reflexivity. Qed.

Lemma triangular_2x2_contents :
  Triangular.contents (triangular_heap2, triangular_2x2)
  = Some [Byte.x01; Byte.x02; Byte.x03; Byte.x04].
Proof. reflexivity. Qed.

(** Witness of X6: the packed and the triangular [2 x 2] matrices of
    bytes filled with [0x2a]. *)
Lemma Fill_fills_witness :
  (exists h',
     HermPacked.Fill (fun b : byte => b) Byte.x2a (triangular_heap2, packed_2x2)
     = Some (h', packed_2x2) /\
     HermPacked.contents (h', packed_2x2)
     = Some [Byte.x2a; Byte.x2a; Byte.x2a]) /\
  (exists h',
     Triangular.Fill (fun b : byte => b) Byte.x2a (triangular_heap2, triangular_2x2)
     = Some (h', triangular_2x2) /\
     Triangular.contents (h', triangular_2x2)
     = Some [Byte.x2a; Byte.x2a; Byte.x2a; Byte.x2a]).
Proof.
  destruct (Fill_fills (fun b : byte => b) Byte.x2a triangular_heap2 packed_2x2
              triangular_2x2 _ _ packed_2x2_contents triangular_2x2_contents)
    as ((h1 & H1 & C1 & _) & (h2 & H2 & C2 & _)).
  split; [exists h1|exists h2]; split; assumption.
Defined.

(** Witness of X7, with the byte of an index. *)
Lemma Fill0_counts_witness :
  (exists h',
     HermPacked.Fill0 (fun i => nth (Z.to_nat i) [Byte.x00; Byte.x01; Byte.x02; Byte.x03]
                                  Byte.xff)
       (triangular_heap2, packed_2x2)
     = Some (h', packed_2x2) /\
     HermPacked.contents (h', packed_2x2)
     = Some [Byte.x00; Byte.x01; Byte.x02]) /\
  (exists h',
     Triangular.Fill0 (fun i => nth (Z.to_nat i) [Byte.x00; Byte.x01; Byte.x02; Byte.x03]
                                  Byte.xff)
       (triangular_heap2, triangular_2x2)
     = Some (h', triangular_2x2) /\
     Triangular.contents (h', triangular_2x2)
     = Some [Byte.x00; Byte.x01; Byte.x02; Byte.x03]).
Proof.
  destruct (Fill0_counts
              (fun i => nth (Z.to_nat i) [Byte.x00; Byte.x01; Byte.x02; Byte.x03]
                          Byte.xff)
              triangular_heap2 packed_2x2 triangular_2x2 _ _
              packed_2x2_contents triangular_2x2_contents)
    as ((h1 & H1 & C1 & _) & (h2 & H2 & C2 & _)).
  split; [exists h1|exists h2]; split; assumption.
Defined.

(** Witness of X8 on the integers: the packed [2 x 2] matrix with stored
    elements 11, 12, 21 multiplied by 2 and then by 3. *)
Lemma mul_assign_scales_witness :
  exists h1 h2,
    HermPacked.ColHermPacked_mul_assign Z.mul 2 (triangular_heapZ, packed_2x2)
    = Some (h1, packed_2x2) /\
    HermPacked.contents (h1, packed_2x2) = Some [22; 24; 42] /\
    HermPacked.ColHermPacked_mul_assign Z.mul 3 (h1, packed_2x2)
    = Some (h2, packed_2x2) /\
    HermPacked.contents (h2, packed_2x2) = Some [66; 72; 126].
Proof.
  destruct (mul_assign_scales Z.mul 2 3 triangular_heapZ packed_2x2 [11; 12; 21]
              eq_refl) as (h1 & h2 & H1 & _ & C1 & _ & H2 & C2).
  exists h1, h2. repeat split; assumption.
Defined.

(** Witness of X10 on the integers. *)
Lemma SetIdentity_is_identity_witness :
  (exists h',
     HermPacked.SetIdentity HermPacked.RowHermPacked (fun z => z) 0 1
       (triangular_heapZ, packed_2x2) = Some (h', packed_2x2) /\
     HermPacked.Val HermPacked.RowHermPacked (h', packed_2x2) 0 0 = Some 1 /\
     HermPacked.Val HermPacked.RowHermPacked (h', packed_2x2) 0 1 = Some 0 /\
     HermPacked.Val HermPacked.RowHermPacked (h', packed_2x2) 1 1 = Some 1) /\
  (exists h',
     Triangular.SetIdentity Triangular.ColLoTriang (fun z => z) 0 1
       (triangular_heapZ, triangular_2x2) = Some (h', triangular_2x2) /\
     Triangular.Val Triangular.ColLoTriang (h', triangular_2x2) 0 0 = Some 1 /\
     Triangular.Val Triangular.ColLoTriang (h', triangular_2x2) 1 0 = Some 0 /\
     Triangular.Val Triangular.ColLoTriang (h', triangular_2x2) 0 1 = Some 0 /\
     Triangular.Val Triangular.ColLoTriang (h', triangular_2x2) 1 1 = Some 1).
Proof.
  assert (HP : HermPacked.wf (triangular_heapZ, packed_2x2)).
  { split; [split; cbn; lia|]. split; [reflexivity|].
    exists [11; 12; 21]. reflexivity. }
  destruct (SetIdentity_is_identity HermPacked.RowHermPacked Triangular.ColLoTriang
              (fun z => z) 0 1 triangular_heapZ packed_2x2 triangular_2x2
              HP triangular_Z_wf)
    as ((h1 & H1 & V1 & _) & (h2 & H2 & V2 & _)).
  split; [exists h1|exists h2]; (split; [assumption|]).
  - split; [|split]; apply V1; cbn; lia.
  - split; [|split; [|split]]; apply V2; cbn; lia.
Defined.

(** Witness of X9 on bytes. *)
Lemma Zero_clears_witness :
  (exists h',
     HermPacked.Zero (triangular_heap2, packed_2x2) = Some (h', packed_2x2) /\
     HermPacked.contents (h', packed_2x2)
     = Some [Byte.x00; Byte.x00; Byte.x00]) /\
  (exists h',
     Triangular.Zero (triangular_heap2, triangular_2x2)
     = Some (h', triangular_2x2) /\
     Triangular.contents (h', triangular_2x2)
     = Some [Byte.x00; Byte.x00; Byte.x00; Byte.x00]).
Proof.
  destruct (Zero_clears (VR := byte_rep) (Nat.lt_0_succ 0) triangular_heap2
              packed_2x2 triangular_2x2 _ _
              packed_2x2_wf packed_2x2_contents
              triangular_2x2_wf triangular_2x2_contents)
    as ((h1 & H1 & C1 & _) & (h2 & H2 & C2 & _)).
  split; [exists h1|exists h2]; split; assumption.
Defined.

(** Witness of X14: a stream of three bytes. *)
Lemma Read_short_header_witness :
  HermPacked.Read true false AllocNull
    (mkIstream true [Byte.x02; Byte.x00; Byte.x00])
    (triangular_heap2, packed_2x2) = Undefined /\
  Triangular.Read Triangular.RowUpTriang true false true AllocNull
    (mkIstream true [Byte.x02; Byte.x00; Byte.x00])
    (triangular_heap2, triangular_2x2) = Undefined.
Proof.
  apply (Read_short_header Triangular.RowUpTriang true false true AllocNull true
           [Byte.x02; Byte.x00; Byte.x00]
           (triangular_heap2, packed_2x2) (triangular_heap2, triangular_2x2));
    [cbn; lia | reflexivity].
Defined.

(** Witness of X15: the header of a [2 x 2] matrix followed by two
    bytes, read with [SELDON_CHECK_IO]. *)
Lemma Read_truncated_payload_witness :
  (exists hP',
     HermPacked.Read true true (AllocOk (fun _ => Byte.x00))
       (mkIstream true (encode_int 2 ++ encode_int 2 ++ [Byte.x01; Byte.x02]))
       (∅, packed_empty)
     = Thrown (IOError "Matrix_HermPacked::Read(ifstream& FileStream)"
                 input_failed) (mkIstream false [], hP') /\
     HermPacked.GetM (snd hP') = 2) /\
  (exists hA',
     Triangular.Read Triangular.RowUpTriang true true true
       (AllocOk (fun _ => Byte.x00))
       (mkIstream true (encode_int 2 ++ encode_int 2 ++ [Byte.x01; Byte.x02]))
       (triangular_heap2, triangular_2x2)
     = Thrown (IOError "Matrix_Triangular::Read(ifstream& FileStream)"
                 input_failed) (mkIstream false [], hA') /\
     Triangular.GetM (snd hA') = 2).
Proof.
  destruct (Read_truncated_payload (VR := byte_rep) Triangular.RowUpTriang true true
              (fun _ => Byte.x00) 2 [Byte.x01; Byte.x02] [Byte.x01; Byte.x02]
              (∅, packed_empty) (triangular_heap2, triangular_2x2))
    as ((hP' & H1 & M1 & _) & (hA' & H2 & M2 & _));
    [exact packed_empty_wf | split; cbn; lia | vm_compute; lia
    | exact triangular_2x2_wf | split; cbn; lia | vm_compute; lia |].
  split; [exists hP'|exists hA']; split; assumption.
Defined.

(** Witness of X17: a header of one row and two columns, followed by two
    bytes. *)
Lemma Triangular_Read_overruns_witness :
  Triangular.Read Triangular.RowUpTriang true true true
    (AllocOk (fun _ => Byte.x00))
    (mkIstream true (encode_int 1 ++ encode_int 2 ++ [Byte.x01; Byte.x02]))
    (triangular_heap2, triangular_2x2)
  = Undefined.
Proof.
  apply (Triangular_Read_overruns (VR := byte_rep));
    [vm_compute; lia | lia | lia | cbn; lia | vm_compute; lia].
Defined.

(** Witness of X13: a file that does not exist. *)
Lemma file_not_opened_witness :
  HermPacked.Read_file true true AllocNull true "A.bin" (fun _ => None)
    (triangular_heap2, packed_2x2)
  = Thrown (IOError "Matrix_HermPacked::Read(string FileName)"
              (unable_to_open "A.bin")) (triangular_heap2, packed_2x2) /\
  Triangular.Write_file true false "A.bin" (fun _ => None)
    (triangular_heap2, triangular_2x2)
  = Thrown (IOError "Matrix_Triangular::Write(string FileName)"
              (unable_to_open "A.bin")) (fun _ => None).
Proof.
  destruct (file_not_opened (VR := byte_rep) Triangular.RowUpTriang true true true
              AllocNull true "A.bin" (fun _ => None)
              (triangular_heap2, packed_2x2) (triangular_heap2, triangular_2x2))
    as (_ & H2 & H3 & _); [now right|].
  split; assumption.
Defined.

(** Witness of X16: a header that announces five columns. *)
Lemma HermPacked_Read_ignores_column_count_witness :
  exists hQ',
    HermPacked.Read true true (AllocOk (fun _ => Byte.x00))
      (mkIstream true (encode_int 2 ++ encode_int 5
                         ++ encode_all [Byte.x01; Byte.x02; Byte.x03] ++ []))
      (∅, packed_empty)
    = Done (mkIstream true [], hQ') /\
    HermPacked.GetM (snd hQ') = 2 /\ HermPacked.GetN (snd hQ') = 2 /\
    HermPacked.contents hQ' = Some [Byte.x01; Byte.x02; Byte.x03].
Proof.
  apply (HermPacked_Read_ignores_column_count byte_encode_length byte_decode_encode
           (Nat.lt_0_succ 0));
    [split; cbn; lia | cbn; lia | reflexivity | exact packed_empty_wf].
Defined.

(** Witness of X12: the two [2 x 2] matrices of bytes, each through a
    file. *)
Lemma file_roundtrip_witness :
  (exists fs' hQ',
     HermPacked.Write_file true true "A.bin" (fun _ => None)
       (triangular_heap2, packed_2x2) = Done fs' /\
     HermPacked.Read_file true true (AllocOk (fun _ => Byte.x00)) true "A.bin" fs'
       (∅, packed_empty) = Done hQ' /\
     HermPacked.contents hQ' = Some [Byte.x01; Byte.x02; Byte.x03]) /\
  (exists fs' hB',
     Triangular.Write_file true true "A.bin" (fun _ => None)
       (triangular_heap2, triangular_2x2) = Done fs' /\
     Triangular.Read_file Triangular.RowUpTriang true true true
       (AllocOk (fun _ => Byte.x00)) true "A.bin" fs' (∅, triangular_empty)
     = Done hB' /\
     Triangular.contents hB' = Some [Byte.x01; Byte.x02; Byte.x03; Byte.x04]).
Proof.
  assert (HE : Triangular.wf (∅ : gmap loc (list byte), triangular_empty)).
  { split; [split; cbn; lia|]. split; [reflexivity|]. split.
    - exists []. reflexivity.
    - cbn. lia. }
  destruct (file_roundtrip byte_encode_length byte_decode_encode (Nat.lt_0_succ 0)
              Triangular.RowUpTriang true true (fun _ => Byte.x00) "A.bin"
              (fun _ => None)
              (triangular_heap2, packed_2x2) (∅, packed_empty) _
              (triangular_heap2, triangular_2x2) (∅, triangular_empty) _
              packed_2x2_wf packed_2x2_contents packed_empty_wf
              triangular_2x2_wf triangular_2x2_contents HE)
    as ((fs1 & hQ' & W1 & _ & _ & R1 & _ & _ & C1)
        & (fs2 & hB' & W2 & _ & _ & R2 & _ & _ & C2)).
  split; [exists fs1, hQ'|exists fs2, hB']; repeat split; assumption.
Defined.

(** Witness of X11 on the upper triangular matrix of integers with rows
    [11 12] and [. 22]: the rows from 0 and the columns from 1. *)
Lemma Print_is_clipped_witness :
  (exists lines,
     Triangular.Print_sub Triangular.RowUpTriang 0 0 1 5 5 []
       (triangular_heapZ, triangular_2x2) = Some ([] ++ lines) /\
     length lines = 2%nat /\
     Forall (fun line => length line = 1%nat) lines) /\
  (exists lines,
     Triangular.Print Triangular.RowUpTriang 0 []
       (triangular_heapZ, triangular_2x2) = Some ([] ++ lines) /\
     Triangular.Print_l Triangular.RowUpTriang 0 7 []
       (triangular_heapZ, triangular_2x2) = Some ([] ++ lines) /\
     length lines = 2%nat).
Proof.
  destruct (Print_is_clipped (TR := Z_text) Triangular.RowUpTriang false 0
              0 1 5 5 7 [] (triangular_heapZ, triangular_2x2) triangular_Z_wf)
    as ((l1 & P1 & L1 & F1 & _) & (l2 & P2 & P3 & _ & L2));
    try (cbn; lia).
  split; [exists l1|exists l2]; repeat split; assumption.
Defined.

(** Witness of X18: a text of integers with a first line of two elements
    and a second line of one. *)
Lemma ReadText_refuses_witness :
  Triangular.ReadText (TR := Z_text) Triangular.RowUpTriang true true true
    AllocNull (mkItext true [[11; 12]; [22]]) (triangular_heapZ, triangular_2x2)
  = Thrown (IOError "Matrix_Pointers::ReadText(ifstream& FileStream)"
              "The file should contain same number of columns.")
      (mkItext false [], Triangular.Clear (triangular_heapZ, triangular_2x2)).
Proof.
  destruct (ReadText_refuses (TR := Z_text) Triangular.RowUpTriang true true
              AllocNull [] [[22]] [11; 12] (triangular_heapZ, triangular_2x2))
    as (_ & H & _); [discriminate | vm_compute; discriminate | exact H].
Defined.

(** Witness of X19: a packed and a triangular matrix constructed
    [1 x 1] beside the buffer of the caller, resized to two rows and
    filled, then cleared; and the triangular matrix reallocated to no row
    when [realloc] returns NULL for the row pointers. *)
Lemma matrix_keeps_to_its_block_witness :
  exists (hP hP' : gmap loc (list byte) * HermPacked.t)
         (hA hA' hA'' : gmap loc (list byte) * Triangular.t) (l : loc),
    HermPacked.Matrix_HermPacked true (AllocOk (fun _ => Byte.x00)) 1 1
      (<[user_buffer := [Byte.x0a]]> ∅) = Done hP /\
    rtc (HermPacked.Updates true true) hP hP' /\
    HermPacked.GetM (snd hP') = 2 /\
    HermPacked.Clear hP' = (<[user_buffer := [Byte.x0a]]> ∅, HermPacked.mk 0 0 None) /\
    fst hP' !! user_buffer = Some [Byte.x0a] /\
    Triangular.Matrix_Triangular true true (AllocOk (fun _ => Byte.x00)) 1 1
      (<[user_buffer := [Byte.x0a]]> ∅) = Done hA /\
    rtc (Triangular.Updates Triangular.RowUpTriang true true true) hA hA' /\
    Triangular.GetM (snd hA') = 2 /\
    fst hA' !! user_buffer = Some [Byte.x0a] /\
    Triangular.Clear hA'
    = (<[user_buffer := [Byte.x0a]]> ∅, Triangular.mk 0 0 None None) /\
    Triangular.data_ (snd hA') = Some l /\
    Triangular.Reallocate Triangular.RowUpTriang true false
      (AllocOk (fun _ => Byte.x00)) 0 0 hA' = Done hA'' /\
    Triangular.GetM (snd hA'') = 0 /\
    fst (Triangular.Clear hA'') !! l
    = Some [Byte.x2a; Byte.x2a; Byte.x2a; Byte.x2a].
Proof.
  destruct (HermPacked.Matrix_HermPacked true (AllocOk (fun _ => Byte.x00)) 1 1
              (<[user_buffer := [Byte.x0a]]> ∅)) as [hP| |] eqn:HP;
    [|discriminate|discriminate].
  destruct (HermPacked.RowHermPacked_Resize true (AllocOk (fun _ => Byte.x00)) 2 2 hP)
    as [hP1| |] eqn:H1;
    [|vm_compute in HP; injection HP as <-; vm_compute in H1; discriminate
     |vm_compute in HP; injection HP as <-; vm_compute in H1; discriminate].
  destruct (HermPacked.Fill (fun b : byte => b) Byte.x2a hP1) as [hP2|] eqn:H2;
    [|vm_compute in HP; injection HP as <-; vm_compute in H1; injection H1 as <-;
      vm_compute in H2; discriminate].
  destruct (Triangular.Matrix_Triangular true true (AllocOk (fun _ => Byte.x00)) 1 1
              (<[user_buffer := [Byte.x0a]]> ∅)) as [hA| |] eqn:HA;
    [|discriminate|discriminate].
  destruct (Triangular.Resize Triangular.RowUpTriang true true
              (AllocOk (fun _ => Byte.x00)) 2 2 hA) as [hA1| |] eqn:A1;
    [|vm_compute in HA; injection HA as <-; vm_compute in A1; discriminate
     |vm_compute in HA; injection HA as <-; vm_compute in A1; discriminate].
  destruct (Triangular.Fill (fun b : byte => b) Byte.x2a hA1) as [hA2|] eqn:A2;
    [|vm_compute in HA; injection HA as <-; vm_compute in A1; injection A1 as <-;
      vm_compute in A2; discriminate].
  assert (HsP : rtc (HermPacked.Updates true true) hP hP2).
  { eapply rtc_l; [eapply HermPacked.Updates_RowHermPacked_Resize; exact H1|].
    eapply rtc_l; [eapply HermPacked.Updates_Fill; exact H2|]. apply rtc_refl. }
  assert (HsA : rtc (Triangular.Updates Triangular.RowUpTriang true true true)
                  hA hA2).
  { eapply rtc_l; [eapply Triangular.Updates_Resize; exact A1|].
    eapply rtc_l; [eapply Triangular.Updates_Fill; exact A2|]. apply rtc_refl. }
  assert (HsA' : rtc (fun hB hB' => exists ok,
                        Triangular.Updates Triangular.RowUpTriang true true ok hB hB')
                   hA hA2).
  { eapply rtc_l; [exists true; eapply Triangular.Updates_Resize; exact A1|].
    eapply rtc_l; [exists true; eapply Triangular.Updates_Fill; exact A2|].
    apply rtc_refl. }
  destruct (matrix_keeps_to_its_block Triangular.RowUpTriang true true
              (fun _ => Byte.x00) 1 1 (<[user_buffer := [Byte.x0a]]> ∅)
              hP hP2 hA hA2 HP HsP HA HsA')
    as ((C1 & F1) & F2 & C2 & L2).
  assert (EA : hA2 = (<[9%positive := [Byte.x2a; Byte.x2a; Byte.x2a; Byte.x2a]]>
                        (<[user_buffer := [Byte.x0a]]> ∅),
                      Triangular.mk 2 2 (Some 9%positive)
                        (Some (Triangular.row_table (Some 9%positive) 2 2)))).
  { vm_compute in HA; injection HA as <-; vm_compute in A1; injection A1 as <-.
    vm_compute in A2. injection A2 as <-. vm_compute. reflexivity. }
  destruct (L2 eq_refl ltac:(rewrite EA; discriminate) 9%positive
              [Byte.x2a; Byte.x2a; Byte.x2a; Byte.x2a] (fun _ => Byte.x00) 0
              ltac:(rewrite EA; reflexivity) ltac:(rewrite EA; reflexivity))
    as (hA3 & R3 & M3 & _ & K3).
  exists hP, hP2, hA, hA2, hA3, 9%positive.
  split; [reflexivity|]. split; [exact HsP|].
  split.
  { vm_compute in HP; injection HP as <-; vm_compute in H1; injection H1 as <-.
    vm_compute in H2. injection H2 as <-. reflexivity. }
  split; [exact C1|]. split; [apply F1; reflexivity|].
  split; [reflexivity|]. split; [exact HsA|].
  split; [rewrite EA; reflexivity|].
  split; [apply F2; reflexivity|].
  split; [exact (C2 HsA)|].
  split; [rewrite EA; reflexivity|].
  split; [exact R3|]. split; [exact M3|exact K3].
Defined.

(** Witness of X20: the buffer of the caller given to the packed
    [1 x 1] and to the triangular [2 x 2] matrix. *)
Lemma SetData_then_Clear_frees_witness :
  fst (HermPacked.Clear
         (HermPacked.SetData 2 2 (Some user_buffer) (user_heap, packed_1x1)))
    !! user_buffer = None /\
  fst (HermPacked.Clear
         (HermPacked.Nullify
            (HermPacked.SetData 2 2 (Some user_buffer) (user_heap, packed_1x1))))
    !! user_buffer = Some [Byte.x0a; Byte.x0b; Byte.x0c; Byte.x0d].
Proof.
  destruct (SetData_then_Clear_frees 2 2 user_buffer
              [Byte.x0a; Byte.x0b; Byte.x0c; Byte.x0d] user_heap packed_1x1
              triangular_2x2) as ((_ & H1 & H2) & _);
    [reflexivity | discriminate | discriminate | lia |].
  split; assumption.
Defined.

(** Witness of X21, for two rows beside the packed [1 x 1] matrix. *)
Lemma constructor_allocation_failure_witness :
  HermPacked.Matrix_HermPacked true AllocNull 2 2 packed_heap
  = Done (packed_heap, HermPacked.mk 0 0 None) /\
  HermPacked.Matrix_HermPacked false AllocNull 2 2 packed_heap
  = Done (packed_heap, HermPacked.mk 2 2 None) /\
  HermPacked.Fill (fun b : byte => b) Byte.x2a (packed_heap, HermPacked.mk 2 2 None)
  = None /\
  Triangular.Matrix_Triangular true true AllocNull 2 2 packed_heap
  = Thrown (NoMemory "Matrix_Triangular::Matrix_Triangular(int, int)")
      (packed_heap, Triangular.mk 0 0 None None).
Proof.
  destruct (constructor_allocation_failure 2 2 packed_heap)
    as (H1 & (H2 & H3) & H4); [lia | split; cbn; lia |].
  split; [apply H1; now left|]. split; [exact H2|].
  split; [apply H3|apply H4; right; now left].
Defined.

(** Witness of X22: three rows. *)
Lemma row_pointers_follow_data_witness :
  exists h',
    Triangular.Matrix_Triangular true true (AllocOk (fun _ => Byte.x00)) 3 3
      packed_heap
    = Done (h', Triangular.mk 3 3 (Some (new_loc packed_heap))
                  (Some [(Some (new_loc packed_heap), 0);
                         (Some (new_loc packed_heap), 3);
                         (Some (new_loc packed_heap), 6)])).
Proof.
  destruct (row_pointers_follow_data Triangular.RowUpTriang true
              (fun _ => Byte.x00) 3 3 None packed_heap triangular_2x2)
    as ((h' & H) & _); [lia|].
  exists h'. exact H.
Defined.

End MoreExamples.
